(** * Self-Verify Solver: the extractor and the solve/verify/fix loop

    A shallow embedding of [app.py]: [extract_json], [call_llm] and
    [solve_one], together with the part of Python's [json] module and of
    the [re] search they rely on.

    Text is a sequence of Unicode code points, as a Python [str] is. *)

From Stdlib Require Import String Ascii.
From Stdlib Require Import List NArith ZArith Lia Bool.
From Stdlib Require Import Decimal DecimalPos DecimalZ.
Import ListNotations.

Open Scope N_scope.
Open Scope list_scope.

(** ** Text *)

Definition str := list N.

Abbreviation QUOTE := 34 (only parsing).
Abbreviation BACKSLASH := 92 (only parsing).
Abbreviation LBRACE := 123 (only parsing).
Abbreviation RBRACE := 125 (only parsing).
Abbreviation LBRACKET := 91 (only parsing).
Abbreviation RBRACKET := 93 (only parsing).
Abbreviation COMMA := 44 (only parsing).
Abbreviation COLON := 58 (only parsing).
Abbreviation MINUS := 45 (only parsing).
Abbreviation PLUS := 43 (only parsing).
Abbreviation DOT := 46 (only parsing).
Abbreviation SPACE := 32 (only parsing).

(** A literal of the source, written as a Rocq string. The backquote
    stands for the double quote, which a Rocq string cannot hold
    undoubled; no literal of [app.py] contains a backquote. *)
Fixpoint txt (s : string) : str :=
  match s with
  | EmptyString => []
  | String a r =>
      (if Ascii.eqb a "`"%char then QUOTE else N_of_ascii a) :: txt r
  end.

Fixpoint str_eqb (a b : str) : bool :=
  match a, b with
  | [], [] => true
  | x :: a', y :: b' => (x =? y) && str_eqb a' b'
  | _, _ => false
  end.

(** [s.startswith(p)], returning what follows the prefix. *)
Fixpoint strip_prefix (p s : str) : option str :=
  match p, s with
  | [], _ => Some s
  | x :: p', y :: s' => if x =? y then strip_prefix p' s' else None
  | _ :: _, [] => None
  end.

Fixpoint join (sep : str) (parts : list str) : str :=
  match parts with
  | [] => []
  | [p] => p
  | p :: rest => p ++ sep ++ join sep rest
  end.

(** ** Exceptions *)

Inductive exn : Type :=
| JSONDecodeError
| ValueError (msg : str)
| RecursionError
| AssertionError
| KeyError
| AttributeError
| ServiceError.

(** [MalformedOutput] of the specification: [ValueError] and its
    subclass [json.JSONDecodeError]. *)
Definition MalformedOutput (e : exn) : Prop :=
  e = JSONDecodeError \/ exists msg, e = ValueError msg.

(** ** The interpreter: built-ins and limits

    [str.lower], [repr] of a [str], and [repr] and truth value of a
    [float] depend on the Unicode tables and on IEEE arithmetic. They
    are taken as an interface; the laws are the facts about CPython the
    proofs use: an ASCII code point at the head of a string is
    lowercased on its own, ASCII text is lowercased letter by letter,
    and the [repr] of a [float] opens with a digit, a minus sign, or the
    first letter of [inf] or [nan].

    Two limits of the interpreter reach the program through [json]:
    [int_max_str_digits] is [sys.get_int_max_str_digits()], 4300 unless
    set otherwise and 0 when the limit is off; [recursion_budget] is the
    number of arrays and objects, one inside the other, that the decoder
    can enter where [extract_json] calls it before the recursion limit
    is reached (the limit, 1000 unless set otherwise, less the depth of
    the call stack). *)

Definition is_digit (c : N) : bool := (48 <=? c) && (c <=? 57).

Definition ascii_lower (c : N) : N :=
  if (65 <=? c) && (c <=? 90) then c + 32 else c.

Class Builtins : Type := {
  str_lower : str -> str;
  str_repr : str -> str;
  float_repr : str -> str;
  float_bool : str -> bool;
  int_max_str_digits : N;
  recursion_budget : nat;
  str_lower_head : forall c t, c < 128 ->
    exists t', str_lower (c :: t) = ascii_lower c :: t';
  str_lower_ascii : forall s, Forall (fun c => c < 128) s ->
    str_lower s = map ascii_lower s;
  float_repr_head : forall x, exists c t,
    float_repr x = c :: t /\
    (is_digit c = true \/ c = MINUS \/ c = 105 \/ c = 110)
}.

(** ** Python's [json] module

    The values [json.loads] builds and [json.dumps] prints. A [float] is
    kept as a lexeme [float()] is applied to ([Float s] stands for
    [float(s)]); the rounding to a double is outside the model, so two
    lexemes of one double are distinct here. A [dict] keeps its
    insertion order, which [json.dumps] follows. The decoder is the C
    scanner, which CPython uses by default. *)
Module json.

#[local] Unset Elimination Schemes.
Inductive value : Type :=
| Null
| Bool (b : bool)
| Int (z : Z)
| Float (lexeme : str)
| Str (s : str)
| List (items : list value)
| Dict (members : list (str * value)).
#[local] Set Elimination Schemes.

(** *** Encoder: [json.dumps(o, ensure_ascii=False)] *)

Fixpoint uint_chars (u : uint) : str :=
  match u with
  | Nil => []
  | D0 u => 48 :: uint_chars u
  | D1 u => 49 :: uint_chars u
  | D2 u => 50 :: uint_chars u
  | D3 u => 51 :: uint_chars u
  | D4 u => 52 :: uint_chars u
  | D5 u => 53 :: uint_chars u
  | D6 u => 54 :: uint_chars u
  | D7 u => 55 :: uint_chars u
  | D8 u => 56 :: uint_chars u
  | D9 u => 57 :: uint_chars u
  end.

(** [int.__repr__], when it returns *)
Definition int_repr (z : Z) : str :=
  match Z.to_int z with
  | Pos u => uint_chars u
  | Neg u => MINUS :: uint_chars u
  end.

Definition hex_digit (n : N) : N := if n <? 10 then 48 + n else 87 + n.

(** [ESCAPE_DCT]: the two-character escapes, and [\u00xx] for the other
    control characters; [ESCAPE] leaves every code point from 0x20 on
    alone, except the quote and the backslash. *)
Definition escape_char (c : N) : str :=
  if c =? QUOTE then [BACKSLASH; QUOTE]
  else if c =? BACKSLASH then [BACKSLASH; BACKSLASH]
  else if c =? 10 then [BACKSLASH; 110]
  else if c =? 13 then [BACKSLASH; 114]
  else if c =? 9 then [BACKSLASH; 116]
  else if c =? 8 then [BACKSLASH; 98]
  else if c =? 12 then [BACKSLASH; 102]
  else if c <? 32 then
    [BACKSLASH; 117; 48; 48; hex_digit (c / 16); hex_digit (c mod 16)]
  else [c].

Definition encode_basestring (s : str) : str :=
  QUOTE :: flat_map escape_char s ++ [QUOTE].

Definition count_digits (s : str) : N := N.of_nat (length (filter is_digit s)).

Section Codec.

Context {py : Builtins}.

(** The guard of [int(str)] and [str(int)]: a conversion of more than
    [sys.int_info.str_digits_check_threshold = 640] digits is refused
    when the limit is set and the number of digits exceeds it. *)
Definition digits_refused (digits : N) : bool :=
  (640 <? digits) && (0 <? int_max_str_digits) && (int_max_str_digits <? digits).

Definition decimal (n : N) : str := uint_chars (N.to_uint n).

(** The [ValueError] of [int(str)] *)
Definition int_from_str_error (digits : N) : exn :=
  ValueError
    (txt "Exceeds the limit (" ++ decimal int_max_str_digits
     ++ txt " digits) for integer string conversion: value has "
     ++ decimal digits
     ++ txt " digits; use sys.set_int_max_str_digits() to increase the limit").

(** The [ValueError] of [str(int)] *)
Definition int_to_str_error : exn :=
  ValueError
    (txt "Exceeds the limit (" ++ decimal int_max_str_digits
     ++ txt " digits) for integer string conversion;"
     ++ txt " use sys.set_int_max_str_digits() to increase the limit").

(** [float.__repr__], with the names [json] gives to the floats that
    are not finite ([allow_nan] is left at [True]). *)
Definition float_text (lexeme : str) : str :=
  let r := float_repr lexeme in
  if str_eqb r (txt "nan") then txt "NaN"
  else if str_eqb r (txt "inf") then txt "Infinity"
  else if str_eqb r (txt "-inf") then txt "-Infinity"
  else r.

(** The text [json.dumps(o, ensure_ascii=False)] returns; [dumps_raises]
    below tells when it raises instead. *)
Fixpoint dumps (o : value) : str :=
  match o with
  | Null => txt "null"
  | Bool true => txt "true"
  | Bool false => txt "false"
  | Int z => int_repr z
  | Float lexeme => float_text lexeme
  | Str s => encode_basestring s
  | List items =>
      LBRACKET :: join [COMMA; SPACE] (map dumps items) ++ [RBRACKET]
  | Dict members =>
      LBRACE ::
      join [COMMA; SPACE]
        (map (fun kv => encode_basestring (fst kv) ++ [COLON; SPACE] ++ dumps (snd kv))
             members)
      ++ [RBRACE]
  end.

(** The exception that ends [json.dumps(o)], if one does: the encoder
    walks [o] in order, [str(int)] refuses an integer with too many
    digits, and entering a [list] or a [dict] when [budget] of them are
    open already raises [RecursionError]. [budget] is the number of
    containers the interpreter lets the encoder nest where it is
    called. *)
Fixpoint dumps_raises (budget : nat) (o : value) {struct o} : option exn :=
  match o with
  | Int z =>
      if digits_refused (count_digits (int_repr z)) then Some int_to_str_error
      else None
  | List items =>
      match budget with
      | O => Some RecursionError
      | S budget' =>
          (fix first (l : list value) : option exn :=
             match l with
             | [] => None
             | o' :: l' =>
                 match dumps_raises budget' o' with
                 | Some e => Some e
                 | None => first l'
                 end
             end) items
      end
  | Dict members =>
      match budget with
      | O => Some RecursionError
      | S budget' =>
          (fix first (l : list (str * value)) : option exn :=
             match l with
             | [] => None
             | kv :: l' =>
                 match dumps_raises budget' (snd kv) with
                 | Some e => Some e
                 | None => first l'
                 end
             end) members
      end
  | _ => None
  end.

End Codec.

(** *** Decoder: [json.loads] *)

(** What a piece of the scanner gives: a value and the text after it,
    a syntax error ([StopIteration] or [JSONDecodeError] in the source),
    or another exception, which passes through [json.loads] unchanged.
    [OutOfFuel] is the bound of a [while True] loop of the model; it is
    never reached. *)
Inductive parsed (A : Type) : Type :=
| Parsed (a : A) (rest : str)
| SyntaxError
| Raises (e : exn)
| OutOfFuel.
Arguments Parsed {A} a rest.
Arguments SyntaxError {A}.
Arguments Raises {A} e.
Arguments OutOfFuel {A}.

Definition is_ws (c : N) : bool :=
  (c =? SPACE) || (c =? 9) || (c =? 10) || (c =? 13).

(** [WHITESPACE.match(s, end).end()] *)
Fixpoint skip_ws (s : str) : str :=
  match s with
  | c :: t => if is_ws c then skip_ws t else s
  | [] => []
  end.

Fixpoint span_digits (s : str) : str * str :=
  match s with
  | c :: t =>
      if is_digit c then let (ds, r) := span_digits t in (c :: ds, r)
      else ([], s)
  | [] => ([], [])
  end.

Fixpoint uint_of_chars (ds : str) : uint :=
  match ds with
  | [] => Nil
  | c :: t =>
      let u := uint_of_chars t in
      if c =? 48 then D0 u else if c =? 49 then D1 u
      else if c =? 50 then D2 u else if c =? 51 then D3 u
      else if c =? 52 then D4 u else if c =? 53 then D5 u
      else if c =? 54 then D6 u else if c =? 55 then D7 u
      else if c =? 56 then D8 u else D9 u
  end.

(** [int(integer)] on a lexeme of the integer group *)
Definition parse_int (integer : str) : Z :=
  match integer with
  | c :: ds =>
      if c =? MINUS then Z.opp (Z.of_uint (uint_of_chars ds))
      else Z.of_uint (uint_of_chars integer)
  | [] => 0%Z
  end.

(** [NUMBER_RE]: an integer group (an optional minus, then a lone 0 or
    a digit 1-9 followed by digits), an optional fraction group (a dot
    and one or more digits) and an optional exponent group (e or E, an
    optional sign, one or more digits). One function per group; each
    returns the group's text and the rest. *)
Definition match_unsigned (s : str) : option (str * str) :=
  match s with
  | c :: t =>
      if c =? 48 then Some ([48], t)
      else if is_digit c then Some (span_digits s)
      else None
  | [] => None
  end.

Definition match_integer (s : str) : option (str * str) :=
  match s with
  | c :: t =>
      if c =? MINUS then
        match match_unsigned t with
        | Some (ds, r) => Some (MINUS :: ds, r)
        | None => None
        end
      else match_unsigned s
  | [] => None
  end.

(** [head] followed by one or more digits of [t]; the group is empty,
    and nothing of [s] is consumed, when no digit is there. *)
Definition digits_after (s head t : str) : str * str :=
  match span_digits t with
  | ([], _) => ([], s)
  | (ds, r) => (head ++ ds, r)
  end.

Definition match_frac (s : str) : str * str :=
  match s with
  | c :: t => if c =? DOT then digits_after s [c] t else ([], s)
  | [] => ([], s)
  end.

Definition match_exp (s : str) : str * str :=
  match s with
  | c :: t =>
      if (c =? 101) || (c =? 69) then
        match t with
        | c2 :: t' =>
            if (c2 =? PLUS) || (c2 =? MINUS) then digits_after s [c; c2] t'
            else digits_after s [c] t
        | [] => digits_after s [c] t
        end
      else ([], s)
  | [] => ([], s)
  end.

Definition match_number (s : str) : option (value * str) :=
  match match_integer s with
  | None => None
  | Some (integer, r1) =>
      let (frac, r2) := match_frac r1 in
      let (exp, r3) := match_exp r2 in
      match frac ++ exp with
      | [] => Some (Int (parse_int integer), r3)
      | _ => Some (Float (integer ++ frac ++ exp), r3)
      end
  end.

Definition hex_val (c : N) : option N :=
  if is_digit c then Some (c - 48)
  else if (97 <=? c) && (c <=? 102) then Some (c - 87)
  else if (65 <=? c) && (c <=? 70) then Some (c - 55)
  else None.

(** [_decode_uXXXX]: four hexadecimal digits *)
Definition decode_uXXXX (h1 h2 h3 h4 : N) : option N :=
  match hex_val h1, hex_val h2, hex_val h3, hex_val h4 with
  | Some a, Some b, Some c, Some d => Some (((a * 16 + b) * 16 + c) * 16 + d)
  | _, _, _, _ => None
  end.

(** [BACKSLASH] table of the decoder *)
Definition backslash_char (esc : N) : option N :=
  if esc =? QUOTE then Some QUOTE
  else if esc =? BACKSLASH then Some BACKSLASH
  else if esc =? 47 then Some 47
  else if esc =? 98 then Some 8
  else if esc =? 102 then Some 12
  else if esc =? 110 then Some 10
  else if esc =? 114 then Some 13
  else if esc =? 116 then Some 9
  else None.

Definition cons_char (c : N) (r : option (str * str)) : option (str * str) :=
  match r with
  | Some (cs, rest) => Some (c :: cs, rest)
  | None => None
  end.

(** [scanstring(s, end, strict=True)], entered after the opening quote:
    the decoded string and what follows the closing quote. *)
Fixpoint scanstring (s : str) : option (str * str) :=
  match s with
  | [] => None
  | c :: t =>
      if c =? QUOTE then Some ([], t)
      else if c =? BACKSLASH then
        match t with
        | [] => None
        | esc :: t1 =>
            if esc =? 117 then
              match t1 with
              | h1 :: h2 :: h3 :: h4 :: t2 =>
                  match decode_uXXXX h1 h2 h3 h4 with
                  | None => None
                  | Some uni =>
                      if (55296 <=? uni) && (uni <=? 56319) then
                        match t2 with
                        | b :: u :: t3 =>
                            if (b =? BACKSLASH) && (u =? 117) then
                              match t3 with
                              | k1 :: k2 :: k3 :: k4 :: t4 =>
                                  match decode_uXXXX k1 k2 k3 k4 with
                                  | None => None
                                  | Some uni2 =>
                                      if (56320 <=? uni2) && (uni2 <=? 57343) then
                                        cons_char
                                          (65536 + ((uni - 55296) * 1024 + (uni2 - 56320)))
                                          (scanstring t4)
                                      else cons_char uni (scanstring t2)
                                  end
                              | _ => None
                              end
                            else cons_char uni (scanstring t2)
                        | _ => cons_char uni (scanstring t2)
                        end
                      else cons_char uni (scanstring t2)
                  end
              | _ => None
              end
            else
              match backslash_char esc with
              | Some ch => cons_char ch (scanstring t1)
              | None => None
              end
        end
      else if c <? 32 then None
      else cons_char c (scanstring t)
  end.

(** [d[k] = v] on an insertion-ordered [dict] *)
Fixpoint setitem (d : list (str * value)) (k : str) (v : value) : list (str * value) :=
  match d with
  | [] => [(k, v)]
  | (k', v') :: d' =>
      if str_eqb k' k then (k', v) :: d' else (k', v') :: setitem d' k v
  end.

(** [dict(pairs)] *)
Definition dict (pairs : list (str * value)) : list (str * value) :=
  fold_left (fun d kv => setitem d (fst kv) (snd kv)) pairs [].

(** The [while True] loop of [JSONArray], entered at a value. [n] bounds
    the number of rounds; each round consumes a comma. *)
Fixpoint array_loop (scan_once : str -> parsed value) (n : nat) (s : str)
  : parsed (list value) :=
  match n with
  | O => OutOfFuel
  | S n' =>
      match scan_once s with
      | Parsed v r =>
          match skip_ws r with
          | c :: t =>
              if c =? RBRACKET then Parsed [v] t
              else if c =? COMMA then
                match array_loop scan_once n' (skip_ws t) with
                | Parsed vs r' => Parsed (v :: vs) r'
                | SyntaxError => SyntaxError
                | Raises e => Raises e
                | OutOfFuel => OutOfFuel
                end
              else SyntaxError
          | [] => SyntaxError
          end
      | SyntaxError => SyntaxError
      | Raises e => Raises e
      | OutOfFuel => OutOfFuel
      end
  end.

Definition JSONArray (scan_once : str -> parsed value) (s : str) : parsed value :=
  match skip_ws s with
  | c :: t =>
      if c =? RBRACKET then Parsed (List []) t
      else
        match array_loop scan_once (S (length s)) (skip_ws s) with
        | Parsed vs r => Parsed (List vs) r
        | SyntaxError => SyntaxError
        | Raises e => Raises e
        | OutOfFuel => OutOfFuel
        end
  | [] => SyntaxError
  end.

(** The [while True] loop of [JSONObject], entered after the opening
    quote of a key. *)
Fixpoint object_loop (scan_once : str -> parsed value) (n : nat) (s : str)
  : parsed (list (str * value)) :=
  match n with
  | O => OutOfFuel
  | S n' =>
      match scanstring s with
      | None => SyntaxError
      | Some (key, r) =>
          match skip_ws r with
          | c :: t =>
              if c =? COLON then
                match scan_once (skip_ws t) with
                | Parsed v r1 =>
                    match skip_ws r1 with
                    | c1 :: t1 =>
                        if c1 =? RBRACE then Parsed [(key, v)] t1
                        else if c1 =? COMMA then
                          match skip_ws t1 with
                          | c2 :: t2 =>
                              if c2 =? QUOTE then
                                match object_loop scan_once n' t2 with
                                | Parsed pairs r' => Parsed ((key, v) :: pairs) r'
                                | SyntaxError => SyntaxError
                                | Raises e => Raises e
                                | OutOfFuel => OutOfFuel
                                end
                              else SyntaxError
                          | [] => SyntaxError
                          end
                        else SyntaxError
                    | [] => SyntaxError
                    end
                | SyntaxError => SyntaxError
                | Raises e => Raises e
                | OutOfFuel => OutOfFuel
                end
              else SyntaxError
          | [] => SyntaxError
          end
      end
  end.

Definition JSONObject (scan_once : str -> parsed value) (s : str) : parsed value :=
  match skip_ws s with
  | c :: t =>
      if c =? RBRACE then Parsed (Dict []) t
      else if c =? QUOTE then
        match object_loop scan_once (S (length s)) t with
        | Parsed pairs r => Parsed (Dict (dict pairs)) r
        | SyntaxError => SyntaxError
        | Raises e => Raises e
        | OutOfFuel => OutOfFuel
        end
      else SyntaxError
  | [] => SyntaxError
  end.

Section Scanner.

Context {py : Builtins}.

(** The digits of the integer group at [s], which [int()] counts. *)
Definition integer_digits (s : str) : N :=
  match match_integer s with
  | Some (integer, _) => count_digits integer
  | None => 0
  end.

(** [int(integer)] raises for the number matched at [s]. *)
Definition int_refused (s : str) (v : value) : bool :=
  match v with
  | Int _ => digits_refused (integer_digits s)
  | _ => false
  end.

(** [scan_once(s, idx)]. [depth] is the number of arrays and objects
    that may still be entered: [Py_EnterRecursiveCall] fails, with
    [RecursionError], at the bracket or brace that opens one too
    many. *)
Fixpoint scan_once (depth : nat) (s : str) : parsed value :=
  match s with
  | [] => SyntaxError
  | nextchar :: t =>
      if nextchar =? QUOTE then
        match scanstring t with
        | Some (x, r) => Parsed (Str x) r
        | None => SyntaxError
        end
      else if nextchar =? LBRACE then
        match depth with
        | O => Raises RecursionError
        | S depth' => JSONObject (scan_once depth') t
        end
      else if nextchar =? LBRACKET then
        match depth with
        | O => Raises RecursionError
        | S depth' => JSONArray (scan_once depth') t
        end
      else
        match strip_prefix (txt "null") s with
        | Some r => Parsed Null r
        | None =>
        match strip_prefix (txt "true") s with
        | Some r => Parsed (Bool true) r
        | None =>
        match strip_prefix (txt "false") s with
        | Some r => Parsed (Bool false) r
        | None =>
        match match_number s with
        | Some (v, r) =>
            if int_refused s v then Raises (int_from_str_error (integer_digits s))
            else Parsed v r
        | None =>
        match strip_prefix (txt "NaN") s with
        | Some r => Parsed (Float (txt "NaN")) r
        | None =>
        match strip_prefix (txt "Infinity") s with
        | Some r => Parsed (Float (txt "Infinity")) r
        | None =>
        match strip_prefix (txt "-Infinity") s with
        | Some r => Parsed (Float (txt "-Infinity")) r
        | None => SyntaxError
        end end end end end end end
  end.

(** [json.loads(s)] for a [str]. A text that opens with the byte order
    mark U+FEFF is refused; what follows the value must be white
    space. *)
Definition loads (s : str) : exn + value :=
  match strip_prefix [65279] s with
  | Some _ => inl JSONDecodeError
  | None =>
      match scan_once recursion_budget (skip_ws s) with
      | Parsed obj rest =>
          match skip_ws rest with
          | [] => inr obj
          | _ :: _ => inl JSONDecodeError
          end
      | SyntaxError => inl JSONDecodeError
      | Raises e => inl e
      | OutOfFuel => inl JSONDecodeError
      end
  end.

End Scanner.

End json.

Import json.

(** ** 1) Configuration *)

Definition MODEL_SOLVER : str := txt "deepseek-r1:1.5b".
Definition MODEL_VERIFIER : str := txt "deepseek-r1:1.5b".
Definition MODEL_FIXER : str := txt "deepseek-r1:1.5b".

Definition TEMPERATURE_SOLVER : str := txt "0.0".
Definition TEMPERATURE_VERIFIER : str := txt "0.0".
Definition TEMPERATURE_FIXER : str := txt "0.0".

Definition SEED : Z := 42.
Definition MAX_ITERS : Z := 3.
Definition TASK_TYPES : list str :=
  [txt "mcq"; txt "numeric"; txt "proof_outline"; txt "short_answer"].

(** ** 2) Prompt templates *)

Definition nl : str := [10].

Definition SOLVER_SYSTEM : str :=
  txt "You are a problem solver. Provide ONLY a single-line JSON object as output. "
  ++ txt "Do not include chain-of-thought. Keep reasoning internal.".

Definition SOLVER_FEWSHOT : list (str * str) :=
  [ (txt "mcq",
     txt "{`answer_type`:`mcq`,`final_answer_letter`:`B`,`key_checks`:[`letter in {A,B,C,D}`],`confidence`:0.78}");
    (txt "numeric",
     txt "{`answer_type`:`numeric`,`final_answer_value`:`42`,`key_checks`:[`units consistent`],`confidence`:0.75}");
    (txt "proof_outline",
     txt "{`answer_type`:`proof_outline`,`final_claim`:`g(n) is divisible by 3`,`key_lemmas`:[`mod arithmetic`],`key_checks`:[`no gap`],`confidence`:0.70}");
    (txt "short_answer",
     txt "{`answer_type`:`short_answer`,`final_answer_text`:`the graph is bipartite`,`key_checks`:[`no odd cycle`],`confidence`:0.72}") ].

(** [SOLVER_USER_TEMPLATE.format(task_type=..., fewshot=..., problem=...)] *)
Definition SOLVER_USER_TEMPLATE (task_type fewshot problem : str) : str :=
  txt "Task type: " ++ task_type ++ nl
  ++ txt "Provide your final answer in STRICT JSON (one line)." ++ nl
  ++ txt "Constraints:" ++ nl
  ++ txt "- Do NOT include any chain-of-thought." ++ nl
  ++ txt "- Keep output to ONE line JSON." ++ nl
  ++ txt "Example for " ++ task_type ++ txt ": " ++ fewshot ++ nl ++ nl
  ++ txt "Problem:" ++ nl ++ problem ++ nl.

Definition VERIFIER_SYSTEM : str :=
  txt "You are a strict solution verifier. Accept a problem and a candidate JSON answer. "
  ++ txt "Check ONLY for structure, consistency, and obvious logical issues; do NOT provide chain-of-thought. "
  ++ txt "Output a ONE-LINE JSON bug report: {`verdict`:`pass|fail`,`bugs`:[...],`bug_codes`:[...],`advice`:[...]}.".

(** [VERIFIER_USER_TEMPLATE.format(problem=..., candidate=...)] *)
Definition VERIFIER_USER_TEMPLATE (problem candidate : str) : str :=
  txt "Problem:" ++ nl ++ problem ++ nl ++ nl
  ++ txt "Candidate JSON (one line):" ++ nl ++ candidate ++ nl ++ nl
  ++ txt "Validation rules (non-exhaustive):" ++ nl
  ++ txt "- mcq: final_answer_letter must be one of A,B,C,D." ++ nl
  ++ txt "- numeric: final_answer_value simplified (no explanatory text)." ++ nl
  ++ txt "- proof_outline: final_claim present; key_lemmas/key_checks concise." ++ nl
  ++ txt "- short_answer: final_answer_text concise; avoid hedging." ++ nl
  ++ txt "- confidence in [0,1]." ++ nl
  ++ txt "Return ONE-LINE JSON as specified.".

Definition FIXER_SYSTEM : str :=
  txt "You are a fixer that revises the previous JSON answer using a bug report. "
  ++ txt "Return ONLY ONE-LINE JSON with the same schema as the solver's type. No chain-of-thought.".

(** [FIXER_USER_TEMPLATE.format(problem=..., candidate=..., bug_report=...)] *)
Definition FIXER_USER_TEMPLATE (problem candidate bug_report : str) : str :=
  txt "Problem:" ++ nl ++ problem ++ nl ++ nl
  ++ txt "Previous JSON answer:" ++ nl ++ candidate ++ nl ++ nl
  ++ txt "Bug report:" ++ nl ++ bug_report ++ nl ++ nl
  ++ txt "Revise your answer to FIX the bugs. Keep format STRICT and concise.".

(** ** Tool functions *)

(** The longest prefix of [s] that ends with a closing brace: what the
    greedy [.*\}] matches under [re.DOTALL]. *)
Fixpoint through_last_rbrace (s : str) : option str :=
  match s with
  | [] => None
  | c :: t =>
      match through_last_rbrace t with
      | Some m => Some (c :: m)
      | None => if c =? RBRACE then Some [c] else None
      end
  end.

(** [JSON_OBJ_RE.search(line)] for [JSON_OBJ_RE = re.compile(r"\{.*\}",
    re.DOTALL)]: the match at the leftmost position where one exists,
    as [m.group(0)]. *)
Fixpoint JSON_OBJ_RE_search (line : str) : option str :=
  match line with
  | [] => None
  | c :: t =>
      if c =? LBRACE then
        match through_last_rbrace t with
        | Some m => Some (c :: m)
        | None => JSON_OBJ_RE_search t
        end
      else JSON_OBJ_RE_search t
  end.

(** [extract_json(line)]. The [except] clause catches
    [json.JSONDecodeError] only: any other exception of the first
    [json.loads] leaves the function, as every exception of the second
    does. *)
Definition extract_json {py : Builtins} (line : str) : exn + value :=
  let search :=
    match JSON_OBJ_RE_search line with
    | Some m => loads m
    | None => inl (ValueError (txt "No valid JSON object found"))
    end in
  match loads line with
  | inr (Dict data) => inr (Dict data)
  | inr _ => search
  | inl JSONDecodeError => search
  | inl e => inl e
  end.

(** ** The generation service and the calls made to it *)

Record Request : Type := {
  model : str;
  system : str;
  user : str;
  temperature : str;
  seed : Z
}.

(** What [client.chat] does with a request: it answers with the text of
    [resp["message"]["content"]], or raises. *)
Inductive Reply : Type :=
| Content (text : str)
| Failure.

(** One call of [call_llm] as a test double would record it: the
    request sent and what the call returned or raised. *)
Record Exchange : Type := {
  request : Request;
  outcome : exn + value
}.

(** Computations that call the service: the exchanges so far are
    threaded through, and an exception ends the computation. *)
Definition M (A : Type) : Type := list Exchange -> (exn + A) * list Exchange.

Definition ret {A} (a : A) : M A := fun log => (inr a, log).
Definition raise {A} (e : exn) : M A := fun log => (inl e, log).
Definition bind {A B} (m : M A) (k : A -> M B) : M B :=
  fun log =>
    match m log with
    | (inr a, log') => k a log'
    | (inl e, log') => (inl e, log')
    end.

Declare Scope monad_scope.
Delimit Scope monad_scope with monad.
Notation "x <- m ;; k" := (bind m (fun x => k))
  (at level 100, m at next level, right associativity) : monad_scope.
Open Scope monad_scope.

(** [d[key]] on the few-shot table *)
Fixpoint getitem (d : list (str * str)) (key : str) : option str :=
  match d with
  | [] => None
  | (k, v) :: d' => if str_eqb k key then Some v else getitem d' key
  end.

Fixpoint lookup (members : list (str * value)) (key : str) : option value :=
  match members with
  | [] => None
  | (k, v) :: d' => if str_eqb k key then Some v else lookup d' key
  end.

(** [o.get(key, default)] *)
Definition dict_get (o : value) (key : str) (default : value) : exn + value :=
  match o with
  | Dict members =>
      inr (match lookup members key with Some v => v | None => default end)
  | _ => inl AttributeError
  end.

(** An iteration that completed: the candidate produced and the
    verifier's report on it. *)
Abbreviation Round := (value * value)%type.

Section Pipeline.

Context {py : Builtins}.

(** The service: its reply to a request, given the requests it has
    received before. *)
Variable chat : list Request -> Request -> Reply.

(** [repr(o)] *)
Fixpoint py_repr (o : value) : str :=
  match o with
  | Null => txt "None"
  | Bool true => txt "True"
  | Bool false => txt "False"
  | Int z => int_repr z
  | Float lexeme => float_repr lexeme
  | Str s => str_repr s
  | List items =>
      LBRACKET :: join [COMMA; SPACE] (map py_repr items) ++ [RBRACKET]
  | Dict members =>
      LBRACE ::
      join [COMMA; SPACE]
        (map (fun kv => str_repr (fst kv) ++ [COLON; SPACE] ++ py_repr (snd kv))
             members)
      ++ [RBRACE]
  end.

(** [str(o)] *)
Definition py_str (o : value) : str :=
  match o with
  | Str s => s
  | _ => py_repr o
  end.

(** [bool(o)] *)
Definition truthy (o : value) : bool :=
  match o with
  | Null => false
  | Bool b => b
  | Int z => negb (z =? 0)%Z
  | Float lexeme => float_bool lexeme
  | Str s => match s with [] => false | _ => true end
  | List items => match items with [] => false | _ => true end
  | Dict members => match members with [] => false | _ => true end
  end.

Definition call_llm (model system user temperature : str) : M value :=
  fun log =>
    let req := {| model := model; system := system; user := user;
                  temperature := temperature; seed := SEED |} in
    let out :=
      match chat (map request log) req with
      | Content text => extract_json text
      | Failure => inl ServiceError
      end in
    (out, log ++ [{| request := req; outcome := out |}]).

(** ** The self-verification pipeline *)

Record SolveResult : Type := {
  ok : bool;
  final_answer : value;
  iters : Z
}.

(** The loop's variables, and how one round of the loop ends. *)
Record Locals : Type := {
  candidate : value;
  verifier_out : value
}.

Inductive Flow : Type :=
| Return (res : SolveResult)
| Continue (vars : Locals).

(** The verdict the loop compares with ["pass"]:
    [str(verifier_out.get("verdict", "fail")).lower()]. *)
Definition verdict_of (verifier_out : value) : exn + str :=
  match dict_get verifier_out (txt "verdict") (Str (txt "fail")) with
  | inr v => inr (str_lower (py_str v))
  | inl e => inl e
  end.

(** The body of [for it in range(1, max_iters + 1)]. [json.dumps] is
    applied here to values [call_llm] returned and to nothing else; on
    these it does not raise ([gateway_encodable] below), so the text it
    returns stands for the call. *)
Definition loop_body (problem task_type : str) (it : Z) (vars : Locals) : M Flow :=
  cand <-
    match candidate vars with
    | Null =>
        match getitem SOLVER_FEWSHOT task_type with
        | Some fewshot =>
            call_llm MODEL_SOLVER SOLVER_SYSTEM
              (SOLVER_USER_TEMPLATE task_type fewshot problem) TEMPERATURE_SOLVER
        | None => raise KeyError
        end
    | _ =>
        let bug_report_json := dumps (verifier_out vars) in
        call_llm MODEL_FIXER FIXER_SYSTEM
          (FIXER_USER_TEMPLATE problem (dumps (candidate vars)) bug_report_json)
          TEMPERATURE_FIXER
    end ;;
  verifier_out <-
    call_llm MODEL_VERIFIER VERIFIER_SYSTEM
      (VERIFIER_USER_TEMPLATE problem (dumps cand)) TEMPERATURE_VERIFIER ;;
  match verdict_of verifier_out with
  | inl e => raise e
  | inr verdict =>
      if str_eqb verdict (txt "pass") then
        ret (Return {| ok := true; final_answer := cand; iters := it |})
      else
        ret (Continue {| candidate := cand; verifier_out := verifier_out |})
  end.

(** [n] rounds of the loop from index [it]. *)
Fixpoint for_range (problem task_type : str) (n : nat) (it : Z) (vars : Locals)
  : M Flow :=
  match n with
  | O => ret (Continue vars)
  | S n' =>
      flow <- loop_body problem task_type it vars ;;
      match flow with
      | Return res => ret (Return res)
      | Continue vars' => for_range problem task_type n' (it + 1) vars'
      end
  end.

Definition solve_one (problem task_type : str) (max_iters : Z) : M SolveResult :=
  if negb (existsb (str_eqb task_type) TASK_TYPES) then raise AssertionError
  else
    flow <-
      for_range problem task_type (Z.to_nat max_iters) 1
        {| candidate := Null; verifier_out := Dict [] |} ;;
    match flow with
    | Return res => ret res
    | Continue vars =>
        ret {| ok := false;
               final_answer :=
                 (if truthy (candidate vars) then candidate vars else Dict []);
               iters := max_iters |}
    end.

(** ** Describing a session

    The notions the statements about [solve_one] are written with. *)

(** What [call_llm] returns or raises for a request, given the requests
    the service has received before. *)
Definition gateway (h : list Request) (req : Request) : exn + value :=
  match chat h req with
  | Content text => extract_json text
  | Failure => inl ServiceError
  end.

Definition exchange (req : Request) (out : exn + value) : Exchange :=
  {| request := req; outcome := out |}.

(** The three kinds of call. *)
Definition solver_request (problem task_type fewshot : str) : Request :=
  {| model := MODEL_SOLVER; system := SOLVER_SYSTEM;
     user := SOLVER_USER_TEMPLATE task_type fewshot problem;
     temperature := TEMPERATURE_SOLVER; seed := SEED |}.

Definition fixer_request (problem : str) (candidate verifier_out : value) : Request :=
  {| model := MODEL_FIXER; system := FIXER_SYSTEM;
     user := FIXER_USER_TEMPLATE problem (dumps candidate) (dumps verifier_out);
     temperature := TEMPERATURE_FIXER; seed := SEED |}.

Definition verifier_request (problem : str) (cand : value) : Request :=
  {| model := MODEL_VERIFIER; system := VERIFIER_SYSTEM;
     user := VERIFIER_USER_TEMPLATE problem (dumps cand);
     temperature := TEMPERATURE_VERIFIER; seed := SEED |}.

(** The candidate-producing call of an iteration: the solver on the
    first one, the fixer, with the previous candidate and report, on the
    later ones. *)
Definition producer_request (problem task_type fewshot : str)
  (prev : option Round) : Request :=
  match prev with
  | None => solver_request problem task_type fewshot
  | Some (cand, report) => fixer_request problem cand report
  end.

(** The calls of completed iterations: for each, one candidate-producing
    call, then one verifier call on the candidate it returned. *)
Fixpoint rounds_log (problem task_type fewshot : str) (prev : option Round)
  (rounds : list Round) : list Exchange :=
  match rounds with
  | [] => []
  | (cand, report) :: more =>
      exchange (producer_request problem task_type fewshot prev) (inr cand)
      :: exchange (verifier_request problem cand) (inr report)
      :: rounds_log problem task_type fewshot (Some (cand, report)) more
  end.

Definition session_log (problem task_type fewshot : str) (rounds : list Round)
  : list Exchange :=
  rounds_log problem task_type fewshot None rounds.

(** The calls of an iteration that an exception [e] ended: the
    candidate-producing call raised, or it returned and the verifier
    call raised. *)
Definition aborted_round (problem task_type fewshot : str) (prev : option Round)
  (e : exn) (calls : list Exchange) : Prop :=
  calls = [exchange (producer_request problem task_type fewshot prev) (inl e)]
  \/ exists cand,
       calls = [exchange (producer_request problem task_type fewshot prev) (inr cand);
                exchange (verifier_request problem cand) (inl e)].

(** The round before the next iteration. *)
Definition last_round (prev : option Round) (rounds : list Round) : option Round :=
  match rounds with
  | [] => prev
  | r :: more => Some (last more r)
  end.

(** The loop's variables before the next iteration. *)
Definition vars_of (prev : option Round) : Locals :=
  match prev with
  | None => {| candidate := Null; verifier_out := Dict [] |}
  | Some (cand, report) => {| candidate := cand; verifier_out := report |}
  end.

(** A candidate kept from an earlier iteration is a [dict]. *)
Definition prev_ok (prev : option Round) : Prop :=
  match prev with
  | None => True
  | Some (cand, _) => exists d, cand = Dict d
  end.

(** The exchanges are what the service answers when it is sent these
    requests in this order after the requests [h]. *)
Fixpoint answered (h : list Request) (calls : list Exchange) : Prop :=
  match calls with
  | [] => True
  | e :: more =>
      outcome e = gateway h (request e) /\ answered (h ++ [request e]) more
  end.

(** The number of calls made with a given system prompt. *)
Definition calls_to (sys : str) (log : list Exchange) : nat :=
  length (filter (fun e => str_eqb (system (request e)) sys) log).

(** The report has a verdict that is a string equal to ["pass"] once
    lowercased. *)
Definition passes (report : value) : Prop :=
  exists members s,
    report = Dict members /\
    lookup members (txt "verdict") = Some (Str s) /\
    str_lower s = txt "pass".

(** The report has no verdict field, or its verdict is not a string, or
    it is a string other than ["pass"] up to case. *)
Definition fails_closed (members : list (str * value)) : Prop :=
  lookup members (txt "verdict") = None
  \/ (exists v, lookup members (txt "verdict") = Some v
                /\ forall s, v <> Str s)
  \/ (exists s, lookup members (txt "verdict") = Some (Str s)
                /\ str_lower s <> txt "pass").

(** The requests [solve_one] can send. *)
Definition pipeline_request (req : Request) : Prop :=
  model req = txt "deepseek-r1:1.5b" /\ temperature req = txt "0.0"
  /\ seed req = 42%Z
  /\ (system req = SOLVER_SYSTEM \/ system req = FIXER_SYSTEM
      \/ system req = VERIFIER_SYSTEM).

(** The candidate a session without success ends with. *)
Definition kept_candidate (rounds : list Round) : value :=
  match last_round None rounds with
  | Some (cand, _) => cand
  | None => Dict []
  end.

(** A completed iteration whose verdict is not ["pass"]. *)
Definition failing (round : Round) : Prop :=
  verdict_of (snd round) <> inr (txt "pass").

End Pipeline.

(** ** The web endpoints

    The bodies of [solve] and [api_solve]; what FastAPI does around
    them (parsing the form or the body, rendering the template or the
    JSON response) is outside the model. *)

(** Exceptions of the endpoints: those of the pipeline, and the ones the
    conversions of [api_solve] add. *)
Inductive api_exn : Type :=
| Raised (e : exn)
| TypeError
| OverflowError.

Section Endpoints.

Context {py : Builtins}.
Variable chat : list Request -> Request -> Reply.

(** [int(x)] for a [float] and for a [str]: the truncation of a double
    and Python's syntax of integer literals are taken as given. *)
Variable int_of_float : str -> api_exn + Z.
Variable int_of_str : str -> api_exn + Z.

(** [int(o)] *)
Definition py_int (o : value) : api_exn + Z :=
  match o with
  | Int z => inr z
  | Bool b => inr (if b then 1 else 0)%Z
  | Float lexeme => int_of_float lexeme
  | Str s => int_of_str s
  | Null | List _ | Dict _ => inl TypeError
  end.

(** The context [solve] hands to the template, without the request
    object. *)
Record TemplateContext : Type := {
  ctx_problem : str;
  ctx_task_type : str;
  ctx_result : SolveResult
}.

(** [solve(request, problem, task_type)]: both fields are form strings;
    the bound is the default [MAX_ITERS]. *)
Definition solve (problem task_type : str) : M TemplateContext :=
  res <- solve_one chat problem task_type MAX_ITERS ;;
  ret {| ctx_problem := problem; ctx_task_type := task_type; ctx_result := res |}.

(** [payload.get(key, default)] on the request body *)
Definition payload_get (payload : list (str * value)) (key : str) (default : value)
  : value :=
  match lookup payload key with
  | Some v => v
  | None => default
  end.

(** [api_solve(payload)]. The problem reaches the prompts through
    [str.format] only, which prints it as [str()] does. A task type that
    is not a string fails the assertion of [solve_one], after hashing it
    for the set membership, which a [list] or a [dict] does not
    support. *)
Definition api_solve (payload : list (str * value))
  : list Exchange -> (api_exn + value) * list Exchange :=
  fun log =>
    let problem := payload_get payload (txt "problem") (Str []) in
    let task_type := payload_get payload (txt "task_type") (Str (txt "mcq")) in
    match py_int (payload_get payload (txt "max_iters") (Int MAX_ITERS)) with
    | inl e => (inl e, log)
    | inr max_iters =>
        match task_type with
        | Str task_type =>
            match solve_one chat (py_str problem) task_type max_iters log with
            | (inr res, log') =>
                (inr (Dict [ (txt "ok", Bool (ok res));
                             (txt "final_answer", final_answer res);
                             (txt "iters", Int (iters res));
                             (txt "meta", Dict [(txt "model", Str MODEL_SOLVER)]) ]),
                 log')
            | (inl e, log') => (inl (Raised e), log')
            end
        | List _ | Dict _ => (inl TypeError, log)
        | _ => (inl (Raised AssertionError), log)
        end
    end.

End Endpoints.

(** ** Test doubles

    A service that answers from a script, call after call, whatever the
    request; and built-ins that agree with CPython on ASCII text, with
    the default limit on digits and the recursion limit of 1000 reached
    from a call stack about a hundred frames deep. *)

Definition scripted (script : list str) : list Request -> Request -> Reply :=
  fun h _ =>
    match nth_error script (length h) with
    | Some text => Content text
    | None => Failure
    end.

(** A service that gives the same answer to every request. *)
Definition always (text : str) : list Request -> Request -> Reply :=
  fun _ _ => Content text.

(** A stand-in for [int()] on strings: plain decimal literals only. *)
Definition sample_int_of_str (s : str) : api_exn + Z :=
  match match_integer s with
  | Some (integer, []) => inr (parse_int integer)
  | _ => inl (Raised (ValueError (txt "invalid literal for int() with base 10")))
  end.

(** A stand-in for [int()] on floats: the integral part of a plain
    decimal lexeme; everything else is taken to overflow. *)
Definition sample_int_of_float (lexeme : str) : api_exn + Z :=
  match match_integer lexeme with
  | Some (integer, c :: _) => if c =? DOT then inr (parse_int integer) else inl OverflowError
  | _ => inl OverflowError
  end.

Definition sample_builtins : Builtins.
Proof.
  refine {|
    str_lower := map ascii_lower;
    str_repr := fun s => 39 :: s ++ [39];
    float_repr := fun x =>
      match x with
      | c :: _ => if is_digit c || (c =? MINUS) then x else txt "nan"
      | [] => txt "nan"
      end;
    float_bool := fun _ => true;
    int_max_str_digits := 4300;
    recursion_budget := 900 |}.
  - intros c t _. eexists. reflexivity.
  - reflexivity.
  - intros [|c t].
    + eexists _, _. split; [reflexivity | auto].
    + destruct (is_digit c) eqn:D.
      * eexists _, _. split; [reflexivity | auto].
      * destruct (N.eqb_spec c MINUS) as [->|_].
        -- eexists _, _. split; [reflexivity | auto].
        -- eexists _, _. split; [reflexivity | auto].
Defined.

(** Sample texts and records for concrete sessions. *)

(** The candidate of the specification's concrete scenario. *)
Definition sample_candidate : list (str * value) :=
  [ (txt "answer_type", Str (txt "numeric"));
    (txt "final_answer_value", Str (txt "4"));
    (txt "key_checks", List []);
    (txt "confidence", Float (txt "0.9")) ].

Definition sample_problem : str := txt "What is 2+2?".

Definition sample_candidate_text : str :=
  txt "{`answer_type`:`numeric`,`final_answer_value`:`4`,`key_checks`:[],`confidence`:0.9}".

Definition sample_fail_text : str :=
  txt "{`verdict`:`fail`,`bugs`:[`no units`],`bug_codes`:[],`advice`:[]}".

Definition sample_pass_text : str :=
  txt "Verdict below. {`verdict`:`PASS`,`bugs`:[],`bug_codes`:[],`advice`:[]}".

Definition sample_no_verdict_text : str :=
  txt "{`bugs`:[],`bug_codes`:[],`advice`:[]}".

Definition sample_fewshot : str :=
  txt "{`answer_type`:`numeric`,`final_answer_value`:`42`,`key_checks`:[`units consistent`],`confidence`:0.75}".

Definition sample_fail_report : list (str * value) :=
  [ (txt "verdict", Str (txt "fail")); (txt "bugs", List [Str (txt "no units")]);
    (txt "bug_codes", List []); (txt "advice", List []) ].

Definition sample_pass_report : list (str * value) :=
  [ (txt "verdict", Str (txt "PASS")); (txt "bugs", List []);
    (txt "bug_codes", List []); (txt "advice", List []) ].

Definition sample_no_verdict_report : list (str * value) :=
  [ (txt "bugs", List []); (txt "bug_codes", List []); (txt "advice", List []) ].

(** ** What counts as a JSON value

    A decoded document holds finite floats only (the lexeme is a number
    of the JSON grammar, so neither [NaN] nor [Infinity]), and the keys
    of a [dict] are distinct. *)

Fixpoint distinct (ks : list str) : bool :=
  match ks with
  | [] => true
  | k :: r => negb (existsb (str_eqb k) r) && distinct r
  end.

Definition is_number_lexeme (lexeme : str) : bool :=
  match match_number lexeme with
  | Some (Float y, []) => str_eqb lexeme y
  | _ => false
  end.

Fixpoint is_json (o : value) : bool :=
  match o with
  | Float lexeme => is_number_lexeme lexeme
  | List items => forallb is_json items
  | Dict members =>
      distinct (map fst members)
      && forallb (fun kv => is_json (snd kv)) members
  | _ => true
  end.

(** A character that can continue a number. *)
Definition is_number_char (c : N) : bool :=
  is_digit c || (c =? DOT) || (c =? 101) || (c =? 69).

(** Text that may follow the lexeme of a number without changing it. *)
Definition delimited (rest : str) : Prop :=
  match rest with
  | [] => True
  | c :: _ => is_number_char c = false
  end.

Definition follows (o : value) (rest : str) : Prop :=
  match o with
  | Int _ | Float _ => delimited rest
  | _ => True
  end.

(** What follows a value inside an array or an object: a character
    that is there and cannot continue a number. *)
Definition closed_off (o : value) (rest : str) : Prop :=
  match o with
  | Int _ | Float _ =>
      match rest with
      | [] => False
      | c :: _ => is_number_char c = false
      end
  | _ => True
  end.


(** [r] is what remains of [s] after a prefix has been consumed. *)
Definition suffix (r s : str) : Prop := exists pre, s = pre ++ r.


(** ** Texts within the limits of the interpreter *)

Definition is_open (c : N) : bool := (c =? LBRACE) || (c =? LBRACKET).

(** The number of opening brackets and braces of a text. *)
Definition opens (s : str) : nat := length (filter is_open s).

(** The length of the run of digits a text opens with, and of the
    longest run of digits in it. *)
Fixpoint digit_run (s : str) : nat :=
  match s with
  | c :: t => if is_digit c then S (digit_run t) else O
  | [] => O
  end.

Fixpoint longest_digit_run (s : str) : nat :=
  match s with
  | [] => O
  | _ :: t => Nat.max (digit_run s) (longest_digit_run t)
  end.

(** The exception of [extract_json] on a text without a span. *)
Abbreviation NO_OBJECT := (ValueError (txt "No valid JSON object found")).

Section Notions.

Context {py : Builtins}.


(** A JSON value in the form the decoder returns for what the encoder
    prints: each float is kept as the lexeme [repr] writes for it. *)
Fixpoint canonical (o : value) : bool :=
  match o with
  | Float lexeme => is_number_lexeme lexeme && str_eqb (float_repr lexeme) lexeme
  | List items => forallb canonical items
  | Dict members =>
      distinct (map fst members)
      && forallb (fun kv => canonical (snd kv)) members
  | _ => true
  end.

(** ** Notions the facts about the decoder are stated with *)

Definition scan_suffix (scan : str -> parsed value) : Prop :=
  forall s v r, scan s = Parsed v r -> suffix r s.

Definition fuelled (scan : str -> parsed value) : Prop :=
  forall s, scan s <> OutOfFuel.

(** The first character of a value's text. *)
Definition value_start (c : N) : bool :=
  is_digit c || (c =? MINUS) || (c =? QUOTE) || (c =? LBRACE)
  || (c =? LBRACKET) || (c =? 110) || (c =? 116) || (c =? 102).

(** What the decoder is assumed to do on the text of one value. *)
Definition reads_back (scan : str -> parsed value) (o : value) : Prop :=
  canonical o = true /\
  forall r, follows o r -> scan (dumps o ++ r) = Parsed o r.

Definition array_text (items : list value) (rest : str) : str :=
  join [COMMA; SPACE] (map dumps items) ++ RBRACKET :: rest.

Definition member_text (kv : str * value) : str :=
  encode_basestring (fst kv) ++ [COLON; SPACE] ++ dumps (snd kv).

Definition object_text (members : list (str * value)) (rest : str) : str :=
  join [COMMA; SPACE] (map member_text members) ++ RBRACE :: rest.

(** The text of a non-empty object after the opening quote of its first
    key. *)
Definition object_body (k : str) (v : value) (more : list (str * value))
  (rest : str) : str :=
  flat_map escape_char k ++ QUOTE :: COLON :: SPACE ::
  dumps v ++
  match more with
  | [] => RBRACE :: rest
  | _ :: _ => COMMA :: SPACE :: object_text more rest
  end.

(** The cases of [scan_once] that open no array and no object. *)
Definition scan_scalar (s : str) : parsed value :=
  match strip_prefix (txt "null") s with
  | Some r => Parsed Null r
  | None =>
  match strip_prefix (txt "true") s with
  | Some r => Parsed (Bool true) r
  | None =>
  match strip_prefix (txt "false") s with
  | Some r => Parsed (Bool false) r
  | None =>
  match match_number s with
  | Some (v, r) =>
      if int_refused s v then Raises (int_from_str_error (integer_digits s))
      else Parsed v r
  | None =>
  match strip_prefix (txt "NaN") s with
  | Some r => Parsed (Float (txt "NaN")) r
  | None =>
  match strip_prefix (txt "Infinity") s with
  | Some r => Parsed (Float (txt "Infinity")) r
  | None =>
  match strip_prefix (txt "-Infinity") s with
  | Some r => Parsed (Float (txt "-Infinity")) r
  | None => SyntaxError
  end end end end end end end.

(** The shape of a call of [scan_once], by the first character. *)
Inductive scan_case (depth : nat) : str -> parsed value -> Prop :=
| scan_empty : scan_case depth [] SyntaxError
| scan_string t :
    scan_case depth (QUOTE :: t)
      match scanstring t with
      | Some (x, r) => Parsed (Str x) r
      | None => SyntaxError
      end
| scan_object_deep t : depth = O ->
    scan_case depth (LBRACE :: t) (Raises RecursionError)
| scan_object depth' t : depth = S depth' ->
    scan_case depth (LBRACE :: t) (JSONObject (scan_once depth') t)
| scan_array_deep t : depth = O ->
    scan_case depth (LBRACKET :: t) (Raises RecursionError)
| scan_array depth' t : depth = S depth' ->
    scan_case depth (LBRACKET :: t) (JSONArray (scan_once depth') t)
| scan_other c t :
    c <> QUOTE -> c <> LBRACE -> c <> LBRACKET ->
    scan_case depth (c :: t) (scan_scalar (c :: t)).

(** One scanner does on a longer text, with what cannot change a number
    after each value, what another does on the text. *)
Definition extends (scan scan' : str -> parsed value) : Prop :=
  forall s v r x,
    scan s = Parsed v r -> closed_off v r ->
    scan' (s ++ x) = Parsed v (r ++ x).

(** Where a scanner raises, a property of the text it was given
    holds. *)
Definition raises_only (scan : str -> parsed value)
  (P : exn -> str -> Prop) : Prop :=
  forall s e, scan s = Raises e -> P e s.

(** What an exception of the decoder says about the text: it has more
    opening brackets than the decoder may nest, or a run of digits
    that [int()] refuses. *)
Definition limit_reached (depth : nat) (e : exn) (s : str) : Prop :=
  (e = RecursionError /\ (depth < opens s)%nat)
  \/ (exists n, e = int_from_str_error n /\ digits_refused n = true
                /\ (N.to_nat n <= longest_digit_run s)%nat).

(** What [extract_json] does after its [try] statement: the search for
    a span and the parse of the span. *)
Definition second_tier (line : str) : exn + value :=
  match JSON_OBJ_RE_search line with
  | Some m => loads m
  | None => inl NO_OBJECT
  end.

End Notions.

(** * Facts about text *)

Ltac splits := repeat match goal with |- _ /\ _ => split end.

Lemma str_eqb_eq a b : str_eqb a b = true <-> a = b.
Proof.
  revert b; induction a as [|x a IH]; intros [|y b]; simpl; split;
    try congruence; try discriminate; auto.
  - intros H. apply andb_prop in H as [H1 H2].
    apply N.eqb_eq in H1. apply IH in H2. congruence.
  - intros H. injection H as -> ->.
    rewrite N.eqb_refl. simpl. now apply IH.
Qed.

Lemma str_eqb_refl a : str_eqb a a = true.
Proof. now apply str_eqb_eq. Qed.

Lemma str_eqb_neq a b : str_eqb a b = false <-> a <> b.
Proof.
  split.
  - intros H E. apply str_eqb_eq in E. congruence.
  - intros H. destruct (str_eqb a b) eqn:E; auto.
    apply str_eqb_eq in E. contradiction.
Qed.

Lemma strip_prefix_app p s : strip_prefix p (p ++ s) = Some s.
Proof.
  induction p as [|x p IH]; simpl; auto.
  now rewrite N.eqb_refl.
Qed.

Lemma strip_prefix_sound p s r : strip_prefix p s = Some r -> s = p ++ r.
Proof.
  revert s; induction p as [|x p IH]; intros s; simpl.
  - congruence.
  - destruct s as [|y s]; try discriminate.
    destruct (N.eqb_spec x y); try discriminate.
    intros H. apply IH in H. congruence.
Qed.

Lemma suffix_refl s : suffix s s.
Proof. now exists []. Qed.

Lemma suffix_cons c r s : suffix r s -> suffix r (c :: s).
Proof. intros [pre ->]. now exists (c :: pre). Qed.

Lemma suffix_trans a b c : suffix a b -> suffix b c -> suffix a c.
Proof.
  intros [p ->] [q ->]. exists (q ++ p). now rewrite app_assoc.
Qed.

Lemma suffix_length r s : suffix r s -> (length r <= length s)%nat.
Proof. intros [pre ->]. rewrite length_app. lia. Qed.

Lemma suffix_tail c r s : suffix (c :: r) s -> suffix r s.
Proof.
  intros [pre ->]. exists (pre ++ [c]). now rewrite <- app_assoc.
Qed.

Create HintDb sfx.
#[local] Hint Resolve suffix_refl suffix_cons suffix_tail : sfx.

(** * Facts about the decoder *)

Lemma skip_ws_suffix s : suffix (skip_ws s) s.
Proof.
  induction s as [|c s IH]; simpl; auto with sfx.
  destruct (is_ws c); auto with sfx.
Qed.

Lemma skip_ws_stop c t : is_ws c = false -> skip_ws (c :: t) = c :: t.
Proof. intros H. simpl. now rewrite H. Qed.

Lemma skip_ws_head s c t : skip_ws s = c :: t -> is_ws c = false.
Proof.
  induction s as [|x s IH]; simpl; try discriminate.
  destruct (is_ws x) eqn:E; auto. congruence.
Qed.


Lemma span_digits_sound s ds r :
  span_digits s = (ds, r) ->
  s = ds ++ r /\ Forall (fun c => is_digit c = true) ds /\
  match r with [] => True | c :: _ => is_digit c = false end.
Proof.
  revert ds r; induction s as [|c s IH]; simpl; intros ds r H.
  - injection H as <- <-. auto.
  - destruct (is_digit c) eqn:D.
    + destruct (span_digits s) as [ds' r'].
      injection H as <- <-.
      destruct (IH _ _ eq_refl) as (-> & F & L).
      repeat split; auto.
    + injection H as <- <-. auto.
Qed.

(** A run of digits is not changed by text that follows it, unless the
    run reached the end and the text opens with a digit. *)
Lemma span_digits_app s rest :
  delimited rest ->
  span_digits (s ++ rest) = (fst (span_digits s), snd (span_digits s) ++ rest).
Proof.
  intros D. induction s as [|c s IH]; simpl.
  - destruct rest as [|c rest]; simpl; auto.
    simpl in D. unfold is_number_char in D.
    destruct (is_digit c); simpl in D; try discriminate. reflexivity.
  - destruct (is_digit c); auto.
    rewrite IH. now destruct (span_digits s).
Qed.

Lemma delimited_head c rest :
  delimited (c :: rest) ->
  is_digit c = false /\ c <> DOT /\ c <> 101 /\ c <> 69.
Proof.
  unfold delimited, is_number_char. intros H.
  apply orb_false_elim in H as [H H3].
  apply orb_false_elim in H as [H H2].
  apply orb_false_elim in H as [H0 H1].
  apply N.eqb_neq in H1, H2, H3. auto.
Qed.

Lemma match_unsigned_app s rest g r :
  delimited rest ->
  match_unsigned s = Some (g, r) ->
  match_unsigned (s ++ rest) = Some (g, r ++ rest).
Proof.
  intros D. destruct s as [|c t]; try discriminate.
  unfold match_unsigned. rewrite <- app_comm_cons.
  destruct (c =? 48).
  { intros H; injection H as <- <-. reflexivity. }
  destruct (is_digit c) eqn:Dc; try discriminate.
  change (c :: t ++ rest) with ((c :: t) ++ rest).
  rewrite (span_digits_app (c :: t) rest D).
  destruct (span_digits (c :: t)). cbn [fst snd].
  intros H; injection H as <- <-; reflexivity.
Qed.

Lemma match_integer_app s rest g r :
  delimited rest ->
  match_integer s = Some (g, r) ->
  match_integer (s ++ rest) = Some (g, r ++ rest).
Proof.
  intros D. destruct s as [|c t]; try discriminate.
  unfold match_integer. rewrite <- app_comm_cons.
  destruct (c =? MINUS).
  - destruct (match_unsigned t) as [[ds r']|] eqn:E; try discriminate.
    rewrite (match_unsigned_app _ _ _ _ D E).
    intros H; injection H as <- <-; reflexivity.
  - change (c :: t ++ rest) with ((c :: t) ++ rest).
    now apply match_unsigned_app.
Qed.

Lemma digits_after_app s head t rest :
  delimited rest ->
  digits_after (s ++ rest) head (t ++ rest) =
  (fst (digits_after s head t), snd (digits_after s head t) ++ rest).
Proof.
  intros D. unfold digits_after. rewrite (span_digits_app t rest D).
  destruct (span_digits t) as [[|d ds] r]; reflexivity.
Qed.

Lemma match_frac_app s rest :
  delimited rest ->
  match_frac (s ++ rest) = (fst (match_frac s), snd (match_frac s) ++ rest).
Proof.
  intros D. destruct s as [|c t].
  - destruct rest as [|c rest]; auto. cbn.
    apply delimited_head in D as (_ & Hd & _).
    apply N.eqb_neq in Hd. now rewrite Hd.
  - change ((c :: t) ++ rest) with (c :: (t ++ rest)).
    unfold match_frac. destruct (c =? DOT); auto.
    change (c :: t ++ rest) with ((c :: t) ++ rest).
    now apply digits_after_app.
Qed.

(** An exponent group that reaches the end of its text is not changed
    by what follows. *)
Lemma match_exp_app s rest e :
  delimited rest ->
  match_exp s = (e, []) ->
  match_exp (s ++ rest) = (e, rest).
Proof.
  intros D. destruct s as [|c t].
  - intros H. injection H as <-.
    destruct rest as [|c rest]; auto. cbn.
    apply delimited_head in D as (_ & _ & He & HE).
    apply N.eqb_neq in He, HE. now rewrite He, HE.
  - change ((c :: t) ++ rest) with (c :: (t ++ rest)).
    unfold match_exp.
    destruct ((c =? 101) || (c =? 69)); try discriminate.
    assert (K : forall head t0,
      digits_after (c :: t) head t0 = (e, []) ->
      digits_after (c :: t ++ rest) head (t0 ++ rest) = (e, rest)).
    { intros head t0 H.
      change (c :: t ++ rest) with ((c :: t) ++ rest).
      rewrite (digits_after_app _ _ _ _ D), H. reflexivity. }
    destruct t as [|c2 t'].
    + intros H. unfold digits_after in H. simpl in H. discriminate.
    + change ((c2 :: t') ++ rest) with (c2 :: (t' ++ rest)).
      cbv beta iota.
      destruct ((c2 =? PLUS) || (c2 =? MINUS)).
      * apply K.
      * apply (K [c] (c2 :: t')).
Qed.

Lemma match_number_app x rest v :
  delimited rest ->
  match_number x = Some (v, []) ->
  match_number (x ++ rest) = Some (v, rest).
Proof.
  intros D. unfold match_number.
  destruct (match_integer x) as [[g r1]|] eqn:E1; try discriminate.
  rewrite (match_integer_app _ _ _ _ D E1).
  rewrite (match_frac_app _ _ D).
  destruct (match_frac r1) as [f r2] eqn:E2. cbn [fst snd].
  destruct (match_exp r2) as [e r3] eqn:E3.
  intros H.
  assert (r3 = []) as -> by (destruct (f ++ e); injection H; auto).
  rewrite (match_exp_app _ _ _ D E3).
  destruct (f ++ e); injection H as <-; reflexivity.
Qed.

(** ** Integers: [int()] reads back what [repr] prints *)

Lemma uint_chars_digits u : Forall (fun c => is_digit c = true) (uint_chars u).
Proof. induction u; simpl; constructor; auto. Qed.

Lemma span_digits_all ds :
  Forall (fun c => is_digit c = true) ds -> span_digits ds = (ds, []).
Proof.
  induction 1 as [|c ds H _ IH]; simpl; auto.
  now rewrite H, IH.
Qed.

Lemma uint_of_chars_chars u : uint_of_chars (uint_chars u) = u.
Proof. induction u; simpl; congruence. Qed.

Lemma unorm_head u :
  match unorm u with
  | Nil => False
  | D0 Nil => True
  | D0 _ => False
  | _ => True
  end.
Proof. induction u; simpl; auto. Qed.

Lemma to_uint_unorm p : unorm (Pos.to_uint p) = Pos.to_uint p.
Proof.
  rewrite <- DecimalPos.Unsigned.to_of, DecimalPos.Unsigned.of_to.
  reflexivity.
Qed.

(** The decimal form of a positive number opens with a digit from 1 to 9. *)
Lemma to_uint_head p :
  exists c t, uint_chars (Pos.to_uint p) = c :: t /\
              is_digit c = true /\ (c =? 48) = false /\ (c =? MINUS) = false.
Proof.
  pose proof (unorm_head (Pos.to_uint p)) as H.
  pose proof (DecimalPos.Unsigned.to_uint_nonzero p) as Z.
  rewrite to_uint_unorm in H.
  destruct (Pos.to_uint p) as [|u|u|u|u|u|u|u|u|u|u]; simpl;
    try contradiction; try (eexists _, _; repeat split; reflexivity).
  destruct u; contradiction.
Qed.

Lemma match_unsigned_to_uint p :
  match_unsigned (uint_chars (Pos.to_uint p)) =
  Some (uint_chars (Pos.to_uint p), []).
Proof.
  destruct (to_uint_head p) as (c & t & E & D & Z & _).
  pose proof (span_digits_all _ (uint_chars_digits (Pos.to_uint p))) as S.
  rewrite E in *. unfold match_unsigned. now rewrite Z, D, S.
Qed.

Lemma of_uint_to_uint p : Z.of_uint (Pos.to_uint p) = Z.pos p.
Proof.
  unfold Z.of_uint. now rewrite DecimalPos.Unsigned.of_to.
Qed.

Lemma match_number_int_repr z : match_number (int_repr z) = Some (Int z, []).
Proof.
  unfold match_number, int_repr. destruct z as [|p|p]; simpl Z.to_int.
  - reflexivity.
  - destruct (to_uint_head p) as (c & t & E & D & Z & M).
    unfold match_integer. rewrite match_unsigned_to_uint.
    rewrite E, M, <- E. simpl.
    unfold parse_int. rewrite E, M, <- E.
    now rewrite uint_of_chars_chars, of_uint_to_uint.
  - unfold match_integer. rewrite N.eqb_refl, match_unsigned_to_uint. simpl.
    now rewrite uint_of_chars_chars, of_uint_to_uint.
Qed.

Lemma int_repr_head z :
  exists c t, int_repr z = c :: t /\ is_ws c = false /\
    (c =? QUOTE) = false /\ (c =? LBRACE) = false /\ (c =? LBRACKET) = false.
Proof.
  unfold int_repr. destruct z as [|p|p]; simpl Z.to_int.
  - eexists _, _; repeat split; reflexivity.
  - destruct (to_uint_head p) as (c & t & E & D & _).
    exists c, t. rewrite E. split; auto.
    unfold is_digit in D. apply andb_prop in D as [D1 D2].
    apply N.leb_le in D1, D2. unfold is_ws.
    repeat split;
      repeat (apply orb_false_intro); apply N.eqb_neq; lia.
  - eexists _, _; repeat split; reflexivity.
Qed.

(** ** Strings: [scanstring] reads back what [encode_basestring] prints *)

Lemma hex_val_digit n : n < 16 -> hex_val (hex_digit n) = Some n.
Proof.
  intros H. unfold hex_digit, hex_val, is_digit.
  destruct (N.ltb_spec n 10).
  - replace ((48 <=? 48 + n) && (48 + n <=? 57)) with true.
    + f_equal. lia.
    + symmetry. apply andb_true_intro. split; apply N.leb_le; lia.
  - replace ((48 <=? 87 + n) && (87 + n <=? 57)) with false.
    + replace ((97 <=? 87 + n) && (87 + n <=? 102)) with true.
      * f_equal. lia.
      * symmetry. apply andb_true_intro. split; apply N.leb_le; lia.
    + symmetry. apply andb_false_intro2. apply N.leb_gt. lia.
Qed.

Lemma decode_control c :
  c < 32 ->
  decode_uXXXX 48 48 (hex_digit (c / 16)) (hex_digit (c mod 16)) = Some c.
Proof.
  intros H. unfold decode_uXXXX.
  assert (H1 : c / 16 < 16) by (apply N.Div0.div_lt_upper_bound; lia).
  assert (H2 : c mod 16 < 16) by (apply N.mod_lt; lia).
  rewrite (hex_val_digit _ H1), (hex_val_digit _ H2).
  change (hex_val 48) with (Some 0). cbv beta iota. f_equal.
  assert (E : c = 16 * (c / 16) + c mod 16) by (apply N.div_mod; lia).
  lia.
Qed.

Lemma scanstring_plain c t :
  (c =? QUOTE) = false -> (c =? BACKSLASH) = false -> (c <? 32) = false ->
  scanstring (c :: t) = cons_char c (scanstring t).
Proof. intros H1 H2 H3. cbn [scanstring]. now rewrite H1, H2, H3. Qed.

Lemma scanstring_control c t :
  c < 32 ->
  scanstring (BACKSLASH :: 117 :: 48 :: 48 ::
              hex_digit (c / 16) :: hex_digit (c mod 16) :: t)
  = cons_char c (scanstring t).
Proof.
  intros H. cbn [scanstring N.eqb Pos.eqb]. rewrite (decode_control c H).
  replace (55296 <=? c) with false by (symmetry; apply N.leb_gt; lia).
  reflexivity.
Qed.

Lemma scanstring_escape_char c t :
  scanstring (escape_char c ++ t) = cons_char c (scanstring t).
Proof.
  unfold escape_char.
  destruct (N.eqb_spec c QUOTE) as [->|Q]; [reflexivity|].
  destruct (N.eqb_spec c BACKSLASH) as [->|B]; [reflexivity|].
  destruct (N.eqb_spec c 10) as [->|?]; [reflexivity|].
  destruct (N.eqb_spec c 13) as [->|?]; [reflexivity|].
  destruct (N.eqb_spec c 9) as [->|?]; [reflexivity|].
  destruct (N.eqb_spec c 8) as [->|?]; [reflexivity|].
  destruct (N.eqb_spec c 12) as [->|?]; [reflexivity|].
  destruct (N.ltb_spec c 32) as [L|L].
  - now apply scanstring_control.
  - apply scanstring_plain.
    + now apply N.eqb_neq.
    + now apply N.eqb_neq.
    + now apply N.ltb_ge.
Qed.

Lemma scanstring_escape s rest :
  scanstring (flat_map escape_char s ++ QUOTE :: rest) = Some (s, rest).
Proof.
  induction s as [|c s IH]; [reflexivity|].
  simpl flat_map. rewrite <- app_assoc, scanstring_escape_char, IH.
  reflexivity.
Qed.

Lemma scanstring_encode s rest :
  scanstring (tl (encode_basestring s) ++ rest) = Some (s, rest).
Proof.
  unfold encode_basestring. simpl tl. rewrite <- app_assoc.
  apply scanstring_escape.
Qed.

(** What [scanstring] leaves is a suffix of its input. *)
Lemma scanstring_suffix_aux n :
  forall s, (length s <= n)%nat ->
  forall x r, scanstring s = Some (x, r) -> suffix r s.
Proof.
  induction n as [|n IH]; intros s L x r H.
  - destruct s; [discriminate | simpl in L; lia].
  - destruct s as [|c t]; [discriminate|]. simpl in L.
    assert (REC : forall c' t' x r,
      (length t' <= n)%nat ->
      cons_char c' (scanstring t') = Some (x, r) -> suffix r t').
    { intros c' t' x' r' L' E.
      destruct (scanstring t') as [[cs r'']|] eqn:E'; [|discriminate].
      simpl in E. injection E as <- <-. eapply IH; eauto. }
    cbn [scanstring] in H.
    repeat match type of H with
    | (if ?b then _ else _) = _ => destruct b
    | match ?l with [] => _ | _ :: _ => _ end = _ => destruct l
    | match ?o with Some _ => _ | None => _ end = _ => destruct o
    | None = _ => discriminate H
    | Some _ = _ => injection H as <- <-
    | cons_char _ (scanstring _) = _ =>
        apply REC in H; [|simpl in L |- *; lia]
    end; auto 20 with sfx.
Qed.

Lemma scanstring_suffix s x r : scanstring s = Some (x, r) -> suffix r s.
Proof. apply (scanstring_suffix_aux (length s)). lia. Qed.

Lemma match_unsigned_suffix s g r : match_unsigned s = Some (g, r) -> suffix r s.
Proof.
  destruct s as [|c t]; try discriminate. unfold match_unsigned.
  destruct (c =? 48).
  - intros H. injection H as <- <-. auto with sfx.
  - destruct (is_digit c); try discriminate.
    intros H.
    assert (H' : span_digits (c :: t) = (g, r)) by congruence.
    apply span_digits_sound in H' as (E & _). now exists g.
Qed.

Lemma match_integer_suffix s g r : match_integer s = Some (g, r) -> suffix r s.
Proof.
  destruct s as [|c t]; try discriminate. unfold match_integer.
  destruct (c =? MINUS).
  - destruct (match_unsigned t) as [[ds r']|] eqn:E; try discriminate.
    intros H. injection H as <- <-.
    apply match_unsigned_suffix in E. auto with sfx.
  - apply match_unsigned_suffix.
Qed.

Lemma digits_after_suffix s head t :
  suffix t s -> suffix (snd (digits_after s head t)) s.
Proof.
  intros H. unfold digits_after.
  destruct (span_digits t) as [ds r] eqn:E.
  apply span_digits_sound in E as (E & _).
  destruct ds; simpl; auto with sfx.
  eapply suffix_trans; [|exact H]. eexists; exact E.
Qed.

Lemma match_frac_suffix s : suffix (snd (match_frac s)) s.
Proof.
  destruct s as [|c t]; simpl; auto with sfx.
  destruct (c =? DOT); simpl; auto with sfx.
  apply digits_after_suffix. auto with sfx.
Qed.

Lemma match_exp_suffix s : suffix (snd (match_exp s)) s.
Proof.
  destruct s as [|c t]; simpl; auto with sfx.
  destruct ((c =? 101) || (c =? 69)); simpl; auto with sfx.
  destruct t as [|c2 t'].
  - apply digits_after_suffix. auto with sfx.
  - destruct ((c2 =? PLUS) || (c2 =? MINUS));
      apply digits_after_suffix; auto with sfx.
Qed.

Lemma match_number_suffix s v r : match_number s = Some (v, r) -> suffix r s.
Proof.
  unfold match_number.
  destruct (match_integer s) as [[g r1]|] eqn:E1; try discriminate.
  pose proof (match_frac_suffix r1) as S2.
  destruct (match_frac r1) as [f r2].
  pose proof (match_exp_suffix r2) as S3.
  destruct (match_exp r2) as [e r3]. simpl in S2, S3.
  apply match_integer_suffix in E1.
  assert (suffix r3 s) by eauto using suffix_trans.
  destruct (f ++ e); intros H'; injection H' as <- <-; assumption.
Qed.

(** A number is never a [dict], and its text is not empty. *)
Lemma match_number_kind s v r :
  match_number s = Some (v, r) ->
  (exists z, v = Int z) \/ (exists x, v = Float x).
Proof.
  unfold match_number.
  destruct (match_integer s) as [[g r1]|]; try discriminate.
  destruct (match_frac r1) as [f r2]. destruct (match_exp r2) as [e r3].
  destruct (f ++ e); intros H; injection H as <- <-; eauto.
Qed.

(** ** The decoder consumes a prefix of its input *)

Section DecoderFacts.

Context {py : Builtins}.

Lemma suffix_skip_ws r s : suffix r (skip_ws s) -> suffix r s.
Proof. intros H. eapply suffix_trans; [exact H | apply skip_ws_suffix]. Qed.

Lemma suffix_of_skip_ws c r s : skip_ws s = c :: r -> suffix (c :: r) s.
Proof. intros H. rewrite <- H. apply skip_ws_suffix. Qed.

Lemma array_loop_suffix scan n :
  scan_suffix scan ->
  forall s vs r, array_loop scan n s = Parsed vs r -> suffix r s.
Proof.
  intros HS. induction n as [|n IH]; intros s vs r H; [discriminate|].
  simpl in H.
  destruct (scan s) as [v r0| |?|] eqn:E; try discriminate.
  apply HS in E.
  destruct (skip_ws r0) as [|c t] eqn:W; try discriminate.
  apply suffix_of_skip_ws in W.
  assert (St : suffix t s) by eauto using suffix_trans, suffix_tail.
  destruct (c =? RBRACKET).
  - injection H as <- <-. exact St.
  - destruct (c =? COMMA); try discriminate.
    destruct (array_loop scan n (skip_ws t)) as [vs' r'| |?|] eqn:L;
      try discriminate.
    injection H as <- <-. apply IH in L.
    eauto using suffix_trans, suffix_skip_ws.
Qed.

(** The object loop stops at a closing brace. *)
Lemma object_loop_suffix scan n :
  scan_suffix scan ->
  forall s pairs r,
    object_loop scan n s = Parsed pairs r -> suffix (RBRACE :: r) s.
Proof.
  intros HS. induction n as [|n IH]; intros s pairs r H; [discriminate|].
  simpl in H.
  destruct (scanstring s) as [[key r0]|] eqn:E0; try discriminate.
  apply scanstring_suffix in E0.
  destruct (skip_ws r0) as [|c t] eqn:W0; try discriminate.
  apply suffix_of_skip_ws in W0.
  destruct (c =? COLON); try discriminate.
  destruct (scan (skip_ws t)) as [v r1| |?|] eqn:E1; try discriminate.
  apply HS in E1. apply suffix_skip_ws in E1.
  destruct (skip_ws r1) as [|c1 t1] eqn:W1; try discriminate.
  apply suffix_of_skip_ws in W1.
  assert (S1 : suffix (c1 :: t1) s)
    by eauto using suffix_trans, suffix_tail.
  destruct (N.eqb_spec c1 RBRACE) as [->|_].
  - injection H as <- <-. exact S1.
  - destruct (c1 =? COMMA); try discriminate.
    destruct (skip_ws t1) as [|c2 t2] eqn:W2; try discriminate.
    apply suffix_of_skip_ws in W2.
    destruct (c2 =? QUOTE); try discriminate.
    destruct (object_loop scan n t2) as [pairs' r'| |?|] eqn:L;
      try discriminate.
    injection H as <- <-. apply IH in L.
    eauto 6 using suffix_trans, suffix_tail.
Qed.

Lemma JSONArray_suffix scan s v r :
  scan_suffix scan -> JSONArray scan s = Parsed v r ->
  suffix r s /\ exists items, v = List items.
Proof.
  intros HS. unfold JSONArray.
  destruct (skip_ws s) as [|c t] eqn:W; try discriminate.
  apply suffix_of_skip_ws in W.
  destruct (c =? RBRACKET).
  - intros H. injection H as <- <-. eauto using suffix_tail.
  - destruct (array_loop scan (S (length s)) (c :: t)) as [vs r'| |?|] eqn:L;
      try discriminate.
    intros H. injection H as <- <-.
    apply (array_loop_suffix _ _ HS) in L. eauto using suffix_trans.
Qed.

Lemma JSONObject_suffix scan s v r :
  scan_suffix scan -> JSONObject scan s = Parsed v r ->
  suffix (RBRACE :: r) s /\ exists members, v = Dict members.
Proof.
  intros HS. unfold JSONObject.
  destruct (skip_ws s) as [|c t] eqn:W; try discriminate.
  apply suffix_of_skip_ws in W.
  destruct (N.eqb_spec c RBRACE) as [->|_].
  - intros H. injection H as <- <-. eauto.
  - destruct (c =? QUOTE); try discriminate.
    destruct (object_loop scan (S (length s)) t) as [pairs r'| |?|] eqn:L;
      try discriminate.
    intros H. injection H as <- <-.
    apply (object_loop_suffix _ _ HS) in L.
    eauto using suffix_trans, suffix_tail.
Qed.

(** [scan_once], one case after the other. *)
Lemma scan_once_eq depth s :
  scan_once depth s =
  match s with
  | [] => SyntaxError
  | nextchar :: t =>
      if nextchar =? QUOTE then
        match scanstring t with
        | Some (x, r) => Parsed (Str x) r
        | None => SyntaxError
        end
      else if nextchar =? LBRACE then
        match depth with
        | O => Raises RecursionError
        | S depth' => JSONObject (scan_once depth') t
        end
      else if nextchar =? LBRACKET then
        match depth with
        | O => Raises RecursionError
        | S depth' => JSONArray (scan_once depth') t
        end
      else
        match strip_prefix (txt "null") s with
        | Some r => Parsed Null r
        | None =>
        match strip_prefix (txt "true") s with
        | Some r => Parsed (Bool true) r
        | None =>
        match strip_prefix (txt "false") s with
        | Some r => Parsed (Bool false) r
        | None =>
        match match_number s with
        | Some (v, r) =>
            if int_refused s v then Raises (int_from_str_error (integer_digits s))
            else Parsed v r
        | None =>
        match strip_prefix (txt "NaN") s with
        | Some r => Parsed (Float (txt "NaN")) r
        | None =>
        match strip_prefix (txt "Infinity") s with
        | Some r => Parsed (Float (txt "Infinity")) r
        | None =>
        match strip_prefix (txt "-Infinity") s with
        | Some r => Parsed (Float (txt "-Infinity")) r
        | None => SyntaxError
        end end end end end end end
  end.
Proof. destruct depth; reflexivity. Qed.

Lemma scan_once_case depth s : scan_case depth s (scan_once depth s).
Proof.
  rewrite scan_once_eq. destruct s as [|c t]; [constructor|].
  destruct (N.eqb_spec c QUOTE) as [->|Q]; [constructor|].
  destruct (N.eqb_spec c LBRACE) as [->|B].
  { destruct depth; [now apply scan_object_deep | now eapply scan_object]. }
  destruct (N.eqb_spec c LBRACKET) as [->|K].
  { destruct depth; [now apply scan_array_deep | now eapply scan_array]. }
  now apply scan_other.
Qed.

(** What a scalar's scan returns: the text left, and a value that is
    no container. *)
Lemma scan_scalar_shape s v r :
  scan_scalar s = Parsed v r ->
  suffix r s /\ (forall d, v <> Dict d) /\ (forall l, v <> List l).
Proof.
  unfold scan_scalar. intros H.
  repeat match type of H with
  | match strip_prefix ?p s with Some _ => _ | None => _ end = _ =>
      let E := fresh "E" in
      destruct (strip_prefix p s) as [r'|] eqn:E;
      [ injection H as <- <-; apply strip_prefix_sound in E;
        split; [eexists; exact E | split; discriminate] | ]
  | match match_number s with Some _ => _ | None => _ end = _ =>
      let E := fresh "E" in
      destruct (match_number s) as [[v' r']|] eqn:E;
      [ destruct (int_refused s v'); [discriminate H|];
        injection H as <- <-;
        split; [now apply match_number_suffix in E|];
        apply match_number_kind in E as [[z ->]|[x ->]]; split; discriminate | ]
  end.
  discriminate H.
Qed.

(** Which value each first character leads to. *)
Lemma scan_once_shape depth :
  forall s v r, scan_once depth s = Parsed v r ->
  suffix r s /\
  match v with
  | Dict _ => exists t, s = LBRACE :: t /\ suffix (RBRACE :: r) t
  | _ => True
  end.
Proof.
  induction depth as [|depth IH]; intros s v r;
    [destruct (scan_once_case 0 s) as [ |t|t D|d' t D|t D|d' t D|c t Q B K]
    |destruct (scan_once_case (S depth) s) as [ |t|t D|d' t D|t D|d' t D|c t Q B K]];
    intros H; try discriminate H; try discriminate D.
  - destruct (scanstring t) as [[x r']|] eqn:E; try discriminate.
    injection H as <- <-. apply scanstring_suffix in E. auto with sfx.
  - apply scan_scalar_shape in H as (S1 & ND & _). split; auto.
    destruct v; auto. now elim (ND members).
  - destruct (scanstring t) as [[x r']|] eqn:E; try discriminate.
    injection H as <- <-. apply scanstring_suffix in E. auto with sfx.
  - injection D as <-.
    assert (HS : scan_suffix (scan_once depth)) by (intros ? ? ? E; now apply IH in E).
    apply (JSONObject_suffix _ _ _ _ HS) in H as (S1 & members & ->).
    split; eauto using suffix_tail with sfx.
  - injection D as <-.
    assert (HS : scan_suffix (scan_once depth)) by (intros ? ? ? E; now apply IH in E).
    apply (JSONArray_suffix _ _ _ _ HS) in H as (S1 & items & ->).
    auto with sfx.
  - apply scan_scalar_shape in H as (S1 & ND & _). split; auto.
    destruct v; auto. now elim (ND members).
Qed.

Lemma scan_once_suffix depth : scan_suffix (scan_once depth).
Proof. intros s v r H. now apply scan_once_shape in H. Qed.

(** ** The bound of the loops is never reached *)

Lemma array_loop_fuel scan n :
  scan_suffix scan -> fuelled scan ->
  forall s, (length s < n)%nat -> array_loop scan n s <> OutOfFuel.
Proof.
  intros HS F. induction n as [|n IH]; intros s L; [lia|].
  simpl. pose proof (F s) as F0.
  destruct (scan s) as [v r0| |?|] eqn:E; try congruence.
  apply HS in E.
  destruct (skip_ws r0) as [|c t] eqn:W; try discriminate.
  apply suffix_of_skip_ws in W.
  assert (St : suffix (c :: t) s) by eauto using suffix_trans.
  destruct (c =? RBRACKET); try discriminate.
  destruct (c =? COMMA); try discriminate.
  specialize (IH (skip_ws t)).
  apply suffix_length in St. simpl in St.
  pose proof (suffix_length _ _ (skip_ws_suffix t)).
  destruct (array_loop scan n (skip_ws t)); try discriminate.
  apply IH. lia.
Qed.

Lemma object_loop_fuel scan n :
  scan_suffix scan -> fuelled scan ->
  forall s, (length s < n)%nat -> object_loop scan n s <> OutOfFuel.
Proof.
  intros HS F. induction n as [|n IH]; intros s L; [lia|].
  simpl.
  destruct (scanstring s) as [[key r0]|] eqn:E0; try discriminate.
  apply scanstring_suffix in E0.
  destruct (skip_ws r0) as [|c t] eqn:W0; try discriminate.
  apply suffix_of_skip_ws in W0.
  destruct (c =? COLON); try discriminate.
  assert (S0 : suffix (skip_ws t) s).
  { eapply suffix_trans; [apply skip_ws_suffix|].
    eauto using suffix_trans, suffix_tail. }
  pose proof (F (skip_ws t)) as F0.
  destruct (scan (skip_ws t)) as [v r1| |?|] eqn:E1; try congruence.
  apply HS in E1.
  destruct (skip_ws r1) as [|c1 t1] eqn:W1; try discriminate.
  apply suffix_of_skip_ws in W1.
  assert (S1 : suffix (c1 :: t1) s) by eauto using suffix_trans.
  destruct (c1 =? RBRACE); try discriminate.
  destruct (c1 =? COMMA); try discriminate.
  destruct (skip_ws t1) as [|c2 t2] eqn:W2; try discriminate.
  apply suffix_of_skip_ws in W2.
  destruct (c2 =? QUOTE); try discriminate.
  specialize (IH t2).
  assert (length t2 < length s)%nat.
  { apply suffix_length in S1, W2. simpl in S1, W2. lia. }
  destruct (object_loop scan n t2); try discriminate.
  apply IH. lia.
Qed.

Lemma JSONArray_fuel scan s :
  scan_suffix scan -> fuelled scan -> JSONArray scan s <> OutOfFuel.
Proof.
  intros HS F. unfold JSONArray.
  pose proof (skip_ws_suffix s) as W.
  destruct (skip_ws s) as [|c t] eqn:E; try discriminate.
  destruct (c =? RBRACKET); try discriminate.
  pose proof (array_loop_fuel scan (S (length s)) HS F (c :: t)) as K.
  apply suffix_length in W.
  destruct (array_loop scan (S (length s)) (c :: t)); try discriminate.
  intros _. apply K; [lia | reflexivity].
Qed.

Lemma JSONObject_fuel scan s :
  scan_suffix scan -> fuelled scan -> JSONObject scan s <> OutOfFuel.
Proof.
  intros HS F. unfold JSONObject.
  pose proof (skip_ws_suffix s) as W.
  destruct (skip_ws s) as [|c t] eqn:E; try discriminate.
  destruct (c =? RBRACE); try discriminate.
  destruct (c =? QUOTE); try discriminate.
  pose proof (object_loop_fuel scan (S (length s)) HS F t) as K.
  apply suffix_length in W. simpl in W.
  destruct (object_loop scan (S (length s)) t); try discriminate.
  intros _. apply K; [lia | reflexivity].
Qed.

Lemma scan_scalar_fuel s : scan_scalar s <> OutOfFuel.
Proof.
  unfold scan_scalar.
  repeat match goal with
  | |- match ?o with Some _ => _ | None => _ end <> _ =>
      destruct o as [?|]; try discriminate
  | |- (let (_, _) := ?p in _) <> _ => destruct p
  | |- (if ?b then _ else _) <> _ => destruct b; try discriminate
  end.
Qed.

(** [OutOfFuel] is no outcome of [scan_once]: the bound each loop is
    given exceeds the number of its rounds. *)
Lemma scan_once_fuel depth : fuelled (scan_once depth).
Proof.
  induction depth as [|depth IH]; intros s;
    [destruct (scan_once_case 0 s) as [ |t|t D|d' t D|t D|d' t D|c t Q B K]
    |destruct (scan_once_case (S depth) s) as [ |t|t D|d' t D|t D|d' t D|c t Q B K]];
    try discriminate; try (destruct (scanstring t) as [[x r]|]; discriminate);
    try apply scan_scalar_fuel.
  - injection D as <-. apply JSONObject_fuel; auto using scan_once_suffix.
  - injection D as <-. apply JSONArray_fuel; auto using scan_once_suffix.
Qed.

(** ** Dictionaries with distinct keys *)

Lemma setitem_fresh d k v :
  Forall (fun k' => str_eqb k' k = false) (map fst d) ->
  setitem d k v = d ++ [(k, v)].
Proof.
  induction d as [|[k' v'] d IH]; simpl; intros H; auto.
  inversion H as [|? ? H1 H2]; subst. rewrite H1. f_equal. auto.
Qed.

Lemma distinct_app_cons acc k r :
  distinct (acc ++ k :: r) = true ->
  Forall (fun k' => str_eqb k' k = false) acc.
Proof.
  induction acc as [|a acc IH]; simpl; intros H; constructor.
  - apply andb_prop in H as [H _]. apply negb_true_iff in H.
    rewrite existsb_app in H. apply orb_false_elim in H as [_ H].
    simpl in H. now apply orb_false_elim in H as [H _].
  - apply andb_prop in H as [_ H]. auto.
Qed.

Lemma dict_fold pairs :
  forall acc, distinct (map fst (acc ++ pairs)) = true ->
  fold_left (fun d kv => setitem d (fst kv) (snd kv)) pairs acc = acc ++ pairs.
Proof.
  induction pairs as [|[k v] pairs IH]; intros acc H; simpl.
  - now rewrite app_nil_r.
  - rewrite setitem_fresh.
    + rewrite IH; rewrite <- app_assoc; auto.
    + rewrite map_app in H. simpl in H. eapply distinct_app_cons; eauto.
Qed.

(** [dict(pairs)] keeps pairs whose keys are distinct as they are. *)
Lemma dict_distinct pairs : distinct (map fst pairs) = true -> dict pairs = pairs.
Proof. intros H. apply (dict_fold pairs []). exact H. Qed.

(** ** Induction over values *)

Lemma value_ind (P : value -> Prop) :
  P Null -> (forall b, P (Bool b)) -> (forall z, P (Int z)) ->
  (forall x, P (Float x)) -> (forall s, P (Str s)) ->
  (forall items, Forall P items -> P (List items)) ->
  (forall members, Forall (fun kv => P (snd kv)) members -> P (Dict members)) ->
  forall o, P o.
Proof.
  intros HN HB HI HF HS HL HD.
  fix IH 1. intros [ |b|z|x|s|items|members].
  - exact HN.
  - apply HB.
  - apply HI.
  - apply HF.
  - apply HS.
  - apply HL. induction items as [|o items IHl]; constructor.
    + apply IH.
    + exact IHl.
  - apply HD. induction members as [|[k v] members IHl]; constructor.
    + apply IH.
    + exact IHl.
Qed.

(** ** [loads] reads back what [dumps] prints *)

Lemma match_number_head s v r :
  match_number s = Some (v, r) ->
  exists c t, s = c :: t /\ (c = MINUS \/ is_digit c = true).
Proof.
  unfold match_number.
  destruct (match_integer s) as [[g r1]|] eqn:E; try discriminate.
  intros _. destruct s as [|c t]; try discriminate.
  exists c, t. split; auto. unfold match_integer in E.
  destruct (N.eqb_spec c MINUS); auto. right.
  unfold match_unsigned in E.
  destruct (N.eqb_spec c 48) as [->|_]; auto.
  destruct (is_digit c); auto. discriminate.
Qed.

Lemma value_start_digit c : is_digit c = true -> value_start c = true.
Proof. intros H. unfold value_start. now rewrite H. Qed.

Lemma value_start_not c :
  value_start c = true ->
  is_ws c = false /\ (c =? RBRACKET) = false /\ (c =? RBRACE) = false
  /\ (c =? COMMA) = false.
Proof.
  unfold value_start, is_digit, is_ws. intros H.
  repeat match type of H with
  | (_ || _) = true => apply orb_true_iff in H as [H|H]
  end;
  try apply andb_prop in H as [H H'];
  try apply N.leb_le in H; try apply N.leb_le in H';
  try apply N.eqb_eq in H;
  repeat split; repeat apply orb_false_intro; apply N.eqb_neq; lia.
Qed.

Lemma is_number_lexeme_match x :
  is_number_lexeme x = true -> match_number x = Some (Float x, []).
Proof.
  unfold is_number_lexeme.
  destruct (match_number x) as [[[ | | |y| | | ] [|? ?]]|];
    try discriminate.
  intros H. apply str_eqb_eq in H. now subst.
Qed.

(** A float of a canonical value is printed as its lexeme, which is a
    number of the JSON grammar. *)
Lemma canonical_float x :
  canonical (Float x) = true ->
  match_number x = Some (Float x, []) /\ float_text x = x.
Proof.
  cbn [canonical]. intros H. apply andb_prop in H as [L R].
  apply str_eqb_eq in R. split; [now apply is_number_lexeme_match|].
  unfold float_text. rewrite R.
  assert (K : forall w, match_number w = None -> str_eqb x w = false).
  { intros w M. apply str_eqb_neq. intros ->.
    apply is_number_lexeme_match in L. congruence. }
  now rewrite !K by reflexivity.
Qed.

Lemma dumps_head o :
  canonical o = true -> exists c t, dumps o = c :: t /\ value_start c = true.
Proof.
  destruct o as [ |[|]|z|x|s|items|members]; intros H;
    try (eexists _, _; split; reflexivity).
  - unfold dumps, int_repr. destruct z as [|p|p]; simpl Z.to_int;
      try (eexists _, _; split; reflexivity).
    destruct (to_uint_head p) as (c & t & E & D & _).
    exists c, t. split; auto using value_start_digit.
  - apply canonical_float in H as (H & T). cbn [dumps]. rewrite T.
    destruct (match_number_head _ _ _ H) as (c & t & -> & [->|D]).
    + eexists _, _; split; reflexivity.
    + exists c, t. split; auto using value_start_digit.
Qed.

Lemma strip_prefix_head c' p c t :
  c' <> c -> strip_prefix (c' :: p) (c :: t) = None.
Proof. intros H. simpl. apply N.eqb_neq in H. now rewrite H. Qed.

Lemma scan_once_number depth s v r :
  match_number s = Some (v, r) -> int_refused s v = false ->
  scan_once depth s = Parsed v r.
Proof.
  intros H R. destruct (match_number_head _ _ _ H) as (c & t & -> & Hc).
  assert (c <> QUOTE /\ c <> LBRACE /\ c <> LBRACKET
          /\ 110 <> c /\ 116 <> c /\ 102 <> c) as (Q & B & K & N1 & N2 & N3).
  { destruct Hc as [->|D]; [repeat split; discriminate|].
    unfold is_digit in D. apply andb_prop in D as [D1 D2].
    apply N.leb_le in D1, D2. repeat split; lia. }
  rewrite scan_once_eq.
  apply N.eqb_neq in Q, B, K. rewrite Q, B, K.
  change (txt "null") with (110 :: txt "ull").
  change (txt "true") with (116 :: txt "rue").
  change (txt "false") with (102 :: txt "alse").
  rewrite !strip_prefix_head by assumption.
  now rewrite H, R.
Qed.

Lemma match_integer_int_repr z :
  match_integer (int_repr z) = Some (int_repr z, []).
Proof.
  unfold int_repr. destruct z as [|p|p]; simpl Z.to_int.
  - reflexivity.
  - destruct (to_uint_head p) as (c & t & E & D & Z & M).
    unfold match_integer. rewrite match_unsigned_to_uint.
    now rewrite E, M.
  - unfold match_integer. now rewrite N.eqb_refl, match_unsigned_to_uint.
Qed.

(** The decoder counts the digits the encoder printed. *)
Lemma integer_digits_int_repr z rest :
  delimited rest ->
  integer_digits (int_repr z ++ rest) = count_digits (int_repr z).
Proof.
  intros D. unfold integer_digits.
  now rewrite (match_integer_app _ _ _ _ D (match_integer_int_repr z)).
Qed.

Lemma delimited_close c rest :
  c = RBRACKET \/ c = RBRACE \/ c = COMMA -> delimited (c :: rest).
Proof. intros [-> | [-> | ->]]; reflexivity. Qed.

Lemma follows_close o c rest :
  c = RBRACKET \/ c = RBRACE \/ c = COMMA -> follows o (c :: rest).
Proof.
  intros H. destruct o; try exact I; now apply delimited_close.
Qed.

Lemma skip_ws_dumps o rest :
  canonical o = true -> skip_ws (dumps o ++ rest) = dumps o ++ rest.
Proof.
  intros H. destruct (dumps_head o H) as (c & t & -> & V).
  apply value_start_not in V as (W & _). now apply skip_ws_stop.
Qed.

Lemma array_text_cons o o2 items rest :
  array_text (o :: o2 :: items) rest
  = dumps o ++ COMMA :: SPACE :: array_text (o2 :: items) rest.
Proof. unfold array_text. cbn [map join]. now rewrite <- !app_assoc. Qed.

Lemma skip_ws_array_text o items rest :
  canonical o = true ->
  skip_ws (array_text (o :: items) rest) = array_text (o :: items) rest.
Proof.
  intros J. destruct items as [|o2 items].
  - unfold array_text. cbn [map join]. now apply skip_ws_dumps.
  - rewrite array_text_cons. now apply skip_ws_dumps.
Qed.

Lemma array_loop_dumps scan items :
  Forall (reads_back scan) items -> items <> [] ->
  forall n rest,
    (length (array_text items rest) < n)%nat ->
    array_loop scan n (array_text items rest) = Parsed items rest.
Proof.
  induction 1 as [|o items [J R] F IH]; intros NE n rest L;
    [congruence|].
  destruct n as [|n]; [lia|].
  destruct items as [|o2 items].
  - unfold array_text in *. cbn [map join] in *. cbn [array_loop].
    rewrite R; [reflexivity | auto using follows_close].
  - rewrite array_text_cons in *.
    rewrite length_app in L. simpl in L.
    cbn [array_loop]. rewrite R; [|auto using follows_close].
    inversion F as [|? ? [J2 _] _]; subst.
    cbn [skip_ws is_ws N.eqb Pos.eqb orb].
    rewrite (skip_ws_array_text _ _ _ J2).
    rewrite IH; [reflexivity | discriminate | lia].
Qed.

Lemma object_text_cons2 kv1 kv2 more rest :
  object_text (kv1 :: kv2 :: more) rest
  = member_text kv1 ++ [COMMA; SPACE] ++ object_text (kv2 :: more) rest.
Proof.
  unfold object_text. cbn [map].
  change (join [COMMA; SPACE]
            (member_text kv1 :: member_text kv2 :: map member_text more))
    with (member_text kv1 ++ [COMMA; SPACE] ++
          join [COMMA; SPACE] (member_text kv2 :: map member_text more)).
  now rewrite <- !app_assoc.
Qed.

Lemma object_text_cons k v more rest :
  object_text ((k, v) :: more) rest = QUOTE :: object_body k v more rest.
Proof.
  destruct more as [|kv more];
    [unfold object_text; cbn [map join] | rewrite object_text_cons2];
    unfold object_body, member_text, encode_basestring; cbn [fst snd];
    rewrite <- !app_comm_cons, <- !app_assoc; reflexivity.
Qed.

Lemma object_body_length k v more rest :
  length (object_body k v more rest)
  = (length (flat_map escape_char k) + 3 +
     length (dumps v ++
             match more with
             | [] => RBRACE :: rest
             | _ :: _ => COMMA :: SPACE :: object_text more rest
             end))%nat.
Proof. unfold object_body. rewrite length_app. simpl. lia. Qed.

Lemma object_loop_dumps scan more :
  Forall (fun kv => reads_back scan (snd kv)) more ->
  forall k v n rest,
    reads_back scan v ->
    (length (object_body k v more rest) < n)%nat ->
    object_loop scan n (object_body k v more rest) = Parsed ((k, v) :: more) rest.
Proof.
  induction 1 as [|[k2 v2] more R2 F IH]; intros k v n rest [J R] L;
    (destruct n as [|n]; [lia|]);
    rewrite object_body_length in L;
    unfold object_body; cbn [object_loop];
    rewrite scanstring_escape;
    cbn [skip_ws is_ws N.eqb Pos.eqb orb];
    rewrite (skip_ws_dumps _ _ J);
    (rewrite R; [|auto using follows_close]).
  - reflexivity.
  - cbn [skip_ws is_ws N.eqb Pos.eqb orb].
    rewrite object_text_cons in *.
    cbn [skip_ws is_ws N.eqb Pos.eqb orb].
    rewrite length_app in L. simpl in L.
    rewrite IH; [reflexivity | exact R2 | lia].
Qed.

Lemma forallb_Forall {A} (f : A -> bool) l :
  forallb f l = true -> Forall (fun x => f x = true) l.
Proof.
  induction l as [|x l IH]; simpl; intros H; constructor;
    apply andb_prop in H as [H1 H2]; auto.
Qed.

(** The encoder returns for a container when it may enter it and
    returns for each of its items. *)
Lemma dumps_raises_list budget items :
  dumps_raises budget (List items) = None ->
  exists budget', budget = S budget'
    /\ Forall (fun o => dumps_raises budget' o = None) items.
Proof.
  destruct budget as [|b]; [discriminate|]. intros H. exists b. split; auto.
  cbn [dumps_raises] in H.
  induction items as [|o items IH]; constructor;
    destruct (dumps_raises b o); try discriminate; auto.
Qed.

Lemma dumps_raises_dict budget members :
  dumps_raises budget (Dict members) = None ->
  exists budget', budget = S budget'
    /\ Forall (fun kv => dumps_raises budget' (snd kv) = None) members.
Proof.
  destruct budget as [|b]; [discriminate|]. intros H. exists b. split; auto.
  cbn [dumps_raises] in H.
  induction members as [|kv members IH]; constructor;
    destruct (dumps_raises b (snd kv)); try discriminate; auto.
Qed.

Lemma reads_back_all {A} (f : A -> value) depth l :
  Forall (fun a =>
    canonical (f a) = true ->
    forall depth rest,
      dumps_raises depth (f a) = None -> follows (f a) rest ->
      scan_once depth (dumps (f a) ++ rest) = Parsed (f a) rest) l ->
  Forall (fun a => canonical (f a) = true) l ->
  Forall (fun a => dumps_raises depth (f a) = None) l ->
  Forall (fun a => reads_back (scan_once depth) (f a)) l.
Proof.
  intros IH. induction IH as [|a l H _ IHf]; intros J E; constructor;
    inversion J; inversion E; subst; auto.
  split; auto.
Qed.

(** The decoder reads the text of a canonical value back, whatever
    follows it (for a number: whatever cannot continue a number), when
    it may nest as deep as the encoder had to and [int()] accepts what
    [str()] printed. *)
Theorem scan_once_dumps o :
  canonical o = true ->
  forall depth rest,
    dumps_raises depth o = None -> follows o rest ->
    scan_once depth (dumps o ++ rest) = Parsed o rest.
Proof.
  induction o as [ |b|z|x|s|items IH|members IH] using value_ind;
    intros J depth rest E D.
  - now rewrite scan_once_eq.
  - destruct b; now rewrite scan_once_eq.
  - apply scan_once_number.
    + apply match_number_app; auto. apply match_number_int_repr.
    + cbn [int_refused dumps]. rewrite integer_digits_int_repr by exact D.
      cbn [dumps_raises] in E. revert E. destruct (digits_refused (count_digits (int_repr z)));
        [intros E; discriminate E | reflexivity].
  - apply canonical_float in J as (J & T). cbn [dumps]. rewrite T.
    apply scan_once_number; [|reflexivity].
    now apply match_number_app.
  - cbn [dumps]. unfold encode_basestring.
    rewrite <- app_comm_cons, <- app_assoc, scan_once_eq.
    cbn [N.eqb Pos.eqb List.app]. now rewrite scanstring_escape.
  - apply dumps_raises_list in E as (d & -> & E).
    assert (T : dumps (List items) ++ rest = LBRACKET :: array_text items rest).
    { cbn [dumps]. unfold array_text. rewrite <- app_comm_cons.
      now rewrite <- app_assoc. }
    rewrite T. cbn [scan_once N.eqb Pos.eqb].
    destruct items as [|o items]; [reflexivity|].
    cbn [canonical] in J. apply forallb_Forall in J.
    assert (Jo : canonical o = true) by now inversion J.
    unfold JSONArray. rewrite (skip_ws_array_text _ _ _ Jo).
    assert (H : exists c t, array_text (o :: items) rest = c :: t
                            /\ (c =? RBRACKET) = false).
    { destruct (dumps_head o Jo) as (c & t & Eo & V).
      apply value_start_not in V as (_ & V & _).
      destruct items; [unfold array_text; cbn [map join]
                      | rewrite array_text_cons];
        rewrite Eo; eexists _, _; split; try reflexivity; assumption. }
    destruct H as (c & t & Et & Hc).
    rewrite Et at 1. cbv beta iota. rewrite Hc.
    rewrite (array_loop_dumps (scan_once d)); auto; try discriminate.
    apply (reads_back_all (fun o => o)); auto.
  - apply dumps_raises_dict in E as (d & -> & E).
    assert (T : dumps (Dict members) ++ rest = LBRACE :: object_text members rest).
    { cbn [dumps]. unfold object_text. rewrite <- app_comm_cons.
      now rewrite <- app_assoc. }
    rewrite T. cbn [scan_once N.eqb Pos.eqb].
    destruct members as [|[k v] more]; [reflexivity|].
    cbn [canonical] in J. apply andb_prop in J as [K J].
    apply forallb_Forall in J.
    rewrite object_text_cons. unfold JSONObject.
    cbn [skip_ws is_ws N.eqb Pos.eqb orb].
    assert (R : Forall (fun kv => reads_back (scan_once d) (snd kv))
                  ((k, v) :: more)).
    { apply (reads_back_all snd); auto. }
    inversion R as [|? ? Rv Rm]; subst.
    rewrite (object_loop_dumps (scan_once d)); auto.
    now rewrite (dict_distinct _ K).
Qed.

(** [json.loads(json.dumps(o, ensure_ascii=False)) == o], where the
    decoder may nest as deep as [o] does and accepts its integers. *)
Theorem loads_dumps o :
  canonical o = true -> dumps_raises recursion_budget o = None ->
  loads (dumps o) = inr o.
Proof.
  intros J E. unfold loads.
  destruct (dumps_head o J) as (c & t & Ed & V).
  assert (B : strip_prefix [65279] (dumps o) = None).
  { rewrite Ed. apply strip_prefix_head. intros <-. discriminate V. }
  pose proof (skip_ws_dumps o [] J) as W. rewrite app_nil_r in W.
  pose proof (scan_once_dumps o J recursion_budget [] E) as R.
  rewrite app_nil_r in R. rewrite B, W, R.
  - reflexivity.
  - destruct o; exact I.
Qed.

(** ** Where the decoder raises *)

Lemma array_loop_raises scan n :
  scan_suffix scan ->
  forall s e, array_loop scan n s = Raises e ->
  exists s', suffix s' s /\ scan s' = Raises e.
Proof.
  intros HS. induction n as [|n IH]; intros s e H; [discriminate|].
  simpl in H.
  destruct (scan s) as [v r0| |e0|] eqn:E; try discriminate.
  - apply HS in E.
    destruct (skip_ws r0) as [|c t] eqn:W; try discriminate.
    apply suffix_of_skip_ws in W.
    destruct (c =? RBRACKET); try discriminate.
    destruct (c =? COMMA); try discriminate.
    destruct (array_loop scan n (skip_ws t)) as [vs' r'| |e1|] eqn:L;
      try discriminate.
    injection H as <-. apply IH in L as (s' & S' & R).
    exists s'. split; auto.
    eauto 6 using suffix_trans, suffix_skip_ws, suffix_tail.
  - injection H as <-. exists s. auto with sfx.
Qed.

Lemma object_loop_raises scan n :
  scan_suffix scan ->
  forall s e, object_loop scan n s = Raises e ->
  exists s', suffix s' s /\ scan s' = Raises e.
Proof.
  intros HS. induction n as [|n IH]; intros s e H; [discriminate|].
  simpl in H.
  destruct (scanstring s) as [[key r0]|] eqn:E0; try discriminate.
  apply scanstring_suffix in E0.
  destruct (skip_ws r0) as [|c t] eqn:W0; try discriminate.
  apply suffix_of_skip_ws in W0.
  destruct (c =? COLON); try discriminate.
  assert (S0 : suffix (skip_ws t) s).
  { eapply suffix_trans; [apply skip_ws_suffix|].
    eauto using suffix_trans, suffix_tail. }
  destruct (scan (skip_ws t)) as [v r1| |e0|] eqn:E1; try discriminate.
  - apply HS in E1.
    destruct (skip_ws r1) as [|c1 t1] eqn:W1; try discriminate.
    apply suffix_of_skip_ws in W1.
    assert (S1 : suffix (c1 :: t1) s) by eauto using suffix_trans.
    destruct (c1 =? RBRACE); try discriminate.
    destruct (c1 =? COMMA); try discriminate.
    destruct (skip_ws t1) as [|c2 t2] eqn:W2; try discriminate.
    apply suffix_of_skip_ws in W2.
    destruct (c2 =? QUOTE); try discriminate.
    destruct (object_loop scan n t2) as [pairs' r'| |e1|] eqn:L;
      try discriminate.
    injection H as <-. apply IH in L as (s' & S' & R).
    exists s'. split; auto.
    eauto 8 using suffix_trans, suffix_tail.
  - injection H as <-. exists (skip_ws t). auto.
Qed.

Lemma JSONArray_raises scan s e :
  scan_suffix scan -> JSONArray scan s = Raises e ->
  exists s', suffix s' s /\ scan s' = Raises e.
Proof.
  intros HS. unfold JSONArray.
  pose proof (skip_ws_suffix s) as W.
  destruct (skip_ws s) as [|c t] eqn:E; try discriminate.
  destruct (c =? RBRACKET); try discriminate.
  destruct (array_loop scan (S (length s)) (c :: t)) as [vs r| |e1|] eqn:L;
    try discriminate.
  intros H. injection H as <-.
  apply (array_loop_raises _ _ HS) in L as (s' & S' & R).
  eauto using suffix_trans.
Qed.

Lemma JSONObject_raises scan s e :
  scan_suffix scan -> JSONObject scan s = Raises e ->
  exists s', suffix s' s /\ scan s' = Raises e.
Proof.
  intros HS. unfold JSONObject.
  pose proof (skip_ws_suffix s) as W.
  destruct (skip_ws s) as [|c t] eqn:E; try discriminate.
  destruct (c =? RBRACE); try discriminate.
  destruct (c =? QUOTE); try discriminate.
  destruct (object_loop scan (S (length s)) t) as [pairs r| |e1|] eqn:L;
    try discriminate.
  intros H. injection H as <-.
  apply (object_loop_raises _ _ HS) in L as (s' & S' & R).
  eauto using suffix_trans, suffix_tail.
Qed.

Lemma opens_app a b : opens (a ++ b) = (opens a + opens b)%nat.
Proof. unfold opens. now rewrite filter_app, length_app. Qed.

Lemma opens_suffix r s : suffix r s -> (opens r <= opens s)%nat.
Proof. intros [pre ->]. rewrite opens_app. lia. Qed.

Lemma digit_run_longest s : (digit_run s <= longest_digit_run s)%nat.
Proof. destruct s as [|c t]; [reflexivity|]. cbn [longest_digit_run]. lia. Qed.

Lemma longest_digit_run_suffix r s :
  suffix r s -> (longest_digit_run r <= longest_digit_run s)%nat.
Proof.
  intros [pre ->]. induction pre as [|c pre IH]; [reflexivity|].
  change ((c :: pre) ++ r) with (c :: (pre ++ r)).
  cbn [longest_digit_run]. lia.
Qed.



Lemma span_digits_run s : length (fst (span_digits s)) = digit_run s.
Proof.
  induction s as [|c s IH]; [reflexivity|]. cbn [span_digits digit_run].
  destruct (is_digit c); [|reflexivity].
  destruct (span_digits s). cbn [fst length] in *. now rewrite IH.
Qed.

Lemma filter_digits ds :
  Forall (fun c => is_digit c = true) ds -> filter is_digit ds = ds.
Proof.
  induction 1 as [|c ds H _ IH]; [reflexivity|].
  cbn [filter]. now rewrite H, IH.
Qed.

(** The digits [int()] counts form a run of digits of the text. *)
Lemma match_unsigned_digits s g r :
  match_unsigned s = Some (g, r) ->
  count_digits g = N.of_nat (length g) /\ (1 <= length g <= digit_run s)%nat.
Proof.
  destruct s as [|c t]; [discriminate|]. unfold match_unsigned.
  destruct (N.eqb_spec c 48) as [->|_].
  - intros H. injection H as <- <-. split; [reflexivity|]. cbn. lia.
  - destruct (is_digit c) eqn:D; [|discriminate]. intros H.
    assert (H' : span_digits (c :: t) = (g, r)) by congruence.
    pose proof (span_digits_run (c :: t)) as R. rewrite H' in R.
    cbn [fst] in R. apply span_digits_sound in H' as (_ & F & _).
    unfold count_digits. rewrite (filter_digits _ F). split; [reflexivity|].
    rewrite R. cbn [digit_run]. rewrite D. lia.
Qed.

Lemma integer_digits_run s :
  (N.to_nat (integer_digits s) <= longest_digit_run s)%nat.
Proof.
  unfold integer_digits.
  destruct (match_integer s) as [[g r]|] eqn:E; [|cbn; lia].
  destruct s as [|c t]; [discriminate|]. unfold match_integer in E.
  destruct (N.eqb_spec c MINUS) as [->|_].
  - destruct (match_unsigned t) as [[ds r']|] eqn:U; [|discriminate].
    injection E as <- <-. apply match_unsigned_digits in U as (C & L).
    unfold count_digits in *. cbn [filter is_digit N.leb N.compare Pos.compare
      Pos.compare_cont andb] in *.
    rewrite C, Nat2N.id. pose proof (digit_run_longest t).
    cbn [longest_digit_run]. lia.
  - apply match_unsigned_digits in E as (C & L).
    rewrite C, Nat2N.id. pose proof (digit_run_longest (c :: t)). lia.
Qed.

Lemma scan_scalar_raises s e :
  scan_scalar s = Raises e ->
  e = int_from_str_error (integer_digits s)
  /\ digits_refused (integer_digits s) = true.
Proof.
  unfold scan_scalar. intros H.
  repeat match type of H with
  | match strip_prefix ?p s with Some _ => _ | None => _ end = _ =>
      destruct (strip_prefix p s); [discriminate H|]
  | match match_number s with Some _ => _ | None => _ end = _ =>
      destruct (match_number s) as [[v' r']|]
  end; [|discriminate H].
  destruct v' as [ | |z| | | | ]; cbn [int_refused] in H; try discriminate H.
  destruct (digits_refused (integer_digits s)) eqn:R; [|discriminate H].
  injection H as <-. auto.
Qed.

(** An exception of the decoder tells that the text reached a limit. *)
Lemma scan_once_raises depth :
  forall s e, scan_once depth s = Raises e -> limit_reached depth e s.
Proof.
  induction depth as [|depth IH]; intros s e;
    [destruct (scan_once_case 0 s) as [ |t|t D|d' t D|t D|d' t D|c t Q B K]
    |destruct (scan_once_case (S depth) s) as [ |t|t D|d' t D|t D|d' t D|c t Q B K]];
    intros H; try discriminate H; try discriminate D;
    try (destruct (scanstring t) as [[x r]|]; discriminate H);
    try (apply scan_scalar_raises in H as (-> & R); right;
         exists (integer_digits (c :: t)); splits; auto;
         apply integer_digits_run).
  - injection H as <-. left. split; auto. cbn. lia.
  - injection H as <-. left. split; auto. cbn. lia.
  - injection D as <-.
    apply JSONObject_raises in H as (s' & S' & R); [|apply scan_once_suffix].
    apply IH in R as [(-> & L)|(n & -> & R & L)].
    + left. split; auto. apply opens_suffix in S'.
      change (opens (LBRACE :: t)) with (S (opens t)). lia.
    + right. exists n. splits; auto.
      apply longest_digit_run_suffix in S'. cbn [longest_digit_run]. lia.
  - injection D as <-.
    apply JSONArray_raises in H as (s' & S' & R); [|apply scan_once_suffix].
    apply IH in R as [(-> & L)|(n & -> & R & L)].
    + left. split; auto. apply opens_suffix in S'.
      change (opens (LBRACKET :: t)) with (S (opens t)). lia.
    + right. exists n. splits; auto.
      apply longest_digit_run_suffix in S'. cbn [longest_digit_run]. lia.
Qed.





(** ** The decoder on a longer text *)

Lemma skip_ws_app r c t x : skip_ws r = c :: t -> skip_ws (r ++ x) = c :: t ++ x.
Proof.
  induction r as [|a r IH]; [discriminate|]. cbn [skip_ws List.app].
  destruct (is_ws a); auto. intros H. injection H as <- <-. reflexivity.
Qed.

Lemma strip_prefix_app_r p s r x :
  strip_prefix p s = Some r -> strip_prefix p (s ++ x) = Some (r ++ x).
Proof.
  revert s. induction p as [|a p IH]; intros s; cbn [strip_prefix].
  - intros H. now injection H as <-.
  - destruct s as [|b s]; [discriminate|]. cbn [List.app].
    destruct (a =? b); [apply IH | discriminate].
Qed.

Lemma span_digits_ext t ds r x :
  span_digits t = (ds, r) -> r <> [] -> span_digits (t ++ x) = (ds, r ++ x).
Proof.
  revert ds. induction t as [|c t IH]; intros ds H N.
  - injection H as <- <-. contradiction.
  - cbn [span_digits List.app] in *. destruct (is_digit c).
    + destruct (span_digits t) as [ds' r'] eqn:E.
      injection H as <- <-. now rewrite (IH _ eq_refl N).
    + now injection H as <- <-.
Qed.

Lemma span_digits_none t r :
  span_digits t = ([], r) -> r = t /\ match t with c :: _ => is_digit c = false | [] => True end.
Proof.
  destruct t as [|c t]; cbn [span_digits].
  - intros H. now injection H as <-.
  - destruct (is_digit c); [destruct (span_digits t); discriminate|].
    intros H. now injection H as <-.
Qed.

Lemma match_unsigned_ext s g r x :
  match_unsigned s = Some (g, r) -> r <> [] ->
  match_unsigned (s ++ x) = Some (g, r ++ x).
Proof.
  destruct s as [|c t]; [discriminate|].
  change ((c :: t) ++ x) with (c :: (t ++ x)). unfold match_unsigned.
  destruct (c =? 48).
  { intros H _. now injection H as <- <-. }
  destruct (is_digit c); [|discriminate]. intros H N.
  change (c :: (t ++ x)) with ((c :: t) ++ x).
  destruct (span_digits (c :: t)) as [ds r'] eqn:E.
  injection H as <- <-. now rewrite (span_digits_ext _ _ _ x E N).
Qed.

Lemma match_integer_ext s g r x :
  match_integer s = Some (g, r) -> r <> [] ->
  match_integer (s ++ x) = Some (g, r ++ x).
Proof.
  destruct s as [|c t]; [discriminate|].
  change ((c :: t) ++ x) with (c :: (t ++ x)). unfold match_integer.
  destruct (c =? MINUS).
  - destruct (match_unsigned t) as [[ds r']|] eqn:E; [|discriminate].
    intros H N. injection H as <- <-.
    now rewrite (match_unsigned_ext _ _ _ x E N).
  - intros H N. change (c :: (t ++ x)) with ((c :: t) ++ x).
    now apply match_unsigned_ext.
Qed.

(** The two ways a group of digits after a head ends. *)
Lemma digits_after_cases s head t g r :
  digits_after s head t = (g, r) ->
  (g = [] /\ r = s /\ match t with c :: _ => is_digit c = false | [] => True end)
  \/ (exists ds, ds <> [] /\ g = head ++ ds /\ span_digits t = (ds, r)).
Proof.
  unfold digits_after. destruct (span_digits t) as [[|d ds] r'] eqn:E.
  - intros H. injection H as <- <-. left.
    apply span_digits_none in E as (_ & E). auto.
  - intros H. injection H as <- <-. right. exists (d :: ds).
    split; [discriminate | auto].
Qed.

Lemma digits_after_ext s head t g r x :
  digits_after s head t = (g, r) -> r <> [] -> t <> [] ->
  digits_after (s ++ x) head (t ++ x) = (g, r ++ x).
Proof.
  intros H N T. apply digits_after_cases in H as [(-> & -> & D)|(ds & Nd & -> & E)].
  - unfold digits_after. destruct t as [|c t]; [contradiction|].
    cbn [List.app span_digits]. now rewrite D.
  - unfold digits_after. rewrite (span_digits_ext _ _ _ x E N).
    destruct ds; [contradiction | reflexivity].
Qed.

Lemma match_frac_ext s f r x :
  match_frac s = (f, r) -> r <> [] -> r <> [DOT] ->
  match_frac (s ++ x) = (f, r ++ x).
Proof.
  destruct s as [|c t].
  - unfold match_frac. intros H N. injection H as <- <-. contradiction.
  - change ((c :: t) ++ x) with (c :: (t ++ x)). unfold match_frac.
    destruct (N.eqb_spec c DOT) as [->|_].
    + intros H N ND. change (DOT :: (t ++ x)) with ((DOT :: t) ++ x).
      apply digits_after_ext; auto. intros ->.
      unfold digits_after in H. cbn in H. injection H as <- <-. contradiction.
    + intros H _ _. now injection H as <- <-.
Qed.

Lemma match_exp_ext s e c t x :
  match_exp s = (e, c :: t) -> is_number_char c = false ->
  match_exp (s ++ x) = (e, c :: t ++ x).
Proof.
  intros H NC.
  assert (K : forall s0 head t0,
    (exists c0 r0, s0 = c0 :: r0 /\ is_number_char c0 = true) ->
    digits_after s0 head t0 = (e, c :: t) -> t0 <> [] ->
    digits_after (s0 ++ x) head (t0 ++ x) = (e, c :: t ++ x)).
  { intros s0 head t0 _ D T.
    apply (digits_after_ext _ _ _ _ _ x D); [discriminate | exact T]. }
  assert (B : forall s0 head,
    (exists c0 r0, s0 = c0 :: r0 /\ is_number_char c0 = true) ->
    digits_after s0 head [] = (e, c :: t) -> False).
  { intros s0 head (c0 & r0 & -> & C0) D. unfold digits_after in D.
    cbn in D. injection D as _ <- _. congruence. }
  destruct s as [|c2 t2]; [discriminate|].
  change ((c2 :: t2) ++ x) with (c2 :: (t2 ++ x)). unfold match_exp in *.
  destruct ((c2 =? 101) || (c2 =? 69)) eqn:EE.
  - assert (C2 : exists c0 r0, c2 :: t2 = c0 :: r0 /\ is_number_char c0 = true).
    { exists c2, t2. split; auto. unfold is_number_char.
      apply orb_true_iff in EE as [EE|EE]; rewrite EE;
        now rewrite ?orb_true_r. }
    destruct t2 as [|c3 t3].
    + exfalso. eapply B; eauto.
    + change ((c3 :: t3) ++ x) with (c3 :: (t3 ++ x)). cbv beta iota.
      destruct ((c3 =? PLUS) || (c3 =? MINUS)).
      * destruct t3 as [|c4 t4]; [exfalso; eapply B; eauto|].
        change (c2 :: c3 :: (c4 :: t4) ++ x) with ((c2 :: c3 :: c4 :: t4) ++ x).
        apply K; auto. discriminate.
      * change (c2 :: c3 :: t3 ++ x) with ((c2 :: c3 :: t3) ++ x).
        change (c3 :: t3 ++ x) with ((c3 :: t3) ++ x).
        apply K; auto. discriminate.
  - now injection H as <- <- <-.
Qed.

(** A number that something other than a number follows is read the
    same on a longer text. *)
Lemma match_number_ext s v c t x :
  match_number s = Some (v, c :: t) -> is_number_char c = false ->
  match_number (s ++ x) = Some (v, c :: t ++ x)
  /\ integer_digits (s ++ x) = integer_digits s.
Proof.
  unfold match_number, integer_digits. intros H NC.
  destruct (match_integer s) as [[g r1]|] eqn:E1; [|discriminate].
  destruct (match_frac r1) as [f r2] eqn:E2.
  destruct (match_exp r2) as [e r3] eqn:E3.
  assert (R3 : r3 = c :: t) by (destruct (f ++ e); now injection H).
  subst r3.
  assert (N2 : r2 <> []) by (intros ->; discriminate E3).
  assert (D2 : r2 <> [DOT]).
  { intros ->. cbn in E3. injection E3 as _ <- _. discriminate NC. }
  assert (N1 : r1 <> []) by (intros ->; cbn in E2; congruence).
  rewrite (match_integer_ext _ _ _ x E1 N1).
  rewrite (match_frac_ext _ _ _ x E2 N2 D2).
  rewrite (match_exp_ext _ _ _ _ x E3 NC).
  split; [|reflexivity].
  destruct (f ++ e); injection H as <-; reflexivity.
Qed.

Lemma is_ws_not_number c : is_ws c = true -> is_number_char c = false.
Proof.
  unfold is_ws. intros H.
  repeat match type of H with
  | (_ || _) = true => apply orb_true_iff in H as [H|H]
  end; apply N.eqb_eq in H; subst; reflexivity.
Qed.

(** What white space or a separator follows is closed off. *)
Lemma closed_off_skip_ws v r c t :
  skip_ws r = c :: t -> is_number_char c = false -> closed_off v r.
Proof.
  intros W NC.
  assert (K : match r with [] => False | a :: _ => is_number_char a = false end).
  { destruct r as [|a r]; [discriminate|]. cbn [skip_ws] in W.
    destruct (is_ws a) eqn:E; [now apply is_ws_not_number|].
    now injection W as -> _. }
  destruct v; try exact I; exact K.
Qed.

Lemma scanstring_app_aux n :
  forall s, (length s <= n)%nat ->
  forall x r e, scanstring s = Some (x, r) ->
  scanstring (s ++ e) = Some (x, r ++ e).
Proof.
  induction n as [|n IH]; intros s L x r e H.
  - destruct s; [discriminate | simpl in L; lia].
  - destruct s as [|c t]; [discriminate|]. simpl in L.
    assert (REC : forall c' t' x r,
      (length t' <= n)%nat ->
      cons_char c' (scanstring t') = Some (x, r) ->
      cons_char c' (scanstring (t' ++ e)) = Some (x, r ++ e)).
    { intros c' t' x' r' L' E.
      destruct (scanstring t') as [[cs r'']|] eqn:E'; [|discriminate].
      simpl in E. injection E as <- <-. now rewrite (IH _ L' _ _ e E'). }
    change ((c :: t) ++ e) with (c :: (t ++ e)).
    cbn [scanstring] in H |- *.
    destruct (c =? QUOTE); [now injection H as <- <-|].
    destruct (c =? BACKSLASH).
    2:{ destruct (c <? 32); [discriminate|]. apply REC; [lia | exact H]. }
    destruct t as [|esc t1]; [discriminate|]. cbn [List.app]. simpl in L.
    destruct (esc =? 117).
    2:{ destruct (backslash_char esc); [|discriminate].
        apply REC; [lia | exact H]. }
    destruct t1 as [|h1 [|h2 [|h3 [|h4 t2]]]]; try discriminate.
    cbn [List.app]. simpl in L.
    destruct (decode_uXXXX h1 h2 h3 h4) as [uni|]; [|discriminate].
    destruct ((55296 <=? uni) && (uni <=? 56319)).
    2:{ apply REC; [lia | exact H]. }
    destruct t2 as [|b [|u t3]].
    + discriminate H.
    + destruct (N.eqb_spec b BACKSLASH) as [->|NB]; [discriminate H|].
      apply N.eqb_neq in NB.
      destruct e as [|u e']; cbn [List.app].
      * exact (REC uni [b] _ _ ltac:(simpl; lia) H).
      * rewrite NB. cbn [andb].
        exact (REC uni [b] _ _ ltac:(simpl; lia) H).
    + cbn [List.app]. simpl in L.
      destruct ((b =? BACKSLASH) && (u =? 117)).
      2:{ exact (REC uni (b :: u :: t3) _ _ ltac:(simpl; lia) H). }
      destruct t3 as [|k1 [|k2 [|k3 [|k4 t4]]]]; try discriminate.
      cbn [List.app]. simpl in L.
      destruct (decode_uXXXX k1 k2 k3 k4) as [uni2|]; [|discriminate].
      destruct ((56320 <=? uni2) && (uni2 <=? 57343)).
      * apply REC; [lia | exact H].
      * exact (REC uni (b :: u :: k1 :: k2 :: k3 :: k4 :: t4) _ _
                 ltac:(simpl; lia) H).
Qed.

Lemma scanstring_app s x r e :
  scanstring s = Some (x, r) -> scanstring (s ++ e) = Some (x, r ++ e).
Proof. apply (scanstring_app_aux (length s)). lia. Qed.

Lemma array_loop_ext scan scan' :
  extends scan scan' -> scan [] = SyntaxError ->
  forall n s vs r x m,
    array_loop scan n s = Parsed vs r -> (n <= m)%nat ->
    array_loop scan' m (s ++ x) = Parsed vs (r ++ x).
Proof.
  intros HE H0. induction n as [|n IH]; intros s vs r x m H L; [discriminate|].
  destruct m as [|m]; [lia|]. cbn [array_loop] in *.
  destruct (scan s) as [v r0| |?|] eqn:E; try discriminate.
  destruct (skip_ws r0) as [|c t] eqn:W; try discriminate.
  assert (NC : is_number_char c = false).
  { destruct (N.eqb_spec c RBRACKET) as [->|_]; [reflexivity|].
    destruct (N.eqb_spec c COMMA) as [->|_]; [reflexivity | discriminate]. }
  rewrite (HE _ _ _ x E (closed_off_skip_ws _ _ _ _ W NC)).
  rewrite (skip_ws_app _ _ _ x W).
  destruct (c =? RBRACKET); [now injection H as <- <-|].
  destruct (c =? COMMA); [|discriminate].
  destruct (array_loop scan n (skip_ws t)) as [vs' r'| |?|] eqn:A;
    try discriminate.
  injection H as <- <-.
  destruct (skip_ws t) as [|c1 t1] eqn:W1.
  - exfalso. destruct n; cbn [array_loop] in A; [discriminate|].
    rewrite H0 in A. discriminate A.
  - rewrite (skip_ws_app _ _ _ x W1).
    change (c1 :: t1 ++ x) with ((c1 :: t1) ++ x).
    now rewrite (IH _ _ _ x m A) by lia.
Qed.

Lemma object_loop_ext scan scan' :
  extends scan scan' -> scan [] = SyntaxError ->
  forall n s pairs r x m,
    object_loop scan n s = Parsed pairs r -> (n <= m)%nat ->
    object_loop scan' m (s ++ x) = Parsed pairs (r ++ x).
Proof.
  intros HE H0. induction n as [|n IH]; intros s pairs r x m H L; [discriminate|].
  destruct m as [|m]; [lia|]. cbn [object_loop] in *.
  destruct (scanstring s) as [[key r0]|] eqn:E0; try discriminate.
  rewrite (scanstring_app _ _ _ x E0).
  destruct (skip_ws r0) as [|c t] eqn:W0; try discriminate.
  rewrite (skip_ws_app _ _ _ x W0).
  destruct (c =? COLON); try discriminate.
  destruct (skip_ws t) as [|c0 t0] eqn:Wt; [now rewrite H0 in H|].
  rewrite (skip_ws_app _ _ _ x Wt).
  change (c0 :: t0 ++ x) with ((c0 :: t0) ++ x).
  destruct (scan (c0 :: t0)) as [v r1| |?|] eqn:E1; try discriminate.
  destruct (skip_ws r1) as [|c1 t1] eqn:W1; try discriminate.
  assert (NC : is_number_char c1 = false).
  { destruct (N.eqb_spec c1 RBRACE) as [->|_]; [reflexivity|].
    destruct (N.eqb_spec c1 COMMA) as [->|_]; [reflexivity | discriminate]. }
  rewrite (HE _ _ _ x E1 (closed_off_skip_ws _ _ _ _ W1 NC)).
  rewrite (skip_ws_app _ _ _ x W1).
  destruct (c1 =? RBRACE); [now injection H as <- <-|].
  destruct (c1 =? COMMA); [|discriminate].
  destruct (skip_ws t1) as [|c2 t2] eqn:W2; try discriminate.
  rewrite (skip_ws_app _ _ _ x W2).
  destruct (c2 =? QUOTE); try discriminate.
  destruct (object_loop scan n t2) as [pairs' r'| |?|] eqn:A; try discriminate.
  injection H as <- <-.
  now rewrite (IH _ _ _ x m A) by lia.
Qed.

Lemma JSONArray_ext scan scan' s v r x :
  extends scan scan' -> scan [] = SyntaxError ->
  JSONArray scan s = Parsed v r ->
  JSONArray scan' (s ++ x) = Parsed v (r ++ x).
Proof.
  intros HE H0. unfold JSONArray.
  destruct (skip_ws s) as [|c t] eqn:W; [discriminate|].
  rewrite (skip_ws_app _ _ _ x W).
  destruct (c =? RBRACKET); [intros H; now injection H as <- <-|].
  destruct (array_loop scan (S (length s)) (c :: t)) as [vs r'| |?|] eqn:A;
    try discriminate.
  intros H. injection H as <- <-.
  change (c :: t ++ x) with ((c :: t) ++ x).
  rewrite (array_loop_ext _ _ HE H0 _ _ _ _ x (S (length (s ++ x))) A);
    [reflexivity|]. rewrite length_app. lia.
Qed.

Lemma JSONObject_ext scan scan' s v r x :
  extends scan scan' -> scan [] = SyntaxError ->
  JSONObject scan s = Parsed v r ->
  JSONObject scan' (s ++ x) = Parsed v (r ++ x).
Proof.
  intros HE H0. unfold JSONObject.
  destruct (skip_ws s) as [|c t] eqn:W; [discriminate|].
  rewrite (skip_ws_app _ _ _ x W).
  destruct (c =? RBRACE); [intros H; now injection H as <- <-|].
  destruct (c =? QUOTE); [|discriminate].
  destruct (object_loop scan (S (length s)) t) as [pairs r'| |?|] eqn:A;
    try discriminate.
  intros H. injection H as <- <-.
  rewrite (object_loop_ext _ _ HE H0 _ _ _ _ x (S (length (s ++ x))) A);
    [reflexivity|]. rewrite length_app. lia.
Qed.

Lemma match_number_none c t :
  c <> MINUS -> is_digit c = false -> match_number (c :: t) = None.
Proof.
  intros M D. unfold match_number, match_integer, match_unsigned.
  apply N.eqb_neq in M. rewrite M.
  destruct (N.eqb_spec c 48) as [->|_]; [discriminate D|]. now rewrite D.
Qed.

Lemma scan_scalar_ext s v r x :
  scan_scalar s = Parsed v r -> closed_off v r ->
  scan_scalar (s ++ x) = Parsed v (r ++ x).
Proof.
  unfold scan_scalar. intros H C.
  destruct (match_number s) as [[v' r']|] eqn:EN.
  - (* a number *)
    destruct (match_number_head _ _ _ EN) as (c & t & -> & Hc).
    assert (110 <> c /\ 116 <> c /\ 102 <> c) as (N1 & N2 & N3).
    { destruct Hc as [->|D]; [repeat split; discriminate|].
      unfold is_digit in D. apply andb_prop in D as [D1 D2].
      apply N.leb_le in D1, D2. repeat split; lia. }
    change ((c :: t) ++ x) with (c :: (t ++ x)).
    change (txt "null") with (110 :: txt "ull") in *.
    change (txt "true") with (116 :: txt "rue") in *.
    change (txt "false") with (102 :: txt "alse") in *.
    rewrite !strip_prefix_head in * by assumption.
    destruct (int_refused (c :: t) v') eqn:R; [discriminate H|].
    injection H as <- <-.
    assert (K : exists c' t', r' = c' :: t' /\ is_number_char c' = false).
    { apply match_number_kind in EN as K. 
      destruct K as [[z ->]|[y ->]]; cbn [closed_off] in C;
        (destruct r' as [|c' t']; [contradiction | eauto]). }
    destruct K as (c' & t' & -> & NC).
    change (c :: (t ++ x)) with ((c :: t) ++ x).
    destruct (match_number_ext _ _ _ _ x EN NC) as (E & D).
    rewrite E. unfold int_refused in *. rewrite D.
    destruct v'; try reflexivity. now rewrite R.
  - (* a constant *)
    repeat match type of H with
    | match strip_prefix ?p s with Some _ => _ | None => _ end = _ =>
        let E := fresh "E" in
        destruct (strip_prefix p s) as [r0|] eqn:E;
        [ injection H as <- <-; apply strip_prefix_sound in E; subst s;
          reflexivity | ]
    end.
    discriminate H.
Qed.

Lemma scan_once_other depth c t :
  c <> QUOTE -> c <> LBRACE -> c <> LBRACKET ->
  scan_once depth (c :: t) = scan_scalar (c :: t).
Proof.
  intros Q B K. rewrite scan_once_eq.
  apply N.eqb_neq in Q, B, K. now rewrite Q, B, K.
Qed.

Lemma scan_once_string depth t :
  scan_once depth (QUOTE :: t) =
  match scanstring t with
  | Some (x, r) => Parsed (Str x) r
  | None => SyntaxError
  end.
Proof. now rewrite scan_once_eq. Qed.

(** A value read with room for [depth] containers is read again on a
    longer text, with room for as many or more. *)
Lemma scan_once_ext depth :
  forall depth', (depth <= depth')%nat ->
  extends (scan_once depth) (scan_once depth').
Proof.
  induction depth as [|depth IH]; intros depth' L s v r x;
    [destruct (scan_once_case 0 s) as [ |t|t D|d' t D|t D|d' t D|c t Q B K]
    |destruct (scan_once_case (S depth) s) as [ |t|t D|d' t D|t D|d' t D|c t Q B K]];
    intros H C; try discriminate H; try discriminate D;
    try (change ((QUOTE :: t) ++ x) with (QUOTE :: (t ++ x));
         rewrite scan_once_string;
         destruct (scanstring t) as [[y r']|] eqn:E; [|discriminate H];
         injection H as <- <-; now rewrite (scanstring_app _ _ _ x E));
    try (change ((c :: t) ++ x) with (c :: (t ++ x));
         rewrite scan_once_other by assumption;
         change (c :: (t ++ x)) with ((c :: t) ++ x);
         now apply scan_scalar_ext).
  - injection D as <-. destruct depth' as [|depth']; [lia|].
    change ((LBRACE :: t) ++ x) with (LBRACE :: (t ++ x)).
    cbn [scan_once N.eqb Pos.eqb].
    apply JSONObject_ext with (scan := scan_once depth); auto.
    + apply IH. lia.
    + now rewrite scan_once_eq.
  - injection D as <-. destruct depth' as [|depth']; [lia|].
    change ((LBRACKET :: t) ++ x) with (LBRACKET :: (t ++ x)).
    cbn [scan_once N.eqb Pos.eqb].
    apply JSONArray_ext with (scan := scan_once depth); auto.
    + apply IH. lia.
    + now rewrite scan_once_eq.
Qed.

(** More room does not change a container or a string that was read. *)
Lemma scan_once_deeper depth depth' s v r :
  scan_once depth s = Parsed v r -> (depth <= depth')%nat ->
  closed_off v r -> scan_once depth' s = Parsed v r.
Proof.
  intros H L C.
  rewrite <- (app_nil_r s), <- (app_nil_r r).
  now apply (scan_once_ext depth depth' L).
Qed.

(** ** What the decoder returns, the encoder accepts *)

Lemma digit_cases c :
  is_digit c = true ->
  c = 48 \/ c = 49 \/ c = 50 \/ c = 51 \/ c = 52 \/ c = 53 \/ c = 54
  \/ c = 55 \/ c = 56 \/ c = 57.
Proof.
  unfold is_digit. intros H. apply andb_prop in H as [H1 H2].
  apply N.leb_le in H1, H2. lia.
Qed.

Lemma uint_chars_of_chars ds :
  Forall (fun c => is_digit c = true) ds -> uint_chars (uint_of_chars ds) = ds.
Proof.
  induction 1 as [|c ds H _ IH]; [reflexivity|].
  apply digit_cases in H.
  repeat (destruct H as [->|H]); try subst c;
    cbn [uint_of_chars N.eqb Pos.eqb uint_chars]; now rewrite IH.
Qed.

(** [repr] prints the integer group [int()] was given, but for [-0]. *)
Lemma int_repr_parse_int s g r :
  match_unsigned s = Some (g, r) ->
  int_repr (Z.of_uint (uint_of_chars g)) = g
  /\ count_digits (int_repr (Z.opp (Z.of_uint (uint_of_chars g)))) = count_digits g.
Proof.
  destruct s as [|c t]; [discriminate|]. unfold match_unsigned.
  destruct (N.eqb_spec c 48) as [->|N0].
  { intros H. injection H as <- <-. split; reflexivity. }
  destruct (is_digit c) eqn:D; [|discriminate]. intros H.
  assert (H' : span_digits (c :: t) = (g, r)) by congruence.
  apply span_digits_sound in H' as (E & F & _).
  destruct g as [|c' ds]; [cbn in H; rewrite D in H;
                           destruct (span_digits t); discriminate|].
  assert (c' = c) as -> by (cbn in E; congruence).
  set (u := uint_of_chars (c :: ds)).
  assert (U : unorm u = u /\ nzhead u = u /\ u <> Nil).
  { unfold u. apply digit_cases in D.
    repeat (destruct D as [->|D]); try subst c; try contradiction;
      cbn [uint_of_chars N.eqb Pos.eqb]; repeat split; discriminate. }
  destruct U as (U1 & U2 & U3).
  pose proof (DecimalZ.to_of (Pos u)) as TP.
  pose proof (DecimalZ.to_of (Neg u)) as TN.
  cbn [Z.of_int norm] in TP, TN. rewrite U1 in TP. rewrite U2 in TN.
  unfold int_repr. rewrite TP.
  split; [now apply uint_chars_of_chars|].
  replace (Z.to_int (- Z.of_uint u)) with (Neg u)
    by (destruct u; [contradiction|..]; symmetry; exact TN).
  unfold u. rewrite (uint_chars_of_chars _ F).
  unfold count_digits. reflexivity.
Qed.

Lemma parse_int_digits s g r :
  match_integer s = Some (g, r) ->
  count_digits (int_repr (parse_int g)) = count_digits g.
Proof.
  destruct s as [|c t]; [discriminate|]. unfold match_integer.
  destruct (N.eqb_spec c MINUS) as [->|NM].
  - destruct (match_unsigned t) as [[ds r']|] eqn:U; [|discriminate].
    intros H. injection H as <- <-.
    apply int_repr_parse_int in U as (_ & U).
    cbn [parse_int N.eqb Pos.eqb]. rewrite U. reflexivity.
  - intros U. pose proof U as U'.
    apply int_repr_parse_int in U as (U & _).
    assert (K : parse_int g = Z.of_uint (uint_of_chars g)).
    { destruct g as [|c' ds]; [reflexivity|]. unfold parse_int.
      replace (c' =? MINUS) with false; [reflexivity|].
      symmetry. apply N.eqb_neq. intros ->.
      unfold match_unsigned in U'.
      destruct (c =? 48); [injection U' as U' _; discriminate U'|].
      destruct (is_digit c) eqn:D; [|discriminate].
      injection U' as S'. rewrite D in S'. destruct (span_digits t).
      injection S' as S' _ _. contradiction. }
    now rewrite K, U.
Qed.

Lemma match_number_int s z r :
  match_number s = Some (Int z, r) ->
  exists g r1, match_integer s = Some (g, r1) /\ z = parse_int g.
Proof.
  unfold match_number.
  destruct (match_integer s) as [[g r1]|]; [|discriminate].
  destruct (match_frac r1) as [f r2]. destruct (match_exp r2) as [e r3].
  destruct (f ++ e); intros H; [|discriminate].
  injection H as <- _. eauto.
Qed.

Lemma array_loop_all scan (P : value -> Prop) n :
  (forall s v r, scan s = Parsed v r -> P v) ->
  forall s vs r, array_loop scan n s = Parsed vs r -> Forall P vs.
Proof.
  intros HP. induction n as [|n IH]; intros s vs r H; [discriminate|].
  cbn [array_loop] in H.
  destruct (scan s) as [v r0| |?|] eqn:E; try discriminate.
  apply HP in E.
  destruct (skip_ws r0) as [|c t]; try discriminate.
  destruct (c =? RBRACKET); [injection H as <- _; auto|].
  destruct (c =? COMMA); [|discriminate].
  destruct (array_loop scan n (skip_ws t)) as [vs' r'| |?|] eqn:A;
    try discriminate.
  injection H as <- _. constructor; eauto.
Qed.

Lemma object_loop_all scan (P : value -> Prop) n :
  (forall s v r, scan s = Parsed v r -> P v) ->
  forall s pairs r, object_loop scan n s = Parsed pairs r ->
  Forall (fun kv => P (snd kv)) pairs.
Proof.
  intros HP. induction n as [|n IH]; intros s pairs r H; [discriminate|].
  cbn [object_loop] in H.
  destruct (scanstring s) as [[key r0]|]; try discriminate.
  destruct (skip_ws r0) as [|c t]; try discriminate.
  destruct (c =? COLON); try discriminate.
  destruct (scan (skip_ws t)) as [v r1| |?|] eqn:E; try discriminate.
  apply HP in E.
  destruct (skip_ws r1) as [|c1 t1]; try discriminate.
  destruct (c1 =? RBRACE); [injection H as <- _; auto|].
  destruct (c1 =? COMMA); [|discriminate].
  destruct (skip_ws t1) as [|c2 t2]; try discriminate.
  destruct (c2 =? QUOTE); try discriminate.
  destruct (object_loop scan n t2) as [pairs' r'| |?|] eqn:A; try discriminate.
  injection H as <- _. constructor; eauto.
Qed.

Lemma setitem_all (P : value -> Prop) d k v :
  Forall (fun kv => P (snd kv)) d -> P v ->
  Forall (fun kv => P (snd kv)) (setitem d k v).
Proof.
  induction 1 as [|[k' v'] d H F IH]; intros Pv; cbn [setitem].
  - auto.
  - destruct (str_eqb k' k); constructor; auto.
Qed.

Lemma dict_all (P : value -> Prop) pairs :
  Forall (fun kv => P (snd kv)) pairs ->
  Forall (fun kv => P (snd kv)) (dict pairs).
Proof.
  unfold dict. intros F.
  assert (K : forall acc, Forall (fun kv => P (snd kv)) acc ->
    Forall (fun kv => P (snd kv))
      (fold_left (fun d kv => setitem d (fst kv) (snd kv)) pairs acc)).
  { induction F as [|kv pairs H F IH]; intros acc A; cbn [fold_left]; auto.
    apply IH. now apply setitem_all. }
  apply K. constructor.
Qed.

Lemma dumps_raises_items budget items :
  Forall (fun o => dumps_raises budget o = None) items ->
  dumps_raises (S budget) (List items) = None.
Proof.
  cbn [dumps_raises]. induction 1 as [|o items H _ IH]; [reflexivity|].
  now rewrite H.
Qed.

Lemma dumps_raises_members budget members :
  Forall (fun kv => dumps_raises budget (snd kv) = None) members ->
  dumps_raises (S budget) (Dict members) = None.
Proof.
  cbn [dumps_raises]. induction 1 as [|kv members H _ IH]; [reflexivity|].
  now rewrite H.
Qed.

Lemma scan_scalar_encodable s v r budget :
  scan_scalar s = Parsed v r -> dumps_raises budget v = None.
Proof.
  unfold scan_scalar. intros H.
  do 3 (match type of H with
        | match strip_prefix ?p s with Some _ => _ | None => _ end = _ =>
            destruct (strip_prefix p s); [injection H as <- _; reflexivity|]
        end).
  destruct (match_number s) as [[v' r']|] eqn:E.
  - destruct (int_refused s v') eqn:R; [discriminate H|].
    injection H as <- <-.
    destruct (match_number_kind _ _ _ E) as [[z ->]|[y ->]]; [|reflexivity].
    apply match_number_int in E as (g & r1 & M & ->).
    cbn [dumps_raises]. rewrite (parse_int_digits _ _ _ M).
    cbn [int_refused] in R. unfold integer_digits in R. rewrite M in R.
    now rewrite R.
  - do 3 (match type of H with
          | match strip_prefix ?p s with Some _ => _ | None => _ end = _ =>
              destruct (strip_prefix p s); [injection H as <- _; reflexivity|]
          end).
    discriminate H.
Qed.

(** A value the decoder returned with room for [depth] containers is
    one the encoder prints with the same room. *)
Lemma scan_once_encodable depth :
  forall s v r, scan_once depth s = Parsed v r -> dumps_raises depth v = None.
Proof.
  induction depth as [|depth IH]; intros s v r;
    [destruct (scan_once_case 0 s) as [ |t|t D|d' t D|t D|d' t D|c t Q B K]
    |destruct (scan_once_case (S depth) s) as [ |t|t D|d' t D|t D|d' t D|c t Q B K]];
    intros H; try discriminate H; try discriminate D;
    try (destruct (scanstring t) as [[x r']|]; [|discriminate H];
         injection H as <- _; reflexivity);
    try exact (scan_scalar_encodable _ _ _ _ H).
  - injection D as <-. unfold JSONObject in H.
    destruct (skip_ws t) as [|c t']; [discriminate|].
    destruct (c =? RBRACE); [injection H as <- _; reflexivity|].
    destruct (c =? QUOTE); [|discriminate].
    destruct (object_loop _ _ t') as [pairs r'| |?|] eqn:A; try discriminate.
    injection H as <- _.
    apply (object_loop_all _ (fun v => dumps_raises depth v = None)) in A;
      [|exact IH].
    apply dumps_raises_members.
    exact (dict_all (fun v => dumps_raises depth v = None) _ A).
  - injection D as <-. unfold JSONArray in H.
    destruct (skip_ws t) as [|c t']; [discriminate|].
    destruct (c =? RBRACKET); [injection H as <- _; reflexivity|].
    destruct (array_loop _ _ (c :: t')) as [vs r'| |?|] eqn:A; try discriminate.
    injection H as <- _.
    apply (array_loop_all _ (fun v => dumps_raises depth v = None)) in A;
      [|exact IH].
    now apply dumps_raises_items.
Qed.

(** More room does not make the encoder raise. *)
Lemma dumps_raises_mono o :
  forall budget budget',
    dumps_raises budget o = None -> (budget <= budget')%nat ->
    dumps_raises budget' o = None.
Proof.
  induction o as [ |b|z|x|s|items IH|members IH] using value_ind;
    intros budget budget' H L; auto.
  - apply dumps_raises_list in H as (d & -> & H).
    destruct budget' as [|d']; [lia|]. apply dumps_raises_items.
    rewrite Forall_forall in *. intros o I. apply (IH o I d); auto. lia.
  - apply dumps_raises_dict in H as (d & -> & H).
    destruct budget' as [|d']; [lia|]. apply dumps_raises_members.
    rewrite Forall_forall in *. intros kv I. apply (IH kv I d); auto. lia.
Qed.

(** [json.dumps] does not raise on a value [json.loads] returned, where
    the interpreter leaves the encoder the room the decoder had. *)
Lemma loads_encodable s v budget :
  loads s = inr v -> (recursion_budget <= budget)%nat ->
  dumps_raises budget v = None.
Proof.
  unfold loads. destruct (strip_prefix [65279] s); [discriminate|].
  destruct (scan_once recursion_budget (skip_ws s)) as [o r| |?|] eqn:E;
    try discriminate.
  destruct (skip_ws r); [|discriminate]. intros H L. injection H as <-.
  apply scan_once_encodable in E. eapply dumps_raises_mono; eauto.
Qed.

(** ** [json.loads] *)

(** The exceptions of [json.loads]: a syntax error, or a limit of the
    interpreter. *)
Lemma loads_error s e :
  loads s = inl e ->
  e = JSONDecodeError \/ e = RecursionError
  \/ exists n, e = int_from_str_error n /\ digits_refused n = true.
Proof.
  unfold loads. destruct (strip_prefix [65279] s); [intros H; injection H; auto|].
  destruct (scan_once recursion_budget (skip_ws s)) as [v r| |e0|] eqn:E;
    try (intros H; injection H; now auto).
  - destruct (skip_ws r); [discriminate | intros H; injection H; auto].
  - intros H. injection H as <-.
    apply scan_once_raises in E as [(-> & _)|(n & -> & R & _)]; eauto.
Qed.


(** What opens with a brace decodes to a [dict], if it decodes. *)
Lemma scan_once_brace depth t v r :
  scan_once depth (LBRACE :: t) = Parsed v r -> exists d, v = Dict d.
Proof.
  rewrite scan_once_eq. cbn [N.eqb Pos.eqb].
  destruct depth; [discriminate|]. intros H.
  apply JSONObject_suffix in H as (_ & d & ->);
    [eauto | apply scan_once_suffix].
Qed.

Lemma loads_brace t v : loads (LBRACE :: t) = inr v -> exists d, v = Dict d.
Proof.
  unfold loads. cbn [strip_prefix N.eqb Pos.eqb].
  rewrite skip_ws_stop by reflexivity.
  destruct (scan_once recursion_budget (LBRACE :: t)) as [v' r| |?|] eqn:E;
    try discriminate.
  destruct (skip_ws r); try discriminate.
  intros H. injection H as <-. now apply scan_once_brace in E.
Qed.





End DecoderFacts.

(** * Facts about the search for a span *)

Lemma through_last_rbrace_none s :
  through_last_rbrace s = None <-> ~ In RBRACE s.
Proof.
  induction s as [|c s IH]; simpl.
  - tauto.
  - destruct (through_last_rbrace s) as [m|].
    + split; [discriminate|]. intros H. exfalso.
      assert (In RBRACE s); [|tauto].
      destruct (in_dec N.eq_dec RBRACE s); auto.
      now apply IH in n.
    + destruct (N.eqb_spec c RBRACE) as [->|N].
      * split; [discriminate|]. tauto.
      * split; auto. intros _ [E|H]; [congruence|]. now apply IH.
Qed.

Lemma through_last_rbrace_app b c :
  ~ In RBRACE c ->
  through_last_rbrace (b ++ RBRACE :: c) = Some (b ++ [RBRACE]).
Proof.
  intros H. induction b as [|x b IH]; simpl.
  - apply through_last_rbrace_none in H. now rewrite H.
  - now rewrite IH.
Qed.

Lemma through_last_rbrace_some s m :
  through_last_rbrace s = Some m ->
  exists b c, s = b ++ RBRACE :: c /\ m = b ++ [RBRACE] /\ ~ In RBRACE c.
Proof.
  revert m. induction s as [|x s IH]; simpl; intros m; try discriminate.
  destruct (through_last_rbrace s) as [m'|] eqn:E.
  - intros H. injection H as <-.
    destruct (IH _ eq_refl) as (b & c & -> & -> & N).
    now exists (x :: b), c.
  - destruct (N.eqb_spec x RBRACE) as [->|_]; try discriminate.
    intros H. injection H as <-.
    exists [], s. repeat split. now apply through_last_rbrace_none.
Qed.

(** The search returns the span from the first opening brace to the last
    closing brace. *)
Lemma JSON_OBJ_RE_search_span a b c :
  ~ In LBRACE a -> ~ In RBRACE c ->
  JSON_OBJ_RE_search (a ++ LBRACE :: b ++ RBRACE :: c)
  = Some (LBRACE :: b ++ [RBRACE]).
Proof.
  intros Ha Hc. induction a as [|x a IH]; simpl.
  - now rewrite through_last_rbrace_app.
  - destruct (N.eqb_spec x LBRACE) as [->|_].
    + exfalso. apply Ha. now left.
    + apply IH. intros H. apply Ha. now right.
Qed.

Lemma JSON_OBJ_RE_search_some line m :
  JSON_OBJ_RE_search line = Some m ->
  exists a b c, line = a ++ LBRACE :: b ++ RBRACE :: c
                /\ m = LBRACE :: b ++ [RBRACE].
Proof.
  induction line as [|x line IH]; simpl; try discriminate.
  assert (K : JSON_OBJ_RE_search line = Some m ->
          exists a b c, x :: line = a ++ LBRACE :: b ++ RBRACE :: c
                        /\ m = LBRACE :: b ++ [RBRACE]).
  { intros H. destruct (IH H) as (a & b & c & -> & ->).
    now exists (x :: a), b, c. }
  destruct (N.eqb_spec x LBRACE) as [->|_]; auto.
  destruct (through_last_rbrace line) as [m'|] eqn:E; auto.
  intros H. injection H as <-.
  apply through_last_rbrace_some in E as (b & c & -> & -> & _).
  now exists [], b, c.
Qed.


(** * Facts about the extractor *)


Section Extractor.

Context {py : Builtins}.


Lemma second_tier_dict line v :
  second_tier line = inr v -> exists d, v = Dict d.
Proof.
  unfold second_tier.
  destruct (JSON_OBJ_RE_search line) as [m|] eqn:E; try discriminate.
  apply JSON_OBJ_RE_search_some in E as (a & b & c & _ & ->).
  apply loads_brace.
Qed.

(** [extract_json] returns a [dict], as its annotation says. *)
Lemma extract_json_dict line v :
  extract_json line = inr v -> exists d, v = Dict d.
Proof.
  unfold extract_json. fold (second_tier line).
  destruct (loads line) as [e|v'].
  - destruct e; try discriminate. apply second_tier_dict.
  - destruct v'; try apply second_tier_dict.
    intros H. injection H as <-. eauto.
Qed.

Lemma second_tier_error line e :
  second_tier line = inl e ->
  e = NO_OBJECT \/ e = JSONDecodeError \/ e = RecursionError
  \/ exists n, e = int_from_str_error n /\ digits_refused n = true.
Proof.
  unfold second_tier. destruct (JSON_OBJ_RE_search line) as [m|].
  - intros H. apply loads_error in H. tauto.
  - intros H. injection H as <-. auto.
Qed.

(** The exceptions of [extract_json]. *)
Lemma extract_json_error line e :
  extract_json line = inl e ->
  e = NO_OBJECT \/ e = JSONDecodeError \/ e = RecursionError
  \/ exists n, e = int_from_str_error n /\ digits_refused n = true.
Proof.
  unfold extract_json. fold (second_tier line).
  destruct (loads line) as [e'|v'] eqn:L.
  - apply loads_error in L.
    destruct e'; try apply second_tier_error;
      intros H; injection H as <-; tauto.
  - destruct v'; try apply second_tier_error. discriminate.
Qed.





(** * The extractor *)

(** C5, extractor round trip, amended: for every JSON object [O] (a
    [dict] whose keys are distinct strings and whose values are JSON
    values, each float written as [repr] writes it) that the decoder
    can take in, its integers within the limit on digits and its
    nesting within the room for recursion, the text
    [json.dumps(O, ensure_ascii=False)] passed through [extract_json]
    gives [O] back. *)
Theorem extract_json_round_trip members :
  canonical (Dict members) = true ->
  dumps_raises recursion_budget (Dict members) = None ->
  extract_json (dumps (Dict members)) = inr (Dict members).
Proof.
  intros J E. unfold extract_json. now rewrite (loads_dumps _ J E).
Qed.




End Extractor.

(** ** The claims about the extractor at concrete texts *)

Lemma extract_json_round_trip_witness :
  extract_json (py := sample_builtins)
    (dumps (py := sample_builtins) (Dict sample_candidate))
  = inr (Dict sample_candidate).
Proof.
  apply (extract_json_round_trip (py := sample_builtins)); reflexivity.
Defined.

(** C5 as stated fails on an object that holds an integer of 4301
    digits: [json.dumps] raises on it, and the text the encoder would
    print is refused by [int()] in the decoder, so [extract_json] does
    not return the object. *)
Lemma extract_json_round_trip_counterexample :
  is_json (Dict [(txt "n", Int (10 ^ 4300))]) = true
  /\ (forall budget,
        dumps_raises (py := sample_builtins) (S budget)
          (Dict [(txt "n", Int (10 ^ 4300))])
        = Some (int_to_str_error (py := sample_builtins)))
  /\ extract_json (py := sample_builtins)
       (dumps (py := sample_builtins) (Dict [(txt "n", Int (10 ^ 4300))]))
     = inl (int_from_str_error (py := sample_builtins) 4301).
Proof.
  split; [reflexivity|]. split.
  - intros budget. cbn [dumps_raises snd].
    replace (digits_refused (py := sample_builtins)
               (count_digits (int_repr (10 ^ 4300)))) with true
      by (vm_compute; reflexivity).
    reflexivity.
  - vm_compute. reflexivity.
Qed.







(** * The solve/verify/fix loop *)

Section PipelineFacts.

Context {py : Builtins}.
Variable chat : list Request -> Request -> Reply.

Lemma call_llm_eq m sy u t log :
  let req := {| model := m; system := sy; user := u;
                temperature := t; seed := SEED |} in
  call_llm chat m sy u t log
  = (gateway chat (map request log) req,
     log ++ [exchange req (gateway chat (map request log) req)]).
Proof. reflexivity. Qed.

(** What the gateway returns is a [dict]. *)
Lemma gateway_dict h req v : gateway chat h req = inr v -> exists d, v = Dict d.
Proof.
  unfold gateway. destruct (chat h req); try discriminate.
  apply extract_json_dict.
Qed.

Lemma TASK_TYPES_existsb task_type :
  existsb (str_eqb task_type) TASK_TYPES = true <-> In task_type TASK_TYPES.
Proof.
  rewrite existsb_exists. split.
  - intros (x & I & E). apply str_eqb_eq in E. now subst.
  - intros I. exists task_type. split; auto using str_eqb_refl.
Qed.

(** Every task type has its worked example. *)
Lemma SOLVER_FEWSHOT_total task_type :
  In task_type TASK_TYPES ->
  exists fewshot, getitem SOLVER_FEWSHOT task_type = Some fewshot.
Proof.
  intros [<- | [<- | [<- | [<- | []]]]]; eexists; reflexivity.
Qed.

(** ** The verdict *)

Lemma verdict_of_dict members :
  verdict_of (Dict members)
  = inr (str_lower (py_str
           match lookup members (txt "verdict") with
           | Some v => v
           | None => Str (txt "fail")
           end)).
Proof. reflexivity. Qed.

Lemma passes_verdict report : passes report -> verdict_of report = inr (txt "pass").
Proof.
  intros (members & s & -> & L & P).
  rewrite verdict_of_dict, L. cbn [py_str]. now rewrite P.
Qed.

(** [repr] of anything but a string opens with an ASCII character
    other than the letter p, in either case. *)
Lemma py_repr_head v :
  (forall s, v <> Str s) ->
  exists c t, py_repr v = c :: t /\ c < 128 /\ ascii_lower c <> 112.
Proof.
  intros NS. destruct v as [ |[|]|z|x|s|items|members];
    try (eexists _, _; split; [reflexivity | split; [reflexivity | vm_compute; discriminate]]).
  - cbn [py_repr]. unfold int_repr.
    destruct z as [|p|p]; simpl Z.to_int;
      try (eexists _, _; split; [reflexivity | split; [reflexivity | vm_compute; discriminate]]).
    destruct (to_uint_head p) as (c & t & E & D & _).
    exists c, t. split; auto.
    unfold is_digit in D. apply andb_prop in D as [D1 D2].
    apply N.leb_le in D1, D2. unfold ascii_lower.
    replace ((65 <=? c) && (c <=? 90)) with false; [lia|].
    symmetry. apply andb_false_intro1. apply N.leb_gt. lia.
  - cbn [py_repr]. destruct (float_repr_head x) as (c & t & E & H).
    exists c, t. split; auto.
    destruct H as [D | [-> | [-> | ->]]];
      try (split; [reflexivity | vm_compute; discriminate]).
    unfold is_digit in D. apply andb_prop in D as [D1 D2].
    apply N.leb_le in D1, D2. unfold ascii_lower.
    replace ((65 <=? c) && (c <=? 90)) with false; [lia|].
    symmetry. apply andb_false_intro1. apply N.leb_gt. lia.
  - now elim (NS s).
Qed.

(** The verdict is ["pass"] only for a report that passes. *)
Lemma verdict_pass_passes report :
  verdict_of report = inr (txt "pass") -> passes report.
Proof.
  destruct report as [ | | | | | |members]; try discriminate.
  rewrite verdict_of_dict.
  destruct (lookup members (txt "verdict")) as [v|] eqn:L.
  - assert (K : forall w, (forall s, w <> Str s) ->
                str_lower (py_str w) <> txt "pass").
    { intros w NS H.
      destruct (py_repr_head w NS) as (c & t & E & A & P).
      replace (py_str w) with (py_repr w) in H
        by (destruct w as [ | | | |s0| | ]; try reflexivity; now elim (NS s0)).
      rewrite E in H. destruct (str_lower_head c t A) as (t' & E').
      rewrite E' in H. change (txt "pass") with (112 :: txt "ass") in H.
      injection H as H _. contradiction. }
    destruct v as [ |b|z|x|s|items|ms];
      try (match goal with
           | |- inr (str_lower (py_str ?w)) = _ -> _ =>
               intros H; exfalso; apply (K w);
               [intros ?; discriminate | congruence]
           end).
    intros H. injection H as H. now exists members, s.
  - intros H. injection H as H. cbn [py_str] in H.
    rewrite str_lower_ascii in H; [discriminate H|].
    repeat constructor.
Qed.

Lemma fails_closed_not_passes members :
  fails_closed members -> ~ passes (Dict members).
Proof.
  intros F (ms & s & E & L & P). injection E as <-.
  destruct F as [N|[(v & Lv & NS)|(s' & Ls & NP)]].
  - congruence.
  - rewrite L in Lv. injection Lv as <-. now elim (NS s).
  - rewrite L in Ls. injection Ls as <-. contradiction.
Qed.

Lemma not_passes_verdict report verdict :
  ~ passes report -> verdict_of report = inr verdict ->
  str_eqb verdict (txt "pass") = false.
Proof.
  intros NP V. apply str_eqb_neq. intros ->.
  now apply NP, verdict_pass_passes.
Qed.

(** ** One iteration *)

Section Session.

Variables problem task_type fewshot : str.
Hypothesis fewshot_found : getitem SOLVER_FEWSHOT task_type = Some fewshot.

Abbreviation producer := (producer_request problem task_type fewshot).
Abbreviation rounds_of := (rounds_log problem task_type fewshot).

(** The body of the loop, call by call. *)
Lemma loop_body_eq it prev log :
  prev_ok prev ->
  loop_body chat problem task_type it (vars_of prev) log =
  match gateway chat (map request log) (producer prev) with
  | inl e => (inl e, log ++ [exchange (producer prev) (inl e)])
  | inr cand =>
      let log1 := log ++ [exchange (producer prev) (inr cand)] in
      match gateway chat (map request log1) (verifier_request problem cand) with
      | inl e => (inl e, log1 ++ [exchange (verifier_request problem cand) (inl e)])
      | inr report =>
          let log2 := log1 ++ [exchange (verifier_request problem cand) (inr report)] in
          match verdict_of report with
          | inl e => (inl e, log2)
          | inr verdict =>
              if str_eqb verdict (txt "pass") then
                (inr (Return {| ok := true; final_answer := cand; iters := it |}), log2)
              else (inr (Continue (vars_of (Some (cand, report)))), log2)
          end
      end
  end.
Proof.
  intros P. unfold loop_body, bind.
  assert (E :
    match candidate (vars_of prev) with
    | Null =>
        match getitem SOLVER_FEWSHOT task_type with
        | Some fewshot =>
            call_llm chat MODEL_SOLVER SOLVER_SYSTEM
              (SOLVER_USER_TEMPLATE task_type fewshot problem) TEMPERATURE_SOLVER
        | None => raise KeyError
        end
    | _ =>
        call_llm chat MODEL_FIXER FIXER_SYSTEM
          (FIXER_USER_TEMPLATE problem (dumps (candidate (vars_of prev)))
             (dumps (verifier_out (vars_of prev))))
          TEMPERATURE_FIXER
    end log
    = (gateway chat (map request log) (producer prev),
       log ++ [exchange (producer prev)
                 (gateway chat (map request log) (producer prev))])).
  { destruct prev as [[cand report]|]; cbn [vars_of candidate verifier_out].
    - destruct P as (d & ->). reflexivity.
    - rewrite fewshot_found. reflexivity. }
  rewrite E. clear E.
  destruct (gateway chat (map request log) (producer prev)) as [e|cand];
    [reflexivity|].
  rewrite call_llm_eq. cbv zeta.
  fold (verifier_request problem cand).
  destruct (gateway chat _ (verifier_request problem cand)) as [e|report];
    [reflexivity|].
  destruct (verdict_of report) as [e|verdict]; [reflexivity|].
  destruct (str_eqb verdict (txt "pass")); reflexivity.
Qed.

Lemma map_request_snoc log req out :
  map request (log ++ [exchange req out]) = map request log ++ [req].
Proof. now rewrite map_app. Qed.

Lemma last_cons_default {A} (l : list A) :
  forall a d, last (a :: l) d = last l a.
Proof.
  induction l as [|b l IH]; intros a d; [reflexivity|].
  change (last (a :: b :: l) d) with (last (b :: l) d).
  now rewrite !IH.
Qed.

Lemma last_round_cons prev r more :
  last_round (Some r) more = last_round prev (r :: more).
Proof.
  destruct more as [|r0 more]; [reflexivity|].
  cbn [last_round]. now rewrite last_cons_default.
Qed.

Lemma answered_app h a b :
  answered chat h (a ++ b) <->
  answered chat h a /\ answered chat (h ++ map request a) b.
Proof.
  revert h. induction a as [|e a IH]; intros h; cbn [List.app answered map].
  - rewrite app_nil_r. tauto.
  - rewrite IH, <- app_assoc. cbn [List.app]. tauto.
Qed.

Lemma rounds_log_app prev rounds more :
  rounds_of prev (rounds ++ more)
  = rounds_of prev rounds ++ rounds_of (last_round prev rounds) more.
Proof.
  revert prev. induction rounds as [|[c r] rounds IH]; intros prev.
  - reflexivity.
  - cbn [List.app rounds_log]. rewrite IH, <- last_round_cons. reflexivity.
Qed.

Lemma rounds_log_length prev rounds :
  length (rounds_of prev rounds) = (2 * length rounds)%nat.
Proof.
  revert prev. induction rounds as [|[c r] rounds IH]; intros prev;
    cbn [rounds_log length]; [reflexivity|]. rewrite IH. lia.
Qed.

(** ** The loop *)

(** What a run of the loop does: some iterations complete and fail; then
    the budget is spent, or one more iteration passes, or one more
    iteration is ended by an exception. *)
Lemma for_range_log n :
  forall it prev log res log',
    prev_ok prev ->
    for_range chat problem task_type n it (vars_of prev) log = (res, log') ->
    exists rounds tail,
      log' = log ++ rounds_of prev rounds ++ tail /\
      answered chat (map request log) (rounds_of prev rounds ++ tail) /\
      match res with
      | inr (Continue vars) =>
          tail = [] /\ length rounds = n /\ Forall failing rounds /\
          vars = vars_of (last_round prev rounds)
      | inr (Return r) =>
          tail = [] /\
          exists init cand report,
            rounds = init ++ [(cand, report)] /\ (length rounds <= n)%nat /\
            Forall failing init /\ verdict_of report = inr (txt "pass") /\
            r = {| ok := true; final_answer := cand;
                   iters := it + Z.of_nat (length init) |}
      | inl e =>
          (length rounds < n)%nat /\ Forall failing rounds /\
          aborted_round problem task_type fewshot (last_round prev rounds) e tail
      end.
Proof.
  induction n as [|n IH]; intros it prev log res log' P H.
  - cbn in H. injection H as <- <-. exists [], [].
    rewrite app_nil_r. splits; auto. exact I.
  - cbn [for_range] in H. unfold bind in H.
    rewrite (loop_body_eq it prev log P) in H.
    destruct (gateway chat (map request log) (producer prev))
      as [e|cand] eqn:G1.
    { injection H as <- <-. exists [], [exchange (producer prev) (inl e)].
      cbn [rounds_log List.app answered request outcome exchange length last_round].
      splits; auto; try lia. now left. }
    cbv zeta in H. rewrite map_request_snoc in H.
    destruct (gateway chat (map request log ++ [producer prev])
                (verifier_request problem cand)) as [e|report] eqn:G2.
    { injection H as <- <-.
      exists [], [exchange (producer prev) (inr cand);
                  exchange (verifier_request problem cand) (inl e)].
      cbn [rounds_log List.app answered request outcome exchange length last_round].
      rewrite <- app_assoc. splits; auto; try lia. right. eauto. }
    destruct (gateway_dict _ _ _ G1) as (d & ->).
    destruct (gateway_dict _ _ _ G2) as (members & ->).
    rewrite verdict_of_dict in H.
    set (verdict := str_lower _) in H.
    assert (V : verdict_of (Dict members) = inr verdict) by reflexivity.
    destruct (str_eqb verdict (txt "pass")) eqn:E.
    { injection H as <- <-. apply str_eqb_eq in E. rewrite E in V.
      exists [(Dict d, Dict members)], [].
      cbn [rounds_log List.app answered request outcome exchange length last_round].
      rewrite <- app_assoc. splits; auto.
      exists [], (Dict d), (Dict members). cbn [List.app length].
      rewrite Z.add_0_r. splits; auto. lia. }
    apply IH in H as (rounds & tail & -> & A & R); [|cbn; eauto].
    assert (F : failing (Dict d, Dict members)).
    { unfold failing. cbn [snd]. rewrite V. intros K. injection K as K.
      apply str_eqb_neq in E. contradiction. }
    exists ((Dict d, Dict members) :: rounds), tail.
    cbn [rounds_log List.app answered request outcome exchange].
    rewrite <- !app_assoc. cbn [List.app].
    rewrite !map_app in A. cbn [map request exchange] in A.
    rewrite <- !app_assoc in A. cbn [List.app] in A.
    splits; auto.
    rewrite <- (last_round_cons prev).
    destruct res as [e|[r|vars]].
    + destruct R as (L & Fa & Ab). splits; auto. cbn [length]. lia.
    + destruct R as (-> & init & cand & report & -> & L & Fi & Vp & ->).
      split; auto.
      exists ((Dict d, Dict members) :: init), cand, report.
      cbn [List.app length]. splits; auto; try lia.
      f_equal. lia.
    + destruct R as (-> & L & Fa & ->). cbn [length].
      splits; auto.
Qed.

(** Iterations that complete and fail leave the loop where it would be
    had it started after them. *)
Lemma for_range_forward rounds :
  forall prev log n it,
    prev_ok prev ->
    answered chat (map request log) (rounds_of prev rounds) ->
    Forall failing rounds ->
    for_range chat problem task_type (length rounds + n) it (vars_of prev) log
    = for_range chat problem task_type n (it + Z.of_nat (length rounds))
        (vars_of (last_round prev rounds)) (log ++ rounds_of prev rounds).
Proof.
  induction rounds as [|[cand report] rounds IH]; intros prev log n it P A F.
  - cbn [length Nat.add rounds_log last_round].
    now rewrite Z.add_0_r, app_nil_r.
  - cbn [rounds_log answered request outcome exchange] in A.
    destruct A as (G1 & G2 & A).
    inversion F as [|? ? Fr Fm]; subst.
    cbn [length Nat.add for_range]. unfold bind at 1.
    rewrite (loop_body_eq it prev log P), <- G1. cbv zeta.
    rewrite map_request_snoc, <- G2.
    symmetry in G1, G2.
    destruct (gateway_dict _ _ _ G1) as (d & ->).
    destruct (gateway_dict _ _ _ G2) as (members & ->).
    rewrite verdict_of_dict.
    set (verdict := str_lower _).
    assert (V : verdict_of (Dict members) = inr verdict) by reflexivity.
    destruct (str_eqb verdict (txt "pass")) eqn:E.
    { apply str_eqb_eq in E. rewrite E in V. contradiction. }
    rewrite IH; auto; [|cbn; eauto|].
    + rewrite <- (last_round_cons prev). f_equal; [lia|].
      rewrite <- !app_assoc. reflexivity.
    + rewrite !map_app. cbn [map request exchange]. exact A.
Qed.

(** The candidates of completed iterations are [dict]s. *)
Lemma answered_rounds_dict rounds :
  forall prev h,
    answered chat h (rounds_of prev rounds) ->
    Forall (fun round => exists d, fst round = Dict d) rounds.
Proof.
  induction rounds as [|[cand report] rounds IH]; intros prev h A;
    constructor.
  - cbn [rounds_log answered request outcome exchange] in A.
    destruct A as (G1 & _). symmetry in G1.
    now apply gateway_dict in G1.
  - cbn [rounds_log answered] in A. destruct A as (_ & _ & A). eauto.
Qed.

(** ** Counting calls *)

Lemma calls_to_cons sys e log :
  calls_to sys (e :: log)
  = ((if str_eqb (system (request e)) sys then 1 else 0) + calls_to sys log)%nat.
Proof.
  unfold calls_to. cbn [filter].
  destruct (str_eqb (system (request e)) sys); reflexivity.
Qed.

Lemma calls_to_fix_rounds rounds :
  forall round,
    calls_to SOLVER_SYSTEM (rounds_of (Some round) rounds) = 0%nat /\
    calls_to FIXER_SYSTEM (rounds_of (Some round) rounds) = length rounds /\
    calls_to VERIFIER_SYSTEM (rounds_of (Some round) rounds) = length rounds.
Proof.
  induction rounds as [|[cand report] rounds IH]; intros [c0 r0].
  - repeat split.
  - destruct (IH (cand, report)) as (H1 & H2 & H3).
    cbn [rounds_log producer_request]. rewrite !calls_to_cons.
    cbn [request exchange system fixer_request verifier_request length].
    rewrite H1, H2, H3.
    replace (str_eqb FIXER_SYSTEM SOLVER_SYSTEM) with false by (vm_compute; reflexivity).
    replace (str_eqb VERIFIER_SYSTEM SOLVER_SYSTEM) with false by (vm_compute; reflexivity).
    replace (str_eqb FIXER_SYSTEM VERIFIER_SYSTEM) with false by (vm_compute; reflexivity).
    replace (str_eqb VERIFIER_SYSTEM FIXER_SYSTEM) with false by (vm_compute; reflexivity).
    rewrite !str_eqb_refl. repeat split; lia.
Qed.

(** A session with [k >= 1] completed iterations made one solver call,
    [k - 1] fixer calls and [k] verifier calls. *)
Lemma calls_to_session round rounds :
  calls_to SOLVER_SYSTEM (rounds_of None (round :: rounds)) = 1%nat /\
  calls_to FIXER_SYSTEM (rounds_of None (round :: rounds)) = length rounds /\
  calls_to VERIFIER_SYSTEM (rounds_of None (round :: rounds)) = S (length rounds).
Proof.
  destruct round as [cand report].
  destruct (calls_to_fix_rounds rounds (cand, report)) as (H1 & H2 & H3).
  cbn [rounds_log producer_request]. rewrite !calls_to_cons.
  cbn [request exchange system solver_request verifier_request].
  rewrite H1, H2, H3.
  replace (str_eqb SOLVER_SYSTEM FIXER_SYSTEM) with false by (vm_compute; reflexivity).
  replace (str_eqb SOLVER_SYSTEM VERIFIER_SYSTEM) with false by (vm_compute; reflexivity).
  replace (str_eqb VERIFIER_SYSTEM SOLVER_SYSTEM) with false by (vm_compute; reflexivity).
  replace (str_eqb VERIFIER_SYSTEM FIXER_SYSTEM) with false by (vm_compute; reflexivity).
  rewrite !str_eqb_refl. repeat split; lia.
Qed.

End Session.

(** ** [solve_one] *)

Lemma solve_one_valid problem task_type max_iters log :
  In task_type TASK_TYPES ->
  solve_one chat problem task_type max_iters log =
  match for_range chat problem task_type (Z.to_nat max_iters) 1
          (vars_of None) log with
  | (inl e, log') => (inl e, log')
  | (inr (Return res), log') => (inr res, log')
  | (inr (Continue vars), log') =>
      (inr {| ok := false;
              final_answer :=
                (if truthy (candidate vars) then candidate vars else Dict []);
              iters := max_iters |}, log')
  end.
Proof.
  intros V. apply TASK_TYPES_existsb in V.
  unfold solve_one, bind. rewrite V. cbn [negb vars_of].
  destruct (for_range _ _ _ _ _ _ _) as [[e|[r|vars]] log']; reflexivity.
Qed.

Lemma truthy_dict d : (if truthy (Dict d) then Dict d else Dict []) = Dict d.
Proof. destruct d; reflexivity. Qed.

(** C4, invalid task type: for every task type outside [TASK_TYPES],
    every problem and every bound, [solve_one] raises at its assertion
    and no call has been made. *)
Theorem solve_one_invalid_task_type problem task_type max_iters :
  ~ In task_type TASK_TYPES ->
  solve_one chat problem task_type max_iters [] = (inl AssertionError, []).
Proof.
  intros NV. unfold solve_one.
  destruct (existsb (str_eqb task_type) TASK_TYPES) eqn:E; [|reflexivity].
  apply TASK_TYPES_existsb in E. contradiction.
Qed.

(** C10, bound at or below zero: for every problem, valid task type and
    [max_iters <= 0], [solve_one] returns [SolveResult(ok=False,
    final_answer={}, iters=max_iters)] and no call has been made; the
    bound is not rejected. *)
Theorem solve_one_no_budget problem task_type max_iters :
  In task_type TASK_TYPES -> (max_iters <= 0)%Z ->
  solve_one chat problem task_type max_iters []
  = (inr {| ok := false; final_answer := Dict []; iters := max_iters |}, []).
Proof.
  intros V L. rewrite solve_one_valid by assumption.
  replace (Z.to_nat max_iters) with 0%nat by lia. reflexivity.
Qed.

(** C8, one candidate call and one verifier call per iteration: in
    every session with a valid task type, the calls made are those of
    the completed iterations, each being one candidate-producing call
    (the solver on the first iteration, the fixer with the previous
    candidate and report on the later ones) followed at once by one
    verifier call on the candidate that call returned; after them come
    only the calls of an iteration that an exception ended. A session
    that returns has completed [iters] iterations when it succeeds and
    [max(0, max_iters)] when it does not. *)
Theorem solve_one_iterations problem task_type max_iters res log :
  In task_type TASK_TYPES ->
  solve_one chat problem task_type max_iters [] = (res, log) ->
  exists fewshot rounds tail,
    getitem SOLVER_FEWSHOT task_type = Some fewshot /\
    log = session_log problem task_type fewshot rounds ++ tail /\
    answered chat [] log /\
    match res with
    | inr r =>
        tail = [] /\
        Z.of_nat (length rounds) = (if ok r then iters r else Z.max 0 max_iters) /\
        (ok r = true -> final_answer r = fst (last rounds (Null, Null)))
    | inl e =>
        (Z.of_nat (length rounds) < max_iters)%Z /\
        aborted_round problem task_type fewshot (last_round None rounds) e tail
    end.
Proof.
  intros V H. destruct (SOLVER_FEWSHOT_total _ V) as (fewshot & HF).
  rewrite solve_one_valid in H by assumption.
  destruct (for_range chat problem task_type (Z.to_nat max_iters) 1
              (vars_of None) []) as [fres log'] eqn:R.
  apply (for_range_log problem task_type fewshot HF) in R
    as (rounds & tail & -> & A & C); [|exact I].
  cbn [List.app map] in A |- *.
  exists fewshot, rounds, tail. split; [exact HF|].
  destruct fres as [e|[r|vars]]; injection H as <- <-;
    (split; [reflexivity|]); (split; [exact A|]).
  - destruct C as (L & _ & Ab). split; [lia | exact Ab].
  - destruct C as (-> & init & cand & report & -> & L & _ & _ & ->).
    split; [reflexivity|]. cbn [ok iters final_answer].
    split; [rewrite length_app; cbn [length]; lia|].
    intros _. now rewrite last_last.
  - destruct C as (-> & L & _ & _). split; [reflexivity|].
    cbn [ok]. split; [lia | discriminate].
Qed.

Lemma last_round_snoc prev rounds round :
  last_round prev (rounds ++ [round]) = Some round.
Proof.
  destruct rounds as [|r rounds]; [reflexivity|].
  cbn [List.app last_round]. rewrite <- last_cons_default with (d := r).
  change (r :: rounds ++ [round]) with ((r :: rounds) ++ [round]).
  now rewrite last_last.
Qed.

Lemma not_passes_failing rounds :
  Forall (fun round => ~ passes (snd round)) rounds -> Forall failing rounds.
Proof.
  apply Forall_impl. intros round NP H. now apply NP, verdict_pass_passes.
Qed.

(** C1, loop termination bound: for every problem, valid task type and
    bound [N > 0], if the verifier's report passes on none of [N]
    iterations (each call of these iterations having returned a
    record), then [solve_one] completes exactly these [N] iterations:
    it makes one solver call, [N - 1] fixer calls and [N] verifier
    calls, and returns [ok=False], [iters=N] and the last candidate
    produced as [final_answer]. *)
Theorem solve_one_budget_spent problem task_type fewshot N rounds :
  In task_type TASK_TYPES ->
  getitem SOLVER_FEWSHOT task_type = Some fewshot ->
  (0 < N)%Z -> Z.of_nat (length rounds) = N ->
  answered chat [] (session_log problem task_type fewshot rounds) ->
  Forall (fun round => ~ passes (snd round)) rounds ->
  solve_one chat problem task_type N []
  = (inr {| ok := false;
            final_answer := fst (last rounds (Null, Null));
            iters := N |},
     session_log problem task_type fewshot rounds) /\
  calls_to SOLVER_SYSTEM (session_log problem task_type fewshot rounds) = 1%nat /\
  Z.of_nat (calls_to FIXER_SYSTEM (session_log problem task_type fewshot rounds))
  = (N - 1)%Z /\
  Z.of_nat (calls_to VERIFIER_SYSTEM (session_log problem task_type fewshot rounds))
  = N.
Proof.
  intros V HF HN L A NP. rewrite solve_one_valid by assumption.
  unfold session_log in *.
  replace (Z.to_nat N) with (length rounds + 0)%nat by lia.
  rewrite (for_range_forward problem task_type fewshot HF rounds None []);
    auto using not_passes_failing; [|exact I].
  cbn [for_range List.app]. unfold ret.
  destruct rounds as [|round rounds]; [cbn in L; lia|].
  apply answered_rounds_dict in A.
  assert (D : exists d, fst (last rounds round) = Dict d).
  { rewrite Forall_forall in A. apply A.
    rewrite <- (last_cons_default rounds round round).
    destruct (@exists_last _ (round :: rounds) ltac:(discriminate))
      as (l' & a & E).
    rewrite E, last_last. apply in_or_app. right. now left. }
  destruct D as (d & D).
  destruct (calls_to_session problem task_type fewshot round rounds)
    as (C1 & C2 & C3).
  rewrite C1, C2, C3. cbn [length] in L |- *.
  splits; try lia; auto.
  f_equal. f_equal. cbn [last_round vars_of].
  rewrite last_cons_default.
  destruct (last rounds round) as [cand report]. cbn [fst] in D. subst cand.
  cbn [candidate]. now rewrite truthy_dict.
Qed.

(** C2, early success: for every problem, valid task type and bound
    [N], if iterations 1 to [k - 1] completed without passing and the
    verifier's report on iteration [k <= N] has a verdict equal to
    ["pass"] up to case, then [solve_one] returns [ok=True], the
    candidate of iteration [k] and [iters=k], and the verifier call of
    iteration [k] is the last call made. *)
Theorem solve_one_early_success problem task_type fewshot N rounds cand report :
  In task_type TASK_TYPES ->
  getitem SOLVER_FEWSHOT task_type = Some fewshot ->
  (Z.of_nat (length rounds) < N)%Z ->
  answered chat []
    (session_log problem task_type fewshot (rounds ++ [(cand, report)])) ->
  Forall (fun round => ~ passes (snd round)) rounds ->
  passes report ->
  solve_one chat problem task_type N []
  = (inr {| ok := true; final_answer := cand;
            iters := Z.of_nat (length rounds) + 1 |},
     session_log problem task_type fewshot (rounds ++ [(cand, report)])).
Proof.
  intros V HF L A NP P. rewrite solve_one_valid by assumption.
  unfold session_log in *. rewrite rounds_log_app in *.
  apply answered_app in A as (A1 & A2). cbn [List.app] in A2.
  replace (Z.to_nat N)
    with (length rounds + S (Z.to_nat N - length rounds - 1))%nat by lia.
  rewrite (for_range_forward problem task_type fewshot HF rounds None []);
    auto using not_passes_failing; [|exact I].
  cbn [for_range List.app]. unfold bind.
  assert (PO : prev_ok (last_round None rounds)).
  { apply answered_rounds_dict in A1.
    destruct rounds as [|r rounds]; [exact I|].
    cbn [last_round prev_ok].
    destruct (@exists_last _ (r :: rounds) ltac:(discriminate))
      as (l' & a & E).
    rewrite <- (last_cons_default rounds r r), E, last_last.
    rewrite E in A1. apply Forall_app in A1 as (_ & A1).
    inversion A1 as [|? ? D _]; subst. destruct a as [c0 r0]. exact D. }
  rewrite (loop_body_eq problem task_type fewshot HF _ _ _ PO).
  cbn [rounds_log answered request outcome exchange] in A2.
  destruct A2 as (G1 & G2 & _).
  rewrite <- G1. cbv zeta. rewrite map_request_snoc, <- G2.
  rewrite (passes_verdict _ P), str_eqb_refl.
  unfold ret. cbv beta iota.
  f_equal; [f_equal; f_equal; lia|].
  cbn [rounds_log]. now rewrite <- app_assoc.
Qed.

(** C3, default-closed verdict: for every verifier report that has no
    verdict field, or a verdict that is not a string, or a verdict that
    is a string other than ["pass"] up to case, the iteration it closes
    (iteration [k], reached after [k - 1] iterations that did not pass)
    is treated as failing: when [k] is the last iteration, [solve_one]
    returns [ok=False] with that candidate; otherwise the next call is
    the fixer's, with that candidate and report; and [solve_one] never
    returns [ok=True] with [iters <= k]. *)
Theorem verdict_defaults_closed problem task_type fewshot N rounds cand members :
  In task_type TASK_TYPES ->
  getitem SOLVER_FEWSHOT task_type = Some fewshot ->
  (Z.of_nat (length rounds) < N)%Z ->
  answered chat []
    (session_log problem task_type fewshot (rounds ++ [(cand, Dict members)])) ->
  Forall (fun round => ~ passes (snd round)) rounds ->
  fails_closed members ->
  exists res more,
    solve_one chat problem task_type N []
    = (res, session_log problem task_type fewshot
              (rounds ++ [(cand, Dict members)]) ++ more) /\
    ((Z.of_nat (length rounds) + 1)%Z = N ->
       res = inr {| ok := false; final_answer := cand; iters := N |}
       /\ more = []) /\
    ((Z.of_nat (length rounds) + 1 < N)%Z ->
       exists out more',
         more = exchange (fixer_request problem cand (Dict members)) out :: more') /\
    (forall r, res = inr r -> ok r = true ->
               (Z.of_nat (length rounds) + 1 < iters r)%Z).
Proof.
  intros V HF L A NP FC. rewrite solve_one_valid by assumption.
  set (all := rounds ++ [(cand, Dict members)]) in *.
  assert (F : Forall failing all).
  { apply Forall_app. split; [now apply not_passes_failing|].
    constructor; [|constructor].
    intros H. apply verdict_pass_passes in H.
    now apply (fails_closed_not_passes _ FC). }
  assert (LA : length all = S (length rounds))
    by (unfold all; rewrite length_app; cbn [length]; lia).
  unfold session_log in *.
  pose proof (answered_rounds_dict problem task_type fewshot all None [] A) as D.
  assert (Dc : exists d, cand = Dict d).
  { unfold all in D. apply Forall_app in D as (_ & D).
    inversion D as [|? ? Dc _]; subst. exact Dc. }
  destruct Dc as (d & ->).
  replace (Z.to_nat N) with (length all + (Z.to_nat N - length all))%nat by lia.
  rewrite (for_range_forward problem task_type fewshot HF all None []);
    auto; [|exact I].
  cbn [List.app]. unfold all at 3. rewrite last_round_snoc.
  destruct (Z.to_nat N - length all)%nat as [|m] eqn:M.
  - (* the last iteration *)
    cbn [for_range]. unfold ret. cbn [vars_of candidate].
    rewrite truthy_dict.
    exists (inr {| ok := false; final_answer := Dict d; iters := N |}), [].
    rewrite app_nil_r. splits; auto.
    + intros K. lia.
    + intros r E. injection E as <-. discriminate.
  - destruct (for_range chat problem task_type (S m) _ _ _)
      as [fres log'] eqn:R.
    apply (for_range_log problem task_type fewshot HF) in R
      as (rounds' & tail & -> & _ & C); [|cbn; eauto].
    set (prev := Some (Dict d, Dict members)) in *.
    assert (Nx : exists out more',
      rounds_log problem task_type fewshot prev rounds' ++ tail
      = exchange (fixer_request problem (Dict d) (Dict members)) out :: more').
    { destruct rounds' as [|[c r] rounds'].
      - destruct fres as [e|[r|vars]].
        + destruct C as (_ & _ & [->|(c & ->)]); cbn; eauto.
        + destruct C as (_ & init & c & r' & E & _). now destruct init.
        + destruct C as (_ & E & _). discriminate E.
      - cbn. eauto. }
    exists
      match fres with
      | inl e => inl e
      | inr (Return r) => inr r
      | inr (Continue vars) =>
          inr {| ok := false;
                 final_answer :=
                   (if truthy (candidate vars) then candidate vars else Dict []);
                 iters := N |}
      end,
      (rounds_log problem task_type fewshot prev rounds' ++ tail).
    split; [|split; [|split]].
    + destruct fres as [e|[r|vars]]; reflexivity.
    + intros K. lia.
    + intros _. exact Nx.
    + intros r E Ok. destruct fres as [e|[r'|vars]].
      * discriminate E.
      * injection E as <-.
        destruct C as (_ & init & c & rep & _ & _ & _ & _ & ->).
        cbn [iters]. lia.
      * injection E as <-. discriminate Ok.
Qed.

End PipelineFacts.

(** * The claims at concrete sessions *)

Section SampleSessions.

#[local] Existing Instance sample_builtins.

Lemma solve_one_invalid_task_type_witness :
  @solve_one sample_builtins (always sample_candidate_text)
    sample_problem (txt "essay") 3 []
  = (inl AssertionError, []).
Proof.
  apply solve_one_invalid_task_type.
  intros H. vm_compute in H. intuition discriminate.
Defined.

Lemma solve_one_no_budget_witness :
  @solve_one sample_builtins (always sample_candidate_text)
    sample_problem (txt "numeric") (-2) []
  = (inr {| ok := false; final_answer := Dict []; iters := (-2) |}, []).
Proof.
  apply solve_one_no_budget.
  - right. left. reflexivity.
  - lia.
Defined.

Lemma solve_one_budget_spent_witness :
  @solve_one sample_builtins
    (scripted [sample_candidate_text; sample_fail_text;
               sample_candidate_text; sample_fail_text])
    sample_problem (txt "numeric") 2 []
  = (inr {| ok := false;
            final_answer :=
              fst (last [(Dict sample_candidate, Dict sample_fail_report);
                         (Dict sample_candidate, Dict sample_fail_report)]
                     (Null, Null));
            iters := 2 |},
     session_log sample_problem (txt "numeric") sample_fewshot
       [(Dict sample_candidate, Dict sample_fail_report);
        (Dict sample_candidate, Dict sample_fail_report)]) /\
  calls_to SOLVER_SYSTEM
    (session_log sample_problem (txt "numeric") sample_fewshot
       [(Dict sample_candidate, Dict sample_fail_report);
        (Dict sample_candidate, Dict sample_fail_report)]) = 1%nat /\
  Z.of_nat (calls_to FIXER_SYSTEM
              (session_log sample_problem (txt "numeric") sample_fewshot
                 [(Dict sample_candidate, Dict sample_fail_report);
                  (Dict sample_candidate, Dict sample_fail_report)]))
  = (2 - 1)%Z /\
  Z.of_nat (calls_to VERIFIER_SYSTEM
              (session_log sample_problem (txt "numeric") sample_fewshot
                 [(Dict sample_candidate, Dict sample_fail_report);
                  (Dict sample_candidate, Dict sample_fail_report)]))
  = 2%Z.
Proof.
  apply (@solve_one_budget_spent sample_builtins
           (scripted [sample_candidate_text; sample_fail_text;
                      sample_candidate_text; sample_fail_text])
           sample_problem (txt "numeric") sample_fewshot 2
           [(Dict sample_candidate, Dict sample_fail_report);
            (Dict sample_candidate, Dict sample_fail_report)]).
  - right. left. reflexivity.
  - reflexivity.
  - lia.
  - reflexivity.
  - vm_compute. repeat split.
  - repeat constructor;
      intros (ms & s & E & Lk & P); injection E as <-;
      vm_compute in Lk; injection Lk as <-;
      vm_compute in P; discriminate P.
Defined.

Lemma solve_one_early_success_witness :
  @solve_one sample_builtins
    (scripted [sample_candidate_text; sample_fail_text;
               sample_candidate_text; sample_pass_text])
    sample_problem (txt "numeric") 3 []
  = (inr {| ok := true; final_answer := Dict sample_candidate;
            iters := Z.of_nat
                       (length [(Dict sample_candidate, Dict sample_fail_report)])
                     + 1 |},
     session_log sample_problem (txt "numeric")
       sample_fewshot
       ([(Dict sample_candidate, Dict sample_fail_report)]
        ++ [(Dict sample_candidate, Dict sample_pass_report)])).
Proof.
  apply (@solve_one_early_success sample_builtins
           (scripted [sample_candidate_text; sample_fail_text;
                      sample_candidate_text; sample_pass_text])
           sample_problem (txt "numeric") sample_fewshot 3
           [(Dict sample_candidate, Dict sample_fail_report)]
           (Dict sample_candidate) (Dict sample_pass_report)).
  - right. left. reflexivity.
  - reflexivity.
  - cbn. lia.
  - vm_compute. repeat split.
  - constructor; [|constructor].
    intros (ms & s & E & Lk & P). injection E as <-.
    vm_compute in Lk. injection Lk as <-.
    vm_compute in P. discriminate P.
  - exists sample_pass_report, (txt "PASS"). repeat split.
Defined.

Lemma verdict_defaults_closed_witness :
  exists res more,
    @solve_one sample_builtins
      (scripted [sample_candidate_text; sample_no_verdict_text])
      sample_problem (txt "numeric") 2 []
    = (res,
       session_log sample_problem (txt "numeric")
         sample_fewshot
         ([] ++ [(Dict sample_candidate, Dict sample_no_verdict_report)])
       ++ more) /\
    ((Z.of_nat (@length Round []) + 1)%Z = 2%Z ->
       res = inr {| ok := false; final_answer := Dict sample_candidate; iters := 2 |}
       /\ more = []) /\
    ((Z.of_nat (@length Round []) + 1 < 2)%Z ->
       exists out more',
         more = exchange (fixer_request sample_problem (Dict sample_candidate)
                            (Dict sample_no_verdict_report)) out :: more') /\
    (forall r, res = inr r -> ok r = true ->
               (Z.of_nat (@length Round []) + 1 < iters r)%Z).
Proof.
  apply (@verdict_defaults_closed sample_builtins
           (scripted [sample_candidate_text; sample_no_verdict_text])
           sample_problem (txt "numeric") sample_fewshot 2
           [] (Dict sample_candidate) sample_no_verdict_report).
  - right. left. reflexivity.
  - reflexivity.
  - cbn. lia.
  - vm_compute. repeat split.
  - constructor.
  - left. reflexivity.
Defined.

Lemma solve_one_iterations_witness :
  exists fewshot rounds tail,
    getitem SOLVER_FEWSHOT (txt "numeric") = Some fewshot /\
    snd (@solve_one sample_builtins
           (scripted [sample_candidate_text; sample_fail_text;
                      sample_candidate_text])
           sample_problem (txt "numeric") 3 [])
    = session_log sample_problem (txt "numeric") fewshot rounds ++ tail /\
    answered
      (scripted [sample_candidate_text; sample_fail_text; sample_candidate_text]) []
      (snd (@solve_one sample_builtins
              (scripted [sample_candidate_text; sample_fail_text;
                         sample_candidate_text])
              sample_problem (txt "numeric") 3 [])) /\
    match fst (@solve_one sample_builtins
                 (scripted [sample_candidate_text; sample_fail_text;
                            sample_candidate_text])
                 sample_problem (txt "numeric") 3 []) with
    | inr r =>
        tail = [] /\
        Z.of_nat (length rounds) = (if ok r then iters r else Z.max 0 3) /\
        (ok r = true -> final_answer r = fst (last rounds (Null, Null)))
    | inl e =>
        (Z.of_nat (length rounds) < 3)%Z /\
        aborted_round sample_problem (txt "numeric") fewshot
          (last_round None rounds) e tail
    end.
Proof.
  apply (@solve_one_iterations sample_builtins).
  - right. left. reflexivity.
  - apply surjective_pairing.
Defined.

End SampleSessions.

(** * Further properties of the extractor *)

(** X4: the span search returns the part of the text from its first
    opening brace to its last closing brace, when the latter comes
    after the former, and nothing otherwise. *)
Theorem JSON_OBJ_RE_search_first_to_last line m :
  JSON_OBJ_RE_search line = Some m
  <-> exists a b c,
        line = a ++ LBRACE :: b ++ RBRACE :: c
        /\ m = LBRACE :: b ++ [RBRACE]
        /\ ~ In LBRACE a /\ ~ In RBRACE c.
Proof.
  split.
  - revert m. induction line as [|x line IH]; intros m; cbn [JSON_OBJ_RE_search];
      try discriminate.
    assert (K : x <> LBRACE -> JSON_OBJ_RE_search line = Some m ->
            exists a b c, x :: line = a ++ LBRACE :: b ++ RBRACE :: c
                          /\ m = LBRACE :: b ++ [RBRACE]
                          /\ ~ In LBRACE a /\ ~ In RBRACE c).
    { intros Nx H. destruct (IH _ H) as (a & b & c & -> & -> & Na & Nc).
      exists (x :: a), b, c. splits; auto.
      intros [E|I]; [congruence | contradiction]. }
    destruct (N.eqb_spec x LBRACE) as [->|Nx]; auto.
    destruct (through_last_rbrace line) as [m'|] eqn:E.
    + intros H. injection H as <-.
      apply through_last_rbrace_some in E as (b & c & -> & -> & Nc).
      exists [], b, c. splits; auto.
    + intros H. exfalso.
      apply JSON_OBJ_RE_search_some in H as (a & b & c & -> & _).
      apply through_last_rbrace_none in E. apply E.
      apply in_or_app. right. right. apply in_or_app. right. now left.
  - intros (a & b & c & -> & -> & Na & Nc).
    now apply JSON_OBJ_RE_search_span.
Qed.



Section ExtractorMore.

Context {py : Builtins}.




(** What [extract_json] returns, [json.dumps] accepts when it has the
    room the decoder had. *)
Lemma extract_json_encodable line v budget :
  extract_json line = inr v -> (recursion_budget <= budget)%nat ->
  dumps_raises budget v = None.
Proof.
  intros H B.
  assert (T : second_tier line = inr v -> dumps_raises budget v = None).
  { unfold second_tier. destruct (JSON_OBJ_RE_search line) as [m|];
      [|discriminate].
    intros L. eapply loads_encodable; eauto. }
  unfold extract_json in H. fold (second_tier line) in H.
  destruct (loads line) as [e'|v'] eqn:L.
  - destruct e'; try discriminate H. auto.
  - destruct v'; auto. injection H as <-. eapply loads_encodable; eauto.
Qed.

(** X1: whatever [extract_json] returns is a [dict], as its annotation
    [Dict[str, Any]] says: a text whose span parses to a list, a number
    or a string is never returned, because a span opens with a brace. *)
Theorem extract_json_returns_dict line v :
  extract_json line = inr v -> exists d, v = Dict d.
Proof. apply extract_json_dict. Qed.




End ExtractorMore.

Lemma extract_json_returns_dict_witness :
  exists d, Dict [(txt "a", List [Int 1; Int 2])] = Dict d.
Proof.
  apply (extract_json_returns_dict (py := sample_builtins)
           (txt "[0, {`a`: [1, 2]}]")).
  reflexivity.
Defined.




(** * Further properties of the loop *)

Section PipelineMore.

Context {py : Builtins}.
Variable chat : list Request -> Request -> Reply.

Lemma solve_one_assert problem task_type max_iters log :
  ~ In task_type TASK_TYPES ->
  solve_one chat problem task_type max_iters log = (inl AssertionError, log).
Proof.
  intros NV. unfold solve_one.
  destruct (existsb (str_eqb task_type) TASK_TYPES) eqn:E; [|reflexivity].
  apply TASK_TYPES_existsb in E. contradiction.
Qed.

Lemma TASK_TYPES_dec task_type :
  {In task_type TASK_TYPES} + {~ In task_type TASK_TYPES}.
Proof.
  destruct (existsb (str_eqb task_type) TASK_TYPES) eqn:E.
  - left. now apply TASK_TYPES_existsb.
  - right. intros H. apply TASK_TYPES_existsb in H. congruence.
Qed.

(** Every run of [solve_one] with a valid task type, in full. *)
Lemma solve_one_log problem task_type max_iters res log :
  In task_type TASK_TYPES ->
  solve_one chat problem task_type max_iters [] = (res, log) ->
  exists fewshot rounds tail,
    getitem SOLVER_FEWSHOT task_type = Some fewshot /\
    log = rounds_log problem task_type fewshot None rounds ++ tail /\
    answered chat [] (rounds_log problem task_type fewshot None rounds ++ tail) /\
    Forall (fun round => exists d, fst round = Dict d) rounds /\
    match res with
    | inl e =>
        (length rounds < Z.to_nat max_iters)%nat /\ Forall failing rounds /\
        aborted_round problem task_type fewshot (last_round None rounds) e tail
    | inr r =>
        tail = [] /\
        ((exists init cand report,
            rounds = init ++ [(cand, report)] /\
            (length rounds <= Z.to_nat max_iters)%nat /\
            Forall failing init /\ verdict_of report = inr (txt "pass") /\
            r = {| ok := true; final_answer := cand;
                   iters := 1 + Z.of_nat (length init) |})
         \/ (length rounds = Z.to_nat max_iters /\ Forall failing rounds /\
             r = {| ok := false; final_answer := kept_candidate rounds;
                    iters := max_iters |}))
    end.
Proof.
  intros V H. destruct (SOLVER_FEWSHOT_total _ V) as (fewshot & HF).
  rewrite solve_one_valid in H by assumption.
  destruct (for_range chat problem task_type (Z.to_nat max_iters) 1
              (vars_of None) []) as [fres log'] eqn:R.
  apply (for_range_log chat problem task_type fewshot HF) in R
    as (rounds & tail & -> & A & C); [|exact I].
  cbn [List.app map] in A |- *.
  exists fewshot, rounds, tail.
  assert (D : Forall (fun round => exists d, fst round = Dict d) rounds).
  { apply answered_app in A as (A & _).
    now apply answered_rounds_dict in A. }
  split; [exact HF|].
  destruct fres as [e|[r|vars]]; injection H as <- <-;
    (split; [reflexivity|]); (split; [exact A|]); (split; [exact D|]).
  - exact C.
  - destruct C as (-> & C). split; [reflexivity|]. left. exact C.
  - destruct C as (-> & L & F & ->). split; [reflexivity|]. right.
    splits; auto. f_equal. unfold kept_candidate.
    destruct (last_round None rounds) as [[c r]|] eqn:E; [|reflexivity].
    cbn [vars_of candidate].
    assert (Dc : exists d, c = Dict d).
    { destruct rounds as [|r0 rounds]; [discriminate E|].
      cbn [last_round] in E. injection E as E.
      rewrite Forall_forall in D.
      destruct (D (c, r)) as (d & Dd); eauto.
      rewrite <- E, <- (last_cons_default rounds r0 r0).
      destruct (@exists_last _ (r0 :: rounds) ltac:(discriminate))
        as (l' & a & El).
      rewrite El, last_last. apply in_or_app. right. now left. }
    destruct Dc as (d & ->). apply truthy_dict.
Qed.

Lemma solve_one_calls problem task_type max_iters :
  (Z.of_nat (length (snd (solve_one chat problem task_type max_iters [])))
   <= 2 * Z.max 0 max_iters)%Z
  /\ match fst (solve_one chat problem task_type max_iters []) with
     | inr r =>
         Z.of_nat (length (snd (solve_one chat problem task_type max_iters [])))
         = (2 * (if ok r then iters r else Z.max 0 max_iters))%Z
     | inl _ => True
     end.
Proof.
  destruct (TASK_TYPES_dec task_type) as [V|NV].
  - destruct (solve_one chat problem task_type max_iters []) as [res log] eqn:R.
    apply (solve_one_log _ _ _ _ _ V) in R
      as (fewshot & rounds & tail & _ & -> & _ & _ & C).
    cbn [fst snd]. rewrite length_app, rounds_log_length.
    destruct res as [e|r].
    + destruct C as (L & _ & [->|(c & ->)]); cbn [length]; split; auto.
      * lia.
      * lia.
    + destruct C as (-> & [(init & c & rep & -> & L & _ & _ & ->)
                          |(L & _ & ->)]);
        cbn [length ok iters] in *.
      * rewrite length_app in *. cbn [length] in *. lia.
      * lia.
  - rewrite (solve_one_assert _ _ _ _ NV). cbn [fst snd length].
    split; [lia | exact I].
Qed.

Lemma solve_one_returned problem task_type max_iters r log :
  solve_one chat problem task_type max_iters [] = (inr r, log) ->
  (exists d, final_answer r = Dict d)
  /\ (if ok r then (1 <= iters r <= max_iters)%Z else iters r = max_iters).
Proof.
  intros H. destruct (TASK_TYPES_dec task_type) as [V|NV];
    [|rewrite (solve_one_assert _ _ _ _ NV) in H; discriminate H].
  apply (solve_one_log _ _ _ _ _ V) in H
    as (fewshot & rounds & tail & _ & _ & _ & D & _ & C).
  destruct C as [(init & c & rep & -> & L & _ & _ & ->)|(L & _ & ->)];
    cbn [ok iters final_answer].
  - split.
    + apply Forall_app in D as (_ & D). now inversion D.
    + rewrite length_app in L. cbn [length] in L. lia.
  - split; [|reflexivity]. unfold kept_candidate.
    destruct rounds as [|r0 rounds]; [cbn; eauto|].
    cbn [last_round]. rewrite Forall_forall in D.
    destruct (last rounds r0) as [c rep] eqn:E.
    apply (D (c, rep)).
    rewrite <- E, <- (last_cons_default rounds r0 r0).
    destruct (@exists_last _ (r0 :: rounds) ltac:(discriminate))
      as (l' & a & El).
    rewrite El, last_last. apply in_or_app. right. now left.
Qed.

(** X6, call budget: whatever the service does, [solve_one] makes at
    most [2 * max(0, max_iters)] calls; when it returns it has made
    exactly two calls per iteration: [2 * iters] on success and
    [2 * max(0, max_iters)] otherwise. *)
Theorem solve_one_call_bound problem task_type max_iters :
  (Z.of_nat (length (snd (solve_one chat problem task_type max_iters [])))
   <= 2 * Z.max 0 max_iters)%Z
  /\ match fst (solve_one chat problem task_type max_iters []) with
     | inr r =>
         Z.of_nat (length (snd (solve_one chat problem task_type max_iters [])))
         = (2 * (if ok r then iters r else Z.max 0 max_iters))%Z
     | inl _ => True
     end.
Proof. apply solve_one_calls. Qed.

(** X7, shape of the result: a result returned by [solve_one] carries a
    [dict] as [final_answer]; on success [iters] lies between 1 and
    [max_iters], otherwise [iters] is [max_iters] itself. *)
Theorem solve_one_result_shape problem task_type max_iters r log :
  solve_one chat problem task_type max_iters [] = (inr r, log) ->
  (exists d, final_answer r = Dict d)
  /\ (if ok r then (1 <= iters r <= max_iters)%Z else iters r = max_iters).
Proof. apply solve_one_returned. Qed.

(** X8, success is certified: when [solve_one] returns [ok=True], the
    last call it made is the verifier call on the very candidate it
    returns, and the report that call returned passes. *)
Theorem solve_one_success_certified problem task_type max_iters r log :
  solve_one chat problem task_type max_iters [] = (inr r, log) ->
  ok r = true ->
  exists before report,
    log = before ++ [exchange (verifier_request problem (final_answer r))
                       (inr report)]
    /\ gateway chat (map request before)
         (verifier_request problem (final_answer r)) = inr report
    /\ passes report.
Proof.
  intros H Ok. destruct (TASK_TYPES_dec task_type) as [V|NV];
    [|rewrite (solve_one_assert _ _ _ _ NV) in H; discriminate H].
  apply (solve_one_log _ _ _ _ _ V) in H
    as (fewshot & rounds & tail & HF & -> & A & _ & -> & C).
  destruct C as [(init & c & rep & -> & _ & _ & Vp & ->)|(_ & _ & ->)];
    [|discriminate Ok].
  cbn [final_answer]. rewrite app_nil_r in *.
  rewrite rounds_log_app in *. apply answered_app in A as (_ & A).
  cbn [rounds_log answered request outcome exchange List.app] in A.
  destruct A as (_ & G & _).
  exists (rounds_log problem task_type fewshot None init
          ++ [exchange (producer_request problem task_type fewshot
                          (last_round None init)) (inr c)]), rep.
  splits.
  - cbn [rounds_log]. now rewrite <- app_assoc.
  - rewrite map_app. cbn [map request exchange]. now rewrite G.
  - now apply verdict_pass_passes.
Qed.

Lemma gateway_error h req e :
  gateway chat h req = inl e ->
  e = ServiceError \/ MalformedOutput e \/ e = RecursionError.
Proof.
  unfold gateway. destruct (chat h req) as [text|].
  - intros H. right. apply extract_json_error in H.
    unfold MalformedOutput.
    destruct H as [-> | [-> | [-> | (n & -> & _)]]]; eauto.
    left. right. unfold int_from_str_error. eauto.
  - intros H. injection H as <-. now left.
Qed.

(** What a call returns, [json.dumps] accepts. *)
Lemma gateway_encodable h req v budget :
  gateway chat h req = inr v -> (recursion_budget <= budget)%nat ->
  dumps_raises budget v = None.
Proof.
  unfold gateway. destruct (chat h req) as [text|]; [|discriminate].
  apply extract_json_encodable.
Qed.

Lemma answered_encodable budget log :
  (recursion_budget <= budget)%nat ->
  forall h, answered chat h log ->
  Forall (fun call => forall v, outcome call = inr v ->
                                dumps_raises budget v = None) log.
Proof.
  intros B. induction log as [|call log IH]; intros h A; constructor.
  - destruct A as (G & _). intros v E. rewrite E in G. symmetry in G.
    eapply gateway_encodable; eauto.
  - destruct A as (_ & A). eauto.
Qed.

Lemma solve_one_raised problem task_type max_iters e log :
  solve_one chat problem task_type max_iters [] = (inl e, log) ->
  (~ In task_type TASK_TYPES /\ e = AssertionError /\ log = [])
  \/ (In task_type TASK_TYPES /\
      exists before req,
        log = before ++ [exchange req (inl e)]
        /\ gateway chat (map request before) req = inl e
        /\ (e = ServiceError \/ MalformedOutput e \/ e = RecursionError)).
Proof.
  intros H. destruct (TASK_TYPES_dec task_type) as [V|NV].
  - right. split; [exact V|].
    apply (solve_one_log _ _ _ _ _ V) in H
      as (fewshot & rounds & tail & HF & -> & A & _ & _ & _ & Ab).
    apply answered_app in A as (_ & A). cbn [List.app] in A.
    destruct Ab as [->|(c & ->)];
      cbn [answered request outcome exchange] in A.
    + destruct A as (G & _). symmetry in G.
      eexists _, _. splits; [reflexivity | exact G |].
      eapply gateway_error; eauto.
    + destruct A as (_ & G & _). symmetry in G.
      exists (rounds_log problem task_type fewshot None rounds
              ++ [exchange (producer_request problem task_type fewshot
                              (last_round None rounds)) (inr c)]),
             (verifier_request problem c).
      splits.
      * now rewrite <- app_assoc.
      * rewrite map_app. exact G.
      * eapply gateway_error; eauto.
  - left. rewrite (solve_one_assert _ _ _ _ NV) in H.
    injection H as <- <-. auto.
Qed.

(** X9, where exceptions come from: when [solve_one] raises, either the
    task type is invalid ([AssertionError], no call made), or the
    exception is the one the last call made raised: a service failure,
    a [MalformedOutput] or the [RecursionError] of a reply nested
    deeper than the decoder has room for; no call follows a failed one,
    and the loop itself never raises [KeyError] or [AttributeError]. *)
Theorem solve_one_exception_source problem task_type max_iters e log :
  solve_one chat problem task_type max_iters [] = (inl e, log) ->
  (~ In task_type TASK_TYPES /\ e = AssertionError /\ log = [])
  \/ (In task_type TASK_TYPES /\
      exists before req,
        log = before ++ [exchange req (inl e)]
        /\ gateway chat (map request before) req = inl e
        /\ (e = ServiceError \/ MalformedOutput e \/ e = RecursionError)).
Proof. apply solve_one_raised. Qed.

(** X18, [json.dumps] returns: the values [solve_one] serializes are
    the candidates and reports its calls returned, and on each of them
    [json.dumps] raises neither [ValueError] nor [RecursionError],
    having at least the room the decoder had when it read the value. *)
Theorem solve_one_dumps_returns problem task_type max_iters res log budget :
  solve_one chat problem task_type max_iters [] = (res, log) ->
  (recursion_budget <= budget)%nat ->
  Forall (fun call => forall v, outcome call = inr v ->
                                dumps_raises budget v = None) log.
Proof.
  intros H B. destruct (TASK_TYPES_dec task_type) as [V|NV].
  - apply (solve_one_log _ _ _ _ _ V) in H
      as (fewshot & rounds & tail & _ & -> & A & _).
    eapply answered_encodable; eauto.
  - rewrite (solve_one_assert _ _ _ _ NV) in H. injection H as _ <-.
    constructor.
Qed.

Lemma producer_pipeline_request problem task_type fewshot prev :
  pipeline_request (producer_request problem task_type fewshot prev).
Proof.
  destruct prev as [[c r]|]; unfold pipeline_request;
    cbn [model temperature seed system producer_request solver_request
         fixer_request];
    splits; auto.
Qed.

Lemma verifier_pipeline_request problem cand :
  pipeline_request (verifier_request problem cand).
Proof.
  unfold pipeline_request;
    cbn [model temperature seed system verifier_request]; splits; auto.
Qed.

Lemma rounds_log_pipeline problem task_type fewshot rounds :
  forall prev,
    Forall (fun ex => pipeline_request (request ex))
      (rounds_log problem task_type fewshot prev rounds).
Proof.
  induction rounds as [|[c r] rounds IH]; intros prev; cbn [rounds_log].
  - constructor.
  - constructor; [apply producer_pipeline_request|].
    constructor; [apply verifier_pipeline_request|]. apply IH.
Qed.

(** X10, fixed decoding parameters: every request of every session is
    sent to the model [deepseek-r1:1.5b] with temperature 0.0 and seed
    42, under one of the three system prompts. *)
Theorem solve_one_requests_fixed problem task_type max_iters :
  Forall (fun ex => pipeline_request (request ex))
    (snd (solve_one chat problem task_type max_iters [])).
Proof.
  destruct (TASK_TYPES_dec task_type) as [V|NV].
  - destruct (solve_one chat problem task_type max_iters []) as [res log] eqn:R.
    apply (solve_one_log _ _ _ _ _ V) in R
      as (fewshot & rounds & tail & _ & -> & _ & _ & C).
    cbn [snd]. apply Forall_app. split; [apply rounds_log_pipeline|].
    destruct res as [e|r].
    + destruct C as (_ & _ & [->|(c & ->)]).
      * constructor; [apply producer_pipeline_request | constructor].
      * constructor; [apply producer_pipeline_request|].
        constructor; [apply verifier_pipeline_request | constructor].
    + destruct C as (-> & _). constructor.
  - rewrite (solve_one_assert _ _ _ _ NV). constructor.
Qed.

(** X11, a larger budget changes nothing once a session has succeeded or
    raised: if [solve_one] with bound [N] returns [ok=True] or raises
    after the assertion, then with every bound [N' >= N] it makes the
    same calls and ends the same way. *)
Theorem solve_one_budget_stable problem task_type N N' res log :
  In task_type TASK_TYPES -> (N <= N')%Z ->
  solve_one chat problem task_type N [] = (res, log) ->
  match res with inr r => ok r = true | inl _ => True end ->
  solve_one chat problem task_type N' [] = (res, log).
Proof.
  intros V LN H Ok.
  apply (solve_one_log _ _ _ _ _ V) in H
    as (fewshot & rounds & tail & HF & -> & A & D & C).
  rewrite solve_one_valid by assumption.
  assert (PO : forall init, (exists more, rounds = init ++ more) ->
                            prev_ok (last_round None init)).
  { intros init (more & ->). apply Forall_app in D as (D & _).
    destruct init as [|r0 init]; [exact I|]. cbn [last_round prev_ok].
    destruct (@exists_last _ (r0 :: init) ltac:(discriminate))
      as (l' & a & E).
    rewrite <- (last_cons_default init r0 r0), E, last_last.
    rewrite E in D. apply Forall_app in D as (_ & D).
    inversion D as [|? ? Da _]; subst. destruct a as [c0 rep0]. exact Da. }
  destruct res as [e|r].
  - destruct C as (L & F & Ab).
    apply answered_app in A as (A1 & A2). cbn [List.app] in A2.
    replace (Z.to_nat N')
      with (length rounds + S (Z.to_nat N' - length rounds - 1))%nat by lia.
    rewrite (for_range_forward chat problem task_type fewshot HF rounds None []);
      auto; try exact I.
    cbn [for_range List.app]. unfold bind.
    rewrite (loop_body_eq chat problem task_type fewshot HF);
      [|apply PO; exists []; now rewrite app_nil_r].
    destruct Ab as [->|(c & ->)];
      cbn [answered request outcome exchange] in A2.
    + destruct A2 as (G & _). rewrite <- G. reflexivity.
    + destruct A2 as (G1 & G2 & _). rewrite <- G1. cbv zeta.
      rewrite map_request_snoc, <- G2. now rewrite <- app_assoc.
  - destruct C as (-> & [(init & c & rep & -> & L & F & Vp & ->)|(_ & _ & ->)]);
      [|discriminate Ok].
    rewrite app_nil_r in *. rewrite rounds_log_app in *.
    apply answered_app in A as (A1 & A2). cbn [List.app] in A2.
    rewrite length_app in L. cbn [length] in L.
    replace (Z.to_nat N')
      with (length init + S (Z.to_nat N' - length init - 1))%nat by lia.
    rewrite (for_range_forward chat problem task_type fewshot HF init None []);
      auto; try exact I.
    cbn [for_range List.app]. unfold bind.
    rewrite (loop_body_eq chat problem task_type fewshot HF);
      [|apply PO; eauto].
    cbn [rounds_log answered request outcome exchange] in A2.
    destruct A2 as (G1 & G2 & _). rewrite <- G1. cbv zeta.
    rewrite map_request_snoc, <- G2, Vp, str_eqb_refl.
    unfold ret. cbv beta iota. cbn [rounds_log].
    now rewrite <- app_assoc.
Qed.

End PipelineMore.

Section SampleRuns.

#[local] Existing Instance sample_builtins.

Lemma solve_one_result_shape_witness :
  (exists d, Dict sample_candidate = Dict d) /\ (1 <= 2 <= 3)%Z.
Proof.
  apply (@solve_one_result_shape sample_builtins
           (scripted [sample_candidate_text; sample_fail_text;
                      sample_candidate_text; sample_pass_text])
           sample_problem (txt "numeric") 3
           {| ok := true; final_answer := Dict sample_candidate; iters := 2 |}
           (session_log sample_problem (txt "numeric") sample_fewshot
              [(Dict sample_candidate, Dict sample_fail_report);
               (Dict sample_candidate, Dict sample_pass_report)])).
  vm_compute. reflexivity.
Defined.

Lemma solve_one_success_certified_witness :
  exists before report,
    session_log sample_problem (txt "numeric") sample_fewshot
      [(Dict sample_candidate, Dict sample_pass_report)]
    = before ++ [exchange (verifier_request sample_problem (Dict sample_candidate))
                   (inr report)]
    /\ gateway (scripted [sample_candidate_text; sample_pass_text])
         (map request before)
         (verifier_request sample_problem (Dict sample_candidate)) = inr report
    /\ passes (py := sample_builtins) report.
Proof.
  apply (@solve_one_success_certified sample_builtins
           (scripted [sample_candidate_text; sample_pass_text])
           sample_problem (txt "numeric") 2
           {| ok := true; final_answer := Dict sample_candidate; iters := 1 |}).
  - vm_compute. reflexivity.
  - reflexivity.
Defined.

Lemma solve_one_exception_source_witness :
  (~ In (txt "numeric") TASK_TYPES /\ ValueError (txt "No valid JSON object found") = AssertionError
   /\ [exchange (solver_request sample_problem (txt "numeric") sample_fewshot)
         (inl (ValueError (txt "No valid JSON object found")))] = [])
  \/ (In (txt "numeric") TASK_TYPES /\
      exists before req,
        [exchange (solver_request sample_problem (txt "numeric") sample_fewshot)
           (inl (ValueError (txt "No valid JSON object found")))]
        = before ++ [exchange req (inl (ValueError (txt "No valid JSON object found")))]
        /\ gateway (always (txt "I cannot answer that.")) (map request before) req
           = inl (ValueError (txt "No valid JSON object found"))
        /\ (ValueError (txt "No valid JSON object found") = ServiceError
            \/ MalformedOutput (ValueError (txt "No valid JSON object found"))
            \/ ValueError (txt "No valid JSON object found") = RecursionError)).
Proof.
  apply (@solve_one_exception_source sample_builtins
           (always (txt "I cannot answer that."))
           sample_problem (txt "numeric") 3).
  vm_compute. reflexivity.
Defined.

Lemma solve_one_dumps_returns_witness :
  Forall (fun call => forall v, outcome call = inr v ->
                                dumps_raises 900 v = None)
    (session_log sample_problem (txt "numeric") sample_fewshot
       [(Dict sample_candidate, Dict sample_pass_report)]).
Proof.
  apply (@solve_one_dumps_returns sample_builtins
           (scripted [sample_candidate_text; sample_pass_text])
           sample_problem (txt "numeric") 2
           (inr {| ok := true; final_answer := Dict sample_candidate;
                   iters := 1 |})).
  - vm_compute. reflexivity.
  - simpl. lia.
Defined.

Lemma solve_one_budget_stable_witness :
  @solve_one sample_builtins
    (scripted [sample_candidate_text; sample_pass_text])
    sample_problem (txt "numeric") 7 []
  = (inr {| ok := true; final_answer := Dict sample_candidate; iters := 1 |},
     session_log sample_problem (txt "numeric") sample_fewshot
       [(Dict sample_candidate, Dict sample_pass_report)]).
Proof.
  apply (@solve_one_budget_stable sample_builtins
           (scripted [sample_candidate_text; sample_pass_text])
           sample_problem (txt "numeric") 1 7).
  - right. left. reflexivity.
  - lia.
  - vm_compute. reflexivity.
  - reflexivity.
Defined.

End SampleRuns.

(** * The table of worked examples *)

Section Examples.

Context {py : Builtins}.

(** A text the decoder reads in less room than it has. *)
Lemma loads_room depth s v :
  strip_prefix [65279] s = None ->
  scan_once depth (skip_ws s) = Parsed v [] -> closed_off v [] ->
  (depth <= recursion_budget)%nat ->
  loads s = inr v.
Proof.
  intros B P C L. unfold loads.
  now rewrite B, (scan_once_deeper _ _ _ _ _ P L C).
Qed.

Lemma extract_json_room depth line d :
  strip_prefix [65279] line = None ->
  scan_once depth (skip_ws line) = Parsed (Dict d) [] ->
  (depth <= recursion_budget)%nat ->
  extract_json line = inr (Dict d).
Proof.
  intros B P L. unfold extract_json.
  now rewrite (loads_room depth line (Dict d) B P I L).
Qed.

(** X12: the table [SOLVER_FEWSHOT] has an entry for a task type exactly
    when the type is in [TASK_TYPES], so the subscript in [solve_one]
    never raises [KeyError] once the assertion has passed; and each
    entry is an answer [extract_json] itself accepts, an object whose
    [answer_type] is the task type it illustrates. The entries hold a
    list inside an object, so the decoder needs room for two levels. *)
Theorem SOLVER_FEWSHOT_examples task_type :
  (2 <= recursion_budget)%nat ->
  (In task_type TASK_TYPES <->
   exists fewshot members,
     getitem SOLVER_FEWSHOT task_type = Some fewshot
     /\ extract_json fewshot = inr (Dict members)
     /\ lookup members (txt "answer_type") = Some (Str task_type)).
Proof.
  intros R. split.
  - intros [<- | [<- | [<- | [<- | []]]]];
      eexists; eexists; (split; [reflexivity|]);
      (split;
       [apply (extract_json_room 2); [reflexivity | lazy; reflexivity | exact R]
       |reflexivity]).
  - intros (fewshot & members & G & _).
    unfold SOLVER_FEWSHOT in G. cbn [getitem] in G.
    repeat match type of G with
    | (if str_eqb ?k task_type then _ else _) = _ =>
        let E := fresh "E" in
        destruct (str_eqb k task_type) eqn:E;
          [apply str_eqb_eq in E; rewrite <- E; cbn [TASK_TYPES In]; tauto|]
    end.
    discriminate G.
Qed.

End Examples.

Lemma SOLVER_FEWSHOT_examples_witness :
  In (txt "numeric") TASK_TYPES <->
  exists fewshot members,
    getitem SOLVER_FEWSHOT (txt "numeric") = Some fewshot
    /\ extract_json (py := sample_builtins) fewshot = inr (Dict members)
    /\ lookup members (txt "answer_type") = Some (Str (txt "numeric")).
Proof.
  apply (SOLVER_FEWSHOT_examples (py := sample_builtins)).
  simpl. lia.
Defined.

(** * The web endpoints *)

Section EndpointFacts.

Context {py : Builtins}.
Variable chat : list Request -> Request -> Reply.
Variable int_of_float : str -> api_exn + Z.
Variable int_of_str : str -> api_exn + Z.

(** X13, the form endpoint: [solve] runs under the default bound, so it
    makes at most [2 * MAX_ITERS = 6] calls; when it returns, the
    context it renders echoes the submitted problem and task type,
    [iters] lies between 1 and 3 and the calls made are two per
    iteration counted. *)
Theorem solve_default_budget problem task_type :
  (length (snd (solve chat problem task_type [])) <= 6)%nat
  /\ match fst (solve chat problem task_type []) with
     | inr c =>
         ctx_problem c = problem /\ ctx_task_type c = task_type
         /\ (1 <= iters (ctx_result c) <= MAX_ITERS)%Z
         /\ Z.of_nat (length (snd (solve chat problem task_type [])))
            = (2 * iters (ctx_result c))%Z
     | inl _ => True
     end.
Proof.
  unfold solve, bind, ret.
  destruct (solve_one_calls chat problem task_type MAX_ITERS) as (B & E).
  destruct (solve_one chat problem task_type MAX_ITERS []) as [[e|r] log] eqn:R;
    cbn [fst snd] in *; change MAX_ITERS with 3%Z in *.
  - split; [lia | exact I].
  - apply solve_one_returned in R as (_ & R).
    cbn [ctx_problem ctx_task_type ctx_result].
    revert R E. destruct (ok r); intros R E; splits; auto; lia.
Qed.

(** X14, no call without valid input: [api_solve] reaches the model only
    when [int()] accepts the [max_iters] field with a positive value and
    the task type is one of the four strings; in every other case the
    request ends with no call made. *)
Theorem api_solve_calls_need_valid_input payload :
  snd (api_solve chat int_of_float int_of_str payload []) <> [] ->
  exists N task_type,
    py_int int_of_float int_of_str
      (payload_get payload (txt "max_iters") (Int MAX_ITERS)) = inr N
    /\ (0 < N)%Z
    /\ payload_get payload (txt "task_type") (Str (txt "mcq")) = Str task_type
    /\ In task_type TASK_TYPES.
Proof.
  unfold api_solve.
  destruct (py_int int_of_float int_of_str
              (payload_get payload (txt "max_iters") (Int MAX_ITERS)))
    as [e|N]; [intros H; now contradiction H|].
  destruct (payload_get payload (txt "task_type") (Str (txt "mcq")))
    as [ | | | |task_type| | ]; try (intros H; now contradiction H).
  intros H. exists N, task_type.
  destruct (TASK_TYPES_dec task_type) as [V|NV].
  - splits; auto.
    destruct (solve_one_calls chat (py_str (payload_get payload (txt "problem") (Str [])))
                task_type N) as (B & _).
    destruct (solve_one chat _ task_type N []) as [[e|r] log];
      cbn [fst snd] in *;
      (destruct log; [now contradiction H | cbn [length] in B; lia]).
  - rewrite (solve_one_assert chat _ _ _ _ NV) in H. now contradiction H.
Qed.

(** X15, the response: what [api_solve] returns is an object of exactly
    four members, [ok], [final_answer] (an object), [iters] and [meta],
    the last naming the model [deepseek-r1:1.5b]; on success [iters]
    lies between 1 and the converted [max_iters], otherwise it equals
    it; and the calls made are two per iteration. *)
Theorem api_solve_response payload v log :
  api_solve chat int_of_float int_of_str payload [] = (inr v, log) ->
  exists b d n N,
    v = Dict [ (txt "ok", Bool b); (txt "final_answer", Dict d);
               (txt "iters", Int n);
               (txt "meta", Dict [(txt "model", Str (txt "deepseek-r1:1.5b"))]) ]
    /\ py_int int_of_float int_of_str
         (payload_get payload (txt "max_iters") (Int MAX_ITERS)) = inr N
    /\ (if b then (1 <= n <= N)%Z else n = N)
    /\ Z.of_nat (length log) = (2 * (if b then n else Z.max 0 N))%Z.
Proof.
  unfold api_solve.
  destruct (py_int int_of_float int_of_str
              (payload_get payload (txt "max_iters") (Int MAX_ITERS)))
    as [e|N]; [discriminate|].
  destruct (payload_get payload (txt "task_type") (Str (txt "mcq")))
    as [ | | | |task_type| | ]; try discriminate.
  destruct (solve_one_calls chat (py_str (payload_get payload (txt "problem") (Str [])))
              task_type N) as (_ & C).
  destruct (solve_one chat _ task_type N []) as [[e|r] log'] eqn:R;
    [discriminate|].
  intros H. injection H as <- <-. cbn [fst snd] in C.
  apply solve_one_returned in R as ((d & D) & I).
  exists (ok r), d, (iters r), N. rewrite D. splits; auto.
Qed.

(** X16, where the errors of the API come from: when [api_solve] raises,
    either no call was made and the exception is the one [int()]
    raised, a [TypeError] or the [AssertionError] of [solve_one]; or it
    is the exception of the last call made, a service failure, a
    [MalformedOutput] or a [RecursionError], passed on unchanged. *)
Theorem api_solve_exception_source payload e log :
  api_solve chat int_of_float int_of_str payload [] = (inl e, log) ->
  (log = []
   /\ (py_int int_of_float int_of_str
         (payload_get payload (txt "max_iters") (Int MAX_ITERS)) = inl e
       \/ e = TypeError \/ e = Raised AssertionError))
  \/ exists e' before req,
       e = Raised e' /\ log = before ++ [exchange req (inl e')]
       /\ gateway chat (map request before) req = inl e'
       /\ (e' = ServiceError \/ MalformedOutput e' \/ e' = RecursionError).
Proof.
  unfold api_solve.
  destruct (py_int int_of_float int_of_str
              (payload_get payload (txt "max_iters") (Int MAX_ITERS)))
    as [e0|N]; [intros H; injection H as <- <-; auto|].
  destruct (payload_get payload (txt "task_type") (Str (txt "mcq")))
    as [ | | | |task_type| | ];
    try (intros H; injection H as <- <-; now auto).
  destruct (solve_one chat _ task_type N []) as [[e'|r] log'] eqn:R;
    [|discriminate].
  intros H. injection H as <- <-.
  apply solve_one_raised in R as [(_ & -> & ->)|(_ & before & req & -> & G & K)].
  - left. auto.
  - right. exists e', before, req. auto.
Qed.

(** X17, the defaults: a body that names none of [problem], [task_type]
    and [max_iters] is answered from the very session the form endpoint
    runs on the empty problem with task type [mcq]. *)
Theorem api_solve_defaults payload log :
  lookup payload (txt "problem") = None ->
  lookup payload (txt "task_type") = None ->
  lookup payload (txt "max_iters") = None ->
  api_solve chat int_of_float int_of_str payload log
  = match solve chat [] (txt "mcq") log with
    | (inr c, log') =>
        (inr (Dict [ (txt "ok", Bool (ok (ctx_result c)));
                     (txt "final_answer", final_answer (ctx_result c));
                     (txt "iters", Int (iters (ctx_result c)));
                     (txt "meta", Dict [(txt "model", Str MODEL_SOLVER)]) ]),
         log')
    | (inl e, log') => (inl (Raised e), log')
    end.
Proof.
  intros P T I. unfold api_solve, payload_get, solve, bind, ret.
  rewrite P, T, I. cbn [py_int py_str].
  now destruct (solve_one chat [] (txt "mcq") MAX_ITERS log) as [[e|r] log'].
Qed.

End EndpointFacts.

Section SampleRequests.

#[local] Existing Instance sample_builtins.

Lemma api_solve_calls_need_valid_input_witness :
  exists N task_type,
    py_int sample_int_of_float sample_int_of_str
      (payload_get [(txt "problem", Str sample_problem);
                    (txt "task_type", Str (txt "numeric"));
                    (txt "max_iters", Str (txt "2"))]
         (txt "max_iters") (Int MAX_ITERS)) = inr N
    /\ (0 < N)%Z
    /\ payload_get [(txt "problem", Str sample_problem);
                    (txt "task_type", Str (txt "numeric"));
                    (txt "max_iters", Str (txt "2"))]
         (txt "task_type") (Str (txt "mcq")) = Str task_type
    /\ In task_type TASK_TYPES.
Proof.
  apply (@api_solve_calls_need_valid_input sample_builtins
           (scripted [sample_candidate_text; sample_pass_text])).
  vm_compute. discriminate.
Defined.

Lemma api_solve_response_witness :
  exists b d n N,
    Dict [ (txt "ok", Bool true); (txt "final_answer", Dict sample_candidate);
           (txt "iters", Int 2);
           (txt "meta", Dict [(txt "model", Str (txt "deepseek-r1:1.5b"))]) ]
    = Dict [ (txt "ok", Bool b); (txt "final_answer", Dict d);
             (txt "iters", Int n);
             (txt "meta", Dict [(txt "model", Str (txt "deepseek-r1:1.5b"))]) ]
    /\ py_int sample_int_of_float sample_int_of_str
         (payload_get [(txt "problem", Str sample_problem);
                       (txt "task_type", Str (txt "numeric"))]
            (txt "max_iters") (Int MAX_ITERS)) = inr N
    /\ (if b then (1 <= n <= N)%Z else n = N)
    /\ Z.of_nat (length
         (session_log sample_problem (txt "numeric") sample_fewshot
            [(Dict sample_candidate, Dict sample_fail_report);
             (Dict sample_candidate, Dict sample_pass_report)]))
       = (2 * (if b then n else Z.max 0 N))%Z.
Proof.
  apply (@api_solve_response sample_builtins
           (scripted [sample_candidate_text; sample_fail_text;
                      sample_candidate_text; sample_pass_text])).
  vm_compute. reflexivity.
Defined.

Lemma api_solve_exception_source_witness :
  (([] : list Exchange) = []
   /\ (py_int sample_int_of_float sample_int_of_str
         (payload_get [(txt "task_type", Str (txt "numeric"));
                       (txt "max_iters", Null)]
            (txt "max_iters") (Int MAX_ITERS)) = inl TypeError
       \/ TypeError = TypeError \/ TypeError = Raised AssertionError))
  \/ exists e' before req,
       TypeError = Raised e' /\ [] = before ++ [exchange req (inl e')]
       /\ gateway (always sample_candidate_text) (map request before) req = inl e'
       /\ (e' = ServiceError \/ MalformedOutput e' \/ e' = RecursionError).
Proof.
  apply (@api_solve_exception_source sample_builtins
           (always sample_candidate_text) sample_int_of_float sample_int_of_str
           [(txt "task_type", Str (txt "numeric")); (txt "max_iters", Null)]).
  reflexivity.
Defined.

Lemma api_solve_defaults_witness :
  @api_solve sample_builtins (scripted [sample_candidate_text; sample_pass_text])
    sample_int_of_float sample_int_of_str [(txt "seed", Int 7)] []
  = (inr (Dict [ (txt "ok", Bool true);
                 (txt "final_answer", Dict sample_candidate);
                 (txt "iters", Int 1);
                 (txt "meta", Dict [(txt "model", Str (txt "deepseek-r1:1.5b"))]) ]),
     session_log [] (txt "mcq")
       (txt "{`answer_type`:`mcq`,`final_answer_letter`:`B`,`key_checks`:[`letter in {A,B,C,D}`],`confidence`:0.78}")
       [(Dict sample_candidate, Dict sample_pass_report)]).
Proof.
  etransitivity.
  - apply (@api_solve_defaults sample_builtins
             (scripted [sample_candidate_text; sample_pass_text])
             sample_int_of_float sample_int_of_str [(txt "seed", Int 7)] []);
      reflexivity.
  - reflexivity.
Defined.

End SampleRequests.
